(** * SupaBootstrap: feature registry and feature installer

    A shallow embedding of [core/registry.ts] (class [FeatureRegistryManager])
    and [core/installer.ts] (class [FeatureInstaller]), together with the
    parts of [core/config.ts], [utils/file-operations.ts] and
    [core/supabase-cli.ts] they call.

    JavaScript objects used as dictionaries are finite maps or association
    lists (the latter where [Object.keys] order decides which error is
    reported first), [Set<string>] is [gset string], arrays are lists, and
    thrown errors are an explicit [Err] result. The maps and lists hold the
    own properties of an object, which is what [Object.keys],
    [Object.entries] and [JSON.stringify] see; a property read
    [object[key]] also finds the members inherited from [Object.prototype]
    ([features_get], [installed_get]), and an assignment to the key
    [__proto__] goes to the inherited setter ([assign_record]). *)

From Stdlib Require Import Ascii.
From stdpp Require Import base option list sets gmap strings relations pretty
  sorting.

(** ** Results of fallible code *)

Inductive Result (E A : Type) : Type :=
| Ok (a : A)
| Err (e : E).
Arguments Ok {E A} a.
Arguments Err {E A} e.

(** * The feature registry *)

Module Registry.

(** The [dependencies] member of a descriptor as [validateFeature] sees it:
    absent, present but not an array, or an array of feature ids. *)
Inductive DepsField :=
| DepsAbsent
| DepsNotArray
| DepsArray (ids : list string).

(** [interface Feature]; a member that is [None] is absent from the parsed
    JSON object. *)
Record Feature := mkFeature {
  f_name : option string;
  f_description : option string;
  f_version : option string;
  f_dependencies : DepsField;
  f_category : option string
}.

(** [interface FeatureRegistry]; [features] lists the entries of the object
    in [Object.entries] order. *)
Record FeatureRegistry := mkRegistry {
  reg_version : option string;
  reg_features : option (list (string * Feature))
}.

Inductive RegistryError :=
| RegistryMissingVersion
| RegistryInvalidFeatures
| MissingField (featureId field : string)
| DependenciesNotArray (featureId : string)
| UnknownDependency (featureId dependency : string)
| CircularDependency (featureId : string)
| FeatureNotFound (featureId : string)
| LoadFailed (cause : RegistryError)
| NotIterable (expression : string).

(** The text of each thrown [Error]. *)
Fixpoint error_message (e : RegistryError) : string :=
  match e with
  | RegistryMissingVersion => "Feature registry missing version"
  | RegistryInvalidFeatures =>
      "Feature registry missing or invalid features object"
  | MissingField id field =>
      "Feature '" +:+ id +:+ "' missing required field: " +:+ field
  | DependenciesNotArray id =>
      "Feature '" +:+ id +:+ "' dependencies must be an array"
  | UnknownDependency id dep =>
      "Feature '" +:+ id +:+ "' depends on unknown feature '" +:+ dep +:+ "'"
  | CircularDependency id =>
      "Circular dependency detected involving feature '" +:+ id +:+ "'"
  | FeatureNotFound id => "Feature '" +:+ id +:+ "' not found"
  | LoadFailed cause =>
      "Failed to load feature registry: " +:+ error_message cause
  | NotIterable expression => expression +:+ " is not iterable"
  end.

(** The feature ids an error names. *)
Fixpoint error_features (e : RegistryError) : list string :=
  match e with
  | RegistryMissingVersion | RegistryInvalidFeatures | NotIterable _ => []
  | MissingField id _ | DependenciesNotArray id | CircularDependency id
  | FeatureNotFound id => [id]
  | UnknownDependency id dep => [id; dep]
  | LoadFailed cause => error_features cause
  end.

Abbreviation Features := (list (string * Feature)).

(** The own property [featureId] of [features]. *)
Fixpoint lookup_feature (features : Features) (featureId : string)
  : option Feature :=
  match features with
  | [] => None
  | (k, f) :: rest =>
      if decide (k = featureId) then Some f else lookup_feature rest featureId
  end.

(** The names of the own properties of [Object.prototype]. An object that
    [JSON.parse] or an object literal creates inherits these members: the
    read [object[key]] finds one of them when the object has no own property
    [key]. *)
Definition object_prototype : list string :=
  ["constructor"; "__defineGetter__"; "__defineSetter__"; "hasOwnProperty";
   "__lookupGetter__"; "__lookupSetter__"; "isPrototypeOf";
   "propertyIsEnumerable"; "toString"; "valueOf"; "__proto__";
   "toLocaleString"].

(** An inherited member, read as a descriptor. It is a function, or
    [Object.prototype] itself for [__proto__]; of the five members of a
    descriptor it has at most [name], the name of the function. *)
Definition inherited_member (key : string) : Feature :=
  mkFeature
    (if decide (key = "__proto__") then None
     else Some (if decide (key = "constructor") then "Object" else key))
    None None DepsAbsent None.

(** [features[featureId]]: the own property, else the member inherited from
    [Object.prototype], else [undefined]. Every value it finds is truthy. *)
Definition features_get (features : Features) (featureId : string)
  : option Feature :=
  match lookup_feature features featureId with
  | Some feature => Some feature
  | None =>
      if decide (featureId ∈ object_prototype)
      then Some (inherited_member featureId) else None
  end.

(** [Object.keys(features)] *)
Definition feature_ids (features : Features) : list string := features.*1.

(** The declared dependencies of a descriptor whose [dependencies] member
    is an array. *)
Definition deps_list (f : Feature) : list string :=
  match f_dependencies f with
  | DepsArray ids => ids
  | _ => []
  end.

(** *** validateFeature *)

Definition validateFeature (featureId : string) (feature : Feature)
  : Result RegistryError unit :=
  match f_name feature with
  | None => Err (MissingField featureId "name")
  | Some _ =>
  match f_description feature with
  | None => Err (MissingField featureId "description")
  | Some _ =>
  match f_version feature with
  | None => Err (MissingField featureId "version")
  | Some _ =>
  match f_dependencies feature with
  | DepsAbsent => Err (MissingField featureId "dependencies")
  | deps =>
  match f_category feature with
  | None => Err (MissingField featureId "category")
  | Some _ =>
  match deps with
  | DepsArray _ => Ok tt
  | _ => Err (DependenciesNotArray featureId)
  end end end end end end.

Fixpoint validateFeatures (entries : Features) : Result RegistryError unit :=
  match entries with
  | [] => Ok tt
  | (featureId, feature) :: rest =>
      match validateFeature featureId feature with
      | Err e => Err e
      | Ok _ => validateFeatures rest
      end
  end.

(** *** checkCircularDependencies *)

Record CycleState := mkCycleState {
  visited : gset string;
  recursionStack : gset string
}.

(** The loop over [feature.dependencies] inside [hasCycle]; [rec] is the
    recursive call. A [true] answer of the call is turned into the thrown
    circular-dependency error naming [featureId]. The test
    [!features[dependency]] is a property read, so a dependency named like
    a member of [Object.prototype] passes it. *)
Fixpoint hasCycle_deps
    (rec : string → CycleState → option (Result RegistryError (bool * CycleState)))
    (features : Features) (featureId : string)
    (deps : list string) (st : CycleState)
  : option (Result RegistryError CycleState) :=
  match deps with
  | [] => Some (Ok st)
  | dependency :: rest =>
      match features_get features dependency with
      | None => Some (Err (UnknownDependency featureId dependency))
      | Some _ =>
          match rec dependency st with
          | None => None
          | Some (Err e) => Some (Err e)
          | Some (Ok (true, _)) => Some (Err (CircularDependency featureId))
          | Some (Ok (false, st')) =>
              hasCycle_deps rec features featureId rest st'
          end
      end
  end.

(** The closure [hasCycle]; [fuel] bounds the recursion depth and [None]
    means the bound was hit. The [for]-[of] loop throws a [TypeError] when
    [feature.dependencies] is no array: for a descriptor that
    [validateFeature] would reject, and for an inherited member, which has
    no [dependencies]. *)
Fixpoint hasCycle (fuel : nat) (features : Features) (featureId : string)
    (st : CycleState) : option (Result RegistryError (bool * CycleState)) :=
  match fuel with
  | 0 => None
  | S fuel' =>
      if decide (featureId ∈ recursionStack st) then Some (Ok (true, st))
      else if decide (featureId ∈ visited st) then Some (Ok (false, st))
      else
        let st1 := {| visited := {[featureId]} ∪ visited st;
                      recursionStack := {[featureId]} ∪ recursionStack st |} in
        let after_deps :=
          match features_get features featureId with
          | Some feature =>
              match f_dependencies feature with
              | DepsArray dependencies =>
                  hasCycle_deps (hasCycle fuel' features) features featureId
                    dependencies st1
              | _ => Some (Err (NotIterable "feature.dependencies"))
              end
          | None => Some (Ok st1)
          end in
        match after_deps with
        | None => None
        | Some (Err e) => Some (Err e)
        | Some (Ok st2) =>
            Some (Ok (false,
                      {| visited := visited st2;
                         recursionStack := recursionStack st2 ∖ {[featureId]} |}))
        end
  end.

(** The final loop over [Object.keys(features)]. *)
Fixpoint check_all (fuel : nat) (features : Features) (ids : list string)
    (st : CycleState) : option (Result RegistryError CycleState) :=
  match ids with
  | [] => Some (Ok st)
  | featureId :: rest =>
      if decide (featureId ∈ visited st) then check_all fuel features rest st
      else
        match hasCycle fuel features featureId st with
        | None => None
        | Some (Err e) => Some (Err e)
        | Some (Ok (_, st')) => check_all fuel features rest st'
        end
  end.

Definition checkCircularDependencies (features : Features)
  : option (Result RegistryError unit) :=
  match check_all (S (length features)) features (feature_ids features)
          {| visited := ∅; recursionStack := ∅ |} with
  | None => None
  | Some (Err e) => Some (Err e)
  | Some (Ok _) => Some (Ok tt)
  end.

(** *** validateRegistry and loadRegistry *)

Definition validateRegistry (registry : FeatureRegistry)
  : option (Result RegistryError unit) :=
  match reg_version registry with
  | None | Some "" => Some (Err RegistryMissingVersion)
  | Some _ =>
      match reg_features registry with
      | None => Some (Err RegistryInvalidFeatures)
      | Some features =>
          match validateFeatures features with
          | Err e => Some (Err e)
          | Ok _ => checkCircularDependencies features
          end
      end
  end.

(** [loadRegistry] on a manager whose cache is still empty, given the parsed
    content of [features.json]. *)
Definition loadRegistry (parsed : FeatureRegistry)
  : option (Result RegistryError FeatureRegistry) :=
  match validateRegistry parsed with
  | None => None
  | Some (Err e) => Some (Err (LoadFailed e))
  | Some (Ok _) => Some (Ok parsed)
  end.

Definition registry_features (registry : FeatureRegistry) : Features :=
  default [] (reg_features registry).

(** [getFeature] over a loaded registry: [registry.features[featureId] ||
    null]. *)
Definition getFeature (registry : FeatureRegistry) (featureId : string)
  : option Feature :=
  features_get (registry_features registry) featureId.

(** *** resolveDependencies *)

Record ResolveState := mkResolveState {
  r_visited : gset string;
  resolved : list string
}.

(** The loop over [currentFeature.dependencies] inside [resolve]. *)
Fixpoint resolve_deps
    (rec : string → ResolveState → option (Result RegistryError ResolveState))
    (deps : list string) (st : ResolveState)
  : option (Result RegistryError ResolveState) :=
  match deps with
  | [] => Some (Ok st)
  | dependency :: rest =>
      match rec dependency st with
      | None => None
      | Some (Err e) => Some (Err e)
      | Some (Ok st') => resolve_deps rec rest st'
      end
  end.

(** The closure [resolve]; as in [hasCycle], the loop throws a [TypeError]
    when [currentFeature.dependencies] is no array. (A string would be
    walked by character instead; [validateFeature] rejects it, and no
    statement below lets [resolve] meet an unvalidated descriptor that is
    not complete.) *)
Fixpoint resolve (fuel : nat) (features : Features) (currentFeatureId : string)
    (st : ResolveState) : option (Result RegistryError ResolveState) :=
  match fuel with
  | 0 => None
  | S fuel' =>
      if decide (currentFeatureId ∈ r_visited st) then Some (Ok st)
      else
        let st1 := {| r_visited := {[currentFeatureId]} ∪ r_visited st;
                      resolved := resolved st |} in
        match features_get features currentFeatureId with
        | Some currentFeature =>
            match f_dependencies currentFeature with
            | DepsArray dependencies =>
                match resolve_deps (resolve fuel' features) dependencies st1 with
                | None => None
                | Some (Err e) => Some (Err e)
                | Some (Ok st2) =>
                    if decide (currentFeatureId ∈ resolved st2)
                    then Some (Ok st2)
                    else Some (Ok {| r_visited := r_visited st2;
                                     resolved :=
                                       resolved st2 ++ [currentFeatureId] |})
                end
            | _ => Some (Err (NotIterable "currentFeature.dependencies"))
            end
        | None => Some (Ok st1)
        end
  end.

Definition resolveDependencies (parsed : FeatureRegistry) (featureId : string)
  : option (Result RegistryError (list string)) :=
  match loadRegistry parsed with
  | None => None
  | Some (Err e) => Some (Err e)
  | Some (Ok registry) =>
      let features := registry_features registry in
      match features_get features featureId with
      | None => Some (Err (FeatureNotFound featureId))
      | Some _ =>
          match resolve (S (length features)) features featureId
                  {| r_visited := ∅; resolved := [] |} with
          | None => None
          | Some (Err e) => Some (Err e)
          | Some (Ok st) => Some (Ok (resolved st))
          end
      end
  end.

(** *** The dependency graph *)

Definition deps_of (features : Features) (x : string) : list string :=
  match lookup_feature features x with
  | Some f => deps_list f
  | None => []
  end.

(** [edge features x y]: feature [x] declares [y] as a dependency. *)
Definition edge (features : Features) (x y : string) : Prop :=
  y ∈ deps_of features x.

Definition on_cycle (features : Features) (x : string) : Prop :=
  tc (edge features) x x.

Definition has_cycle (features : Features) : Prop :=
  ∃ x, on_cycle features x.

Definition deps_known (features : Features) : Prop :=
  ∀ x y, edge features x y → is_Some (lookup_feature features y).

(** *** Vocabulary of the proofs about the cycle check *)

(** What a normal return of [hasCycle] tells about the two sets. *)
Definition cycle_post (id : string) (st : CycleState) (b : bool)
    (st' : CycleState) : Prop :=
  recursionStack st' = recursionStack st ∧ visited st ⊆ visited st' ∧
  match b with
  | true => id ∈ recursionStack st ∧ st' = st
  | false => (id ∉ recursionStack st) ∧ id ∈ visited st'
  end.

(** Finished features: visited and no longer on the recursion stack. The
    invariant says that every dependency of a finished feature is a known,
    finished feature and that no finished feature lies on a cycle. *)
Definition finished (st : CycleState) (x : string) : Prop :=
  x ∈ visited st ∧ x ∉ recursionStack st.

(** Every visited id is a key of the registry. *)
Definition visited_own (features : Features) (st : CycleState) : Prop :=
  ∀ x, x ∈ visited st → is_Some (lookup_feature features x).

Definition cycle_inv (features : Features) (st : CycleState) : Prop :=
  ∀ x, finished st x →
    (∀ y, edge features x y → is_Some (lookup_feature features y) ∧ finished st y) ∧
    ¬ tc (edge features) x x.

(** The ids the traversal calls [hasCycle] on: the keys of the registry and
    the declared dependencies of its features. *)
Definition traversed (features : Features) (x : string) : Prop :=
  is_Some (lookup_feature features x) ∨ ∃ y, edge features y x.

(** Any error of the cycle check is justified by the graph: a reported
    circular dependency names a feature on a cycle, a reported unknown
    dependency is a declared dependency that is no key of the registry, and
    the [TypeError] comes from a traversed id whose value has no
    [dependencies] array. *)
Definition error_justified (features : Features) (e : RegistryError) : Prop :=
  match e with
  | CircularDependency x => on_cycle features x
  | UnknownDependency x d => edge features x d ∧ lookup_feature features d = None
  | NotIterable _ =>
      ∃ x f, traversed features x ∧ features_get features x = Some f ∧
             ∀ ids, f_dependencies f ≠ DepsArray ids
  | _ => False
  end.

(** Fuel: every call that goes past the two early returns marks a key that
    was not visited before, so the depth is bounded by the number of keys
    still unvisited. *)
Definition unvisited (features : Features) (V : gset string) : nat :=
  size (list_to_set (C := gset string) (feature_ids features) ∖ V).

(** *** Vocabulary of the proofs about [resolve] *)

(** Features whose [resolve] call has started but not yet pushed them. *)
Definition in_progress (st : ResolveState) (x : string) : Prop :=
  x ∈ r_visited st ∧ x ∉ resolved st.

(** Every dependency of an element of [l] occurs in [l] at a smaller index. *)
Definition topo (features : Features) (l : list string) : Prop :=
  ∀ i x, l !! i = Some x →
    ∀ y, edge features x y → ∃ j, j < i ∧ l !! j = Some y.

Definition resolve_inv (features : Features) (st : ResolveState) : Prop :=
  NoDup (resolved st) ∧ (∀ x, x ∈ resolved st → x ∈ r_visited st) ∧
  topo features (resolved st).

Definition resolve_pre (features : Features) (cur : string)
    (st : ResolveState) : Prop :=
  is_Some (lookup_feature features cur) ∧ resolve_inv features st ∧
  ∀ s, in_progress st s → ¬ rtc (edge features) cur s.

Definition resolve_post (features : Features) (cur : string)
    (st st' : ResolveState) : Prop :=
  resolve_inv features st' ∧
  (∃ new, resolved st' = resolved st ++ new ∧
          ∀ x, x ∈ new → rtc (edge features) cur x) ∧
  (∀ s, in_progress st' s ↔ in_progress st s) ∧
  cur ∈ resolved st' ∧
  (cur ∉ r_visited st → last (resolved st') = Some cur).

(** A descriptor with every required member, [dependencies] an array. *)
Definition feature_complete (f : Feature) : Prop :=
  is_Some (f_name f) ∧ is_Some (f_description f) ∧ is_Some (f_version f) ∧
  is_Some (f_category f) ∧ ∃ ids, f_dependencies f = DepsArray ids.

Definition mk (deps : list string) : Feature :=
  mkFeature (Some "n") (Some "d") (Some "1.0.0") (DepsArray deps) (Some "c").

Definition abc : FeatureRegistry :=
  mkRegistry (Some "1.0.0")
    (Some [("a", mk []); ("b", mk ["a"]); ("c", mk ["b"])]).

(** A registry with a self-dependent feature next to an unknown dependency. *)
Definition cyclic_and_unknown : FeatureRegistry :=
  mkRegistry (Some "1.0.0") (Some [("a", mk ["zzz"]); ("b", mk ["b"])]).

Definition self_loop : FeatureRegistry :=
  mkRegistry (Some "1.0.0") (Some [("a", mk ["a"])]).

End Registry.

(** * The feature installer *)

Module Installer.
Import Registry.

(** ** Strings *)

(** [s.endsWith(suffix)] *)
Fixpoint ends_with (s suffix : string) : bool :=
  if decide (s = suffix) then true
  else match s with
       | EmptyString => false
       | String _ s' => ends_with s' suffix
       end.

(** [s.includes(sub)] *)
Fixpoint includes (s sub : string) : bool :=
  String.prefix sub s ||
  match s with
  | EmptyString => false
  | String _ s' => includes s' sub
  end.

(** [s] without its suffix [suffix], when it has that suffix. *)
Fixpoint strip_suffix (s suffix : string) : option string :=
  if decide (s = suffix) then Some EmptyString
  else match s with
       | EmptyString => None
       | String c s' => String c <$> strip_suffix s' suffix
       end.

(** The suffix of [s] that starts at its last dot. *)
Fixpoint last_dot_suffix (s : string) : option string :=
  match s with
  | EmptyString => None
  | String c s' =>
      match last_dot_suffix s' with
      | Some e => Some e
      | None => if decide (c = "."%char) then Some s else None
      end
  end.

(** ** Paths

    A path is the list of its segments, relative to the project root for
    targets and to the template directory for templates. [path.join] of
    normalised operands is concatenation and [path.relative(projectRoot, _)]
    is the identity on this representation. Segments and the configured
    prefix hold no separator. *)

Abbreviation Path := (list string).

(** [path.basename(p)] *)
Definition basename (p : Path) : string := default "" (last p).

(** [path.dirname(p)], with the empty list for ["."]. *)
Definition dirname (p : Path) : Path := take (length p - 1) p.

(** [path.extname] on one segment: from the last dot on, where a leading
    dot does not count and [".."] has no extension. *)
Definition extname_seg (seg : string) : string :=
  match seg with
  | EmptyString => ""
  | String _ rest =>
      match last_dot_suffix rest with
      | Some e => if decide (seg = "..") then "" else e
      | None => ""
      end
  end.

Definition extname (p : Path) : string := extname_seg (basename p).

(** [path.basename(p, ext)]: the extension is removed unless it is the
    whole name (the installer passes [".sql"] with the full path of a file,
    and [applyFilePrefix] passes the extension [extname] found, which is
    never the whole name). *)
Definition basename_ext (p : Path) (ext : string) : string :=
  match ext with
  | EmptyString => basename p
  | _ =>
      match strip_suffix (basename p) ext with
      | Some EmptyString | None => basename p
      | Some b => b
      end
  end.

(** The path as the string handed to the scaffold tool. *)
Definition render (p : Path) : string := String.concat "/" p.

(** ** Configuration ([core/config.ts], [utils/types.ts]) *)

Record InstalledFeature := mkInstalled {
  if_version : option string;
  if_installedAt : string;
  if_files : list Path
}.

Record SupaBootstrapConfig := mkConfig {
  cfg_version : string;
  sourceDir : Path;
  filePrefix : option string;
  installedFeatures : gmap string InstalledFeature
}.

Inductive Action := overwrite | skip.

Global Instance Action_eq_dec : EqDecision Action.
Proof. solve_decision. Defined.

Record ConflictingFile := mkConflict {
  cf_path : Path;
  cf_exists : bool;
  cf_action : option Action
}.

(** [ConfigManager.applyFilePrefix] *)
Definition applyFilePrefix (filename : Path) (config : SupaBootstrapConfig)
  : Path :=
  match filePrefix config with
  | None | Some EmptyString => filename
  | Some prefix =>
      let ext := extname filename in
      let base := basename_ext filename ext in
      let dir := dirname filename in
      let prefixedBase := prefix +:+ base in
      dir ++ [prefixedBase +:+ ext]
  end.

(** [ConfigManager.getSupabasePath] *)
Definition getSupabasePath (config : SupaBootstrapConfig) : Path :=
  sourceDir config.

(** ** Errors *)

Inductive InstallError :=
| CopyFailed (dest : Path)
| ReadFailed (src : Path)
| WriteFailed (dest : Path)
| CreateMigrationFailed (name : string)
| CreateFunctionFailed (name : string)
| SaveConfigFailed
| MigrationInstallFailed (migrationFile : Path) (cause : InstallError)
| FunctionInstallFailed (functionName : string) (cause : InstallError)
| SeedReadFailed (seedFile : Path) (cause : InstallError)
| SeedWriteFailed (cause : InstallError)
| InstallFeatureNotFound (featureId : string)
| NoDependenciesArray (featureId : string).

(** ** The project on disk and the scaffold tool *)

Inductive CliCall :=
| MigrationNew (name : string) (created : option string)
| FunctionsNew (name : string) (created : bool).

Global Instance CliCall_eq_dec : EqDecision CliCall.
Proof. solve_decision. Defined.

Record World := mkWorld {
  fs_files : gmap Path string;      (* regular files and their content *)
  fs_dirs : gset Path;              (* directories *)
  fs_unwritable : gset Path;        (* targets on which a write throws *)
  cli_failing : gset string;        (* names the scaffold tool fails on *)
  cli_clock : nat;                  (* source of migration timestamps *)
  cli_calls : list CliCall;         (* scaffold requests made so far *)
  config_file : option SupaBootstrapConfig;
                     (* .supabootstrap.json in the working directory *)
  config_unwritable : bool;         (* saveConfig throws *)
  wall_clock : string;              (* new Date().toISOString() *)
  fs_unreadable : gset Path         (* files on which a read throws *)
}.

(** The directories [mkdirSync(dir, {recursive: true})] creates for a file
    at [p]. *)
Definition ancestors (p : Path) : gset Path :=
  list_to_set ((λ n, take n p) <$> seq 1 (length p - 1)).

Definition w_mkdirs (p : Path) (w : World) : World :=
  mkWorld (fs_files w) (fs_dirs w ∪ ancestors p) (fs_unwritable w)
    (cli_failing w) (cli_clock w) (cli_calls w) (config_file w)
    (config_unwritable w) (wall_clock w) (fs_unreadable w).

Definition w_put (p : Path) (content : string) (w : World) : World :=
  mkWorld (<[p := content]> (fs_files w)) (fs_dirs w) (fs_unwritable w)
    (cli_failing w) (cli_clock w) (cli_calls w) (config_file w)
    (config_unwritable w) (wall_clock w) (fs_unreadable w).

Definition w_mkdir (p : Path) (w : World) : World :=
  mkWorld (fs_files w) ({[p]} ∪ fs_dirs w) (fs_unwritable w)
    (cli_failing w) (cli_clock w) (cli_calls w) (config_file w)
    (config_unwritable w) (wall_clock w) (fs_unreadable w).

Definition w_log (c : CliCall) (w : World) : World :=
  mkWorld (fs_files w) (fs_dirs w) (fs_unwritable w)
    (cli_failing w) (cli_clock w) (cli_calls w ++ [c]) (config_file w)
    (config_unwritable w) (wall_clock w) (fs_unreadable w).

Definition w_tick (w : World) : World :=
  mkWorld (fs_files w) (fs_dirs w) (fs_unwritable w)
    (cli_failing w) (S (cli_clock w)) (cli_calls w) (config_file w)
    (config_unwritable w) (wall_clock w) (fs_unreadable w).

Definition w_save (config : SupaBootstrapConfig) (w : World) : World :=
  mkWorld (fs_files w) (fs_dirs w) (fs_unwritable w)
    (cli_failing w) (cli_clock w) (cli_calls w) (Some config)
    (config_unwritable w) (wall_clock w) (fs_unreadable w).

(** A template file below one of the feature's template directories:
    the directories below that root, the file name, and the content
    ([None] when reading the file throws). *)
Record TemplateFile := mkTemplate {
  tf_dir : Path;
  tf_name : string;
  tf_content : option string
}.

(** [path.relative(templateDir, file)] *)
Definition tf_path (t : TemplateFile) : Path := tf_dir t ++ [tf_name t].

Record FunctionTemplate := mkFunction {
  fn_name : string;
  fn_files : list TemplateFile
}.

(** The template tree of one feature; [None] where the directory is
    missing. Lists are in directory-listing order. The tree is the result
    of listing the directories: a directory of the package that exists is
    taken to be listable, so a throwing [readdirSync] has no counterpart
    here. *)
Record FeatureTemplates := mkTemplates {
  t_schemas : option (list TemplateFile);
  t_migrations : option (list TemplateFile);
  t_functions : option (list FunctionTemplate);
  t_seed : option (list TemplateFile)
}.

Definition no_templates : FeatureTemplates := mkTemplates None None None None.

(** ** State and errors of one installation run *)

Record InstallState := mkState {
  st_world : World;
  st_config : SupaBootstrapConfig;
  st_installed : list Path;
  st_skipped : list Path;
  st_errors : list InstallError
}.

(** A computation that reads and writes the state and may throw; the state
    at the throw is kept, as the arrays and the disk keep what was done. *)
Definition M (A : Type) : Type :=
  InstallState → Result InstallError A * InstallState.

Global Instance M_ret : MRet M := λ A a st, (Ok a, st).
Global Instance M_bind : MBind M := λ A B f m st,
  match m st with
  | (Ok a, st') => f a st'
  | (Err e, st') => (Err e, st')
  end.

(** [try { m } catch (error) { handler(error) }] *)
Definition try_catch (m : M unit) (handler : InstallError → M unit) : M unit :=
  λ st, match m st with
        | (Ok a, st') => (Ok a, st')
        | (Err e, st') => handler e st'
        end.

(** [for (const x of l) { body(x) }] *)
Fixpoint for_each {A} (body : A → M unit) (l : list A) : M unit :=
  match l with
  | [] => mret tt
  | x :: rest => body x;; for_each body rest
  end.

Definition get_world : M World := λ st, (Ok (st_world st), st).

Definition on_world {A} (f : World → Result InstallError A * World) : M A :=
  λ st, let '(r, w) := f (st_world st) in
        (r, mkState w (st_config st) (st_installed st) (st_skipped st)
              (st_errors st)).

Definition push_installed (p : Path) : M unit :=
  λ st, (Ok tt, mkState (st_world st) (st_config st) (st_installed st ++ [p])
                  (st_skipped st) (st_errors st)).

Definition push_skipped (p : Path) : M unit :=
  λ st, (Ok tt, mkState (st_world st) (st_config st) (st_installed st)
                  (st_skipped st ++ [p]) (st_errors st)).

Definition push_error (e : InstallError) : M unit :=
  λ st, (Ok tt, mkState (st_world st) (st_config st) (st_installed st)
                  (st_skipped st) (st_errors st ++ [e])).

Definition set_config (config : SupaBootstrapConfig) : M unit :=
  λ st, (Ok tt, mkState (st_world st) config (st_installed st)
                  (st_skipped st) (st_errors st)).

(** ** FileOperations ([utils/file-operations.ts]) *)

Definition fileExists (p : Path) (w : World) : bool :=
  bool_decide (is_Some (fs_files w !! p)).

Definition directoryExists (p : Path) (w : World) : bool :=
  bool_decide (p ∈ fs_dirs w).

(** [copyFile(src, dest, {overwrite: true, createDirs: true})] *)
Definition copyFile (src : TemplateFile) (dest : Path) (w : World)
  : Result InstallError unit * World :=
  let w1 := w_mkdirs dest w in
  match tf_content src with
  | None => (Err (CopyFailed dest), w1)
  | Some content =>
      if decide (dest ∈ fs_unwritable w) then (Err (CopyFailed dest), w1)
      else (Ok tt, w_put dest content w1)
  end.

(** [readFile] of a template file. *)
Definition readFile (src : TemplateFile) (w : World)
  : Result InstallError string * World :=
  match tf_content src with
  | None => (Err (ReadFailed (tf_path src)), w)
  | Some content => (Ok content, w)
  end.

(** [readFile] of a file of the project. *)
Definition readProjectFile (p : Path) (w : World)
  : Result InstallError string * World :=
  if decide (p ∈ fs_unreadable w) then (Err (ReadFailed p), w)
  else (Ok (default "" (fs_files w !! p)), w).

(** [writeFile(filePath, content)] *)
Definition writeFile (dest : Path) (content : string) (w : World)
  : Result InstallError unit * World :=
  let w1 := w_mkdirs dest w in
  if decide (dest ∈ fs_unwritable w) then (Err (WriteFailed dest), w1)
  else (Ok tt, w_put dest content w1).

(** ** The scaffold tool ([core/supabase-cli.ts])

    The installer calls the tool synchronously and uses [getSeedPath]; the
    revision of [supabase-cli.ts] among the sources is asynchronous and has
    no [getSeedPath]. Its path helpers and the shape of a migration file
    name ([<digits>_<name>.sql], as its [createMigration] parses it from the
    tool's output) are taken from it. *)

Definition getMigrationsPath : Path := ["supabase"; "migrations"].
Definition getFunctionsPath : Path := ["supabase"; "functions"].

(** Modelled from the spec: [getSeedPath] is called by the installer but is
    not among the sources; the shared seed artifact of the project is
    [supabase/seed.sql]. *)
Definition getSeedPath : Path := ["supabase"; "seed.sql"].

(** Modelled from the spec: the external [supabase migration new] command,
    after section 4.4 (a new artifact with a collision-free identifier, or a
    failure). The artifact is named by the tool's clock; the request fails
    for the names in [cli_failing] and when the name is taken. Every request
    is logged with its answer. *)
Definition createMigration (name : string) (w : World)
  : Result InstallError string * World :=
  let file := pretty (cli_clock w) +:+ "_" +:+ name +:+ ".sql" in
  let target := getMigrationsPath ++ [file] in
  if decide (name ∈ cli_failing w) then
    (Err (CreateMigrationFailed name), w_log (MigrationNew name None) w)
  else if fileExists target w then
    (Err (CreateMigrationFailed name),
     w_tick (w_log (MigrationNew name None) w))
  else
    (Ok file,
     w_put target "" (w_mkdirs target
       (w_tick (w_log (MigrationNew name (Some file)) w)))).

(** Modelled from the spec: the external [supabase functions new] command,
    after section 4.4: it creates the function directory with its
    boilerplate [index.ts], or fails. *)
Definition createFunction (name : string) (w : World)
  : Result InstallError string * World :=
  let dir := getFunctionsPath ++ [name] in
  if decide (name ∈ cli_failing w) then
    (Err (CreateFunctionFailed name), w_log (FunctionsNew name false) w)
  else
    (Ok name,
     w_put (dir ++ ["index.ts"]) "// boilerplate"
       (w_mkdir dir (w_mkdirs dir (w_log (FunctionsNew name true) w)))).

(** [ConfigManager.saveConfig], called without a path: it writes
    [.supabootstrap.json] in the working directory of the process, and
    throws when the schema check or the write fails. *)
Definition saveConfig (config : SupaBootstrapConfig) (w : World)
  : Result InstallError unit * World :=
  if config_unwritable w then (Err SaveConfigFailed, w)
  else (Ok tt, w_save config w).

(** ** FeatureInstaller ([core/installer.ts]) *)

(** The two errors [analyzeConflicts] throws. *)
Inductive AnalyzeError :=
| AnalyzeFeatureNotFound (featureId : string)
| FeatureDirectoryNotFound (featureId : string).

Section FeatureInstaller.
(** The loaded registry and the package's template trees. *)
Context (registry : FeatureRegistry) (package : gmap string FeatureTemplates).

Definition templates_of (featureId : string) : FeatureTemplates :=
  default no_templates (package !! featureId).

(** [applyPrefix] *)
Definition applyPrefix (config : SupaBootstrapConfig) (fileName : Path) : Path :=
  applyFilePrefix fileName config.

(** [getTargetPath] *)
Definition getTargetPath (config : SupaBootstrapConfig) (type : string)
    (fileName : Path) : Path :=
  let prefixedFileName := applyPrefix config fileName in
  getSupabasePath config ++ [type] ++ prefixedFileName.

(** [conflictResolutions.find((c) => c.path === relativeTargetPath)] *)
Definition find_resolution (conflictResolutions : list ConflictingFile)
    (relativeTargetPath : Path) : option ConflictingFile :=
  List.find (λ c, bool_decide (cf_path c = relativeTargetPath))
    conflictResolutions.

(** [conflictResolution && conflictResolution.action === a] *)
Definition has_action (c : option ConflictingFile) (a : Action) : bool :=
  match c with
  | Some c => bool_decide (cf_action c = Some a)
  | None => false
  end.

(** *** analyzeConflicts *)

Definition schema_conflicts (config : SupaBootstrapConfig) (w : World)
    (schemaFiles : list TemplateFile) : list ConflictingFile :=
  omap (λ schemaFile,
          let targetPath := getTargetPath config "schemas" (tf_path schemaFile) in
          if fileExists targetPath w
          then Some (mkConflict targetPath true None) else None)
       schemaFiles.

Definition function_conflicts (config : SupaBootstrapConfig) (w : World)
    (functionDirs : list FunctionTemplate) : list ConflictingFile :=
  omap (λ fn,
          let prefixedFunctionName := applyPrefix config [fn_name fn] in
          let targetFunctionPath := getFunctionsPath ++ prefixedFunctionName in
          if directoryExists targetFunctionPath w
          then Some (mkConflict targetFunctionPath true None) else None)
       functionDirs.

Definition analyzeConflicts (featureId : string)
    (config : SupaBootstrapConfig) (w : World)
  : Result AnalyzeError (list ConflictingFile) :=
  match getFeature registry featureId with
  | None => Err (AnalyzeFeatureNotFound featureId)
  | Some _ =>
      match package !! featureId with
      | None => Err (FeatureDirectoryNotFound featureId)
      | Some templates =>
          Ok (schema_conflicts config w (default [] (t_schemas templates)) ++
              function_conflicts config w (default [] (t_functions templates)))
      end
  end.

(** *** installSchemas *)

(** One iteration of the loop over the schema files. *)
Definition installSchema (config : SupaBootstrapConfig)
    (conflictResolutions : list ConflictingFile) (schemaFile : TemplateFile)
  : M unit :=
  let relativePath := tf_path schemaFile in
  let targetPath := getTargetPath config "schemas" relativePath in
  let conflictResolution := find_resolution conflictResolutions targetPath in
  if has_action conflictResolution skip then push_skipped targetPath
  else
    on_world (copyFile schemaFile targetPath);;
    push_installed targetPath.

Definition installSchemas (config : SupaBootstrapConfig)
    (templates : FeatureTemplates)
    (conflictResolutions : list ConflictingFile) : M unit :=
  match t_schemas templates with
  | None => mret tt
  | Some schemaFiles =>
      for_each (installSchema config conflictResolutions) schemaFiles
  end.

(** *** installMigrations *)

Definition is_sql (file : TemplateFile) : bool := ends_with (tf_name file) ".sql".

(** One iteration of the loop over the migration files, with its
    [try]/[catch]. *)
Definition installMigration (config : SupaBootstrapConfig)
    (migrationFile : TemplateFile) : M unit :=
  try_catch
    (migrationContent ← on_world (readFile migrationFile);
     let migrationName :=
       render (applyPrefix config
                 [basename_ext (tf_path migrationFile) ".sql"]) in
     newMigrationFile ← on_world (createMigration migrationName);
     let newMigrationPath := getMigrationsPath ++ [newMigrationFile] in
     on_world (writeFile newMigrationPath migrationContent);;
     push_installed newMigrationPath)
    (λ error, push_error (MigrationInstallFailed (tf_path migrationFile) error)).

Definition installMigrations (config : SupaBootstrapConfig)
    (templates : FeatureTemplates) : M unit :=
  match t_migrations templates with
  | None => mret tt
  | Some files =>
      for_each (installMigration config) (filter (λ f, is_sql f) files)
  end.

(** *** installFunctions *)

(** The inner loop copying the files of one function. *)
Definition copyFunctionFile (targetFunctionPath : Path)
    (sourceFile : TemplateFile) : M unit :=
  let relativeFunctionPath := tf_path sourceFile in
  let targetFile := targetFunctionPath ++ relativeFunctionPath in
  on_world (copyFile sourceFile targetFile);;
  push_installed targetFile.

(** One iteration of the loop over the function directories, with its
    [try]/[catch]. *)
Definition installFunction (config : SupaBootstrapConfig)
    (conflictResolutions : list ConflictingFile) (fn : FunctionTemplate)
  : M unit :=
  try_catch
    (let prefixedFunctionName := applyPrefix config [fn_name fn] in
     let targetFunctionPath := getFunctionsPath ++ prefixedFunctionName in
     let conflictResolution :=
       find_resolution conflictResolutions targetFunctionPath in
     if has_action conflictResolution skip then
       push_skipped targetFunctionPath
     else
       w ← get_world;
       if directoryExists targetFunctionPath w &&
          negb (has_action conflictResolution overwrite)
       then push_skipped targetFunctionPath
       else
         let isOverwriting := has_action conflictResolution overwrite in
         (if negb (directoryExists targetFunctionPath w) && negb isOverwriting
          then on_world (createFunction (render prefixedFunctionName));; mret tt
          else mret tt);;
         for_each (copyFunctionFile targetFunctionPath) (fn_files fn))
    (λ error, push_error (FunctionInstallFailed (fn_name fn) error)).

Definition installFunctions (config : SupaBootstrapConfig)
    (templates : FeatureTemplates)
    (conflictResolutions : list ConflictingFile) : M unit :=
  match t_functions templates with
  | None => mret tt
  | Some functionDirs =>
      for_each (installFunction config conflictResolutions) functionDirs
  end.

(** *** installSeeds *)

Definition featureCommentBlock (featureId : string) : string :=
  "-- BEGIN: " +:+ featureId +:+ " seeds".

Definition newline : string := String (ascii_of_nat 10) "".

(** The text one seed file adds to [seedContent]. *)
Definition seed_entry (seedFile : TemplateFile) (content : string) : string :=
  ("-- From: " +:+ tf_name seedFile +:+ newline) +:+ content +:+
  (if ends_with content newline then "" else newline) +:+ newline.

(** The loop collecting the seed content; the accumulated text is the
    result. *)
Fixpoint collectSeeds (seedFiles : list TemplateFile) (seedContent : string)
  : M string :=
  match seedFiles with
  | [] => mret seedContent
  | seedFile :: rest =>
      λ st,
        match on_world (readFile seedFile) st with
        | (Ok content, st') =>
            collectSeeds rest (seedContent +:+ seed_entry seedFile content) st'
        | (Err error, st') =>
            (push_error (SeedReadFailed (tf_path seedFile) error);;
             collectSeeds rest seedContent) st'
        end
  end.

(** The initial value of [existingSeedContent]: the text of the seed
    artifact, read with [readFile], when the file exists, and the empty
    string when it does not. The read is outside every [try]. *)
Definition read_existing_seed (targetSeedPath : Path) : M string :=
  w ← get_world;
  if fileExists targetSeedPath w
  then on_world (readProjectFile targetSeedPath) else mret "".

Definition installSeeds (featureId : string) (templates : FeatureTemplates)
  : M unit :=
  match t_seed templates with
  | None => mret tt
  | Some files =>
      let seedFiles := filter (λ f, is_sql f) files in
      match seedFiles with
      | [] => mret tt
      | _ =>
          let targetSeedPath := getSeedPath in
          existingSeedContent ← read_existing_seed targetSeedPath;
          if includes existingSeedContent (featureCommentBlock featureId)
          then mret tt
          else
            seedContent ← collectSeeds seedFiles
              (newline +:+ featureCommentBlock featureId +:+ newline);
            let seedContent :=
              seedContent +:+ "-- END: " +:+ featureId +:+ " seeds" +:+ newline in
            try_catch
              (let finalContent := existingSeedContent +:+ seedContent in
               on_world (writeFile targetSeedPath finalContent);;
               push_installed targetSeedPath)
              (λ error, push_error (SeedWriteFailed error))
      end
  end.

(** *** updateInstalledFeatures *)

(** [installedFeatures[featureId] = record]. The key [__proto__] is the
    accessor that [Object.prototype] defines: unless the object has an own
    property of that name, the assignment goes to the setter, which replaces
    the prototype of the object and creates no property. *)
Definition assign_record (featureId : string) (record : InstalledFeature)
    (installed : gmap string InstalledFeature) : gmap string InstalledFeature :=
  if decide (featureId = "__proto__" ∧ installed !! featureId = None)
  then installed else <[featureId := record]> installed.

Definition updateInstalledFeatures (featureId : string) : M unit :=
  λ st,
    match getFeature registry featureId with
    | None => (Ok tt, st)
    | Some feature =>
        let record := mkInstalled (f_version feature)
                        (wall_clock (st_world st)) (st_installed st) in
        let config := st_config st in
        let config' := mkConfig (cfg_version config) (sourceDir config)
                         (filePrefix config)
                         (assign_record featureId record
                            (installedFeatures config)) in
        (set_config config';; on_world (saveConfig config')) st
    end.

(** *** installFeature *)

Record InstallationResult := mkResult {
  success : bool;
  installedFiles : list Path;
  skippedFiles : list Path;
  errors : list InstallError
}.

(** The four artifact stages at the head of the [try] block of
    [installFeature]. *)
Definition later_stages (featureId : string) (config : SupaBootstrapConfig)
    (conflictResolutions : list ConflictingFile) : M unit :=
  let templates := templates_of featureId in
  installMigrations config templates;;
  installFunctions config templates conflictResolutions;;
  installSeeds featureId templates.

Definition artifact_stages (featureId : string) (config : SupaBootstrapConfig)
    (conflictResolutions : list ConflictingFile) : M unit :=
  installSchemas config (templates_of featureId) conflictResolutions;;
  later_stages featureId config conflictResolutions.

(** The body of the [try] block of [installFeature]. *)
Definition install_stages (featureId : string) (config : SupaBootstrapConfig)
    (conflictResolutions : list ConflictingFile) : M unit :=
  artifact_stages featureId config conflictResolutions;;
  updateInstalledFeatures featureId.

Definition initial_state (config : SupaBootstrapConfig) (w : World)
  : InstallState := mkState w config [] [] [].

(** The outcome [installFeature] builds from the end of the [try] block. *)
Definition outcome_of (r : Result InstallError unit) (st : InstallState)
  : InstallationResult :=
  match r with
  | Ok _ =>
      mkResult (bool_decide (st_errors st = [])) (st_installed st)
        (st_skipped st) (st_errors st)
  | Err error =>
      mkResult false (st_installed st) (st_skipped st) (st_errors st ++ [error])
  end.

(** [installFeature]: [Err] is the error thrown for an unknown feature;
    otherwise the outcome comes with the configuration object and the
    project as the call leaves them. *)
Definition installFeature (featureId : string)
    (conflictResolutions : list ConflictingFile)
    (config : SupaBootstrapConfig) (w : World)
  : Result InstallError InstallationResult * (SupaBootstrapConfig * World) :=
  match getFeature registry featureId with
  | None => (Err (InstallFeatureNotFound featureId), (config, w))
  | Some _ =>
      let '(r, st) := install_stages featureId config conflictResolutions
                        (initial_state config w) in
      (Ok (outcome_of r st), (st_config st, st_world st))
  end.

(** [checkDependencies]; [feature.dependencies.filter] throws a
    [TypeError] when the value has no [dependencies] array. *)
Definition checkDependencies (featureId : string)
    (config : SupaBootstrapConfig)
  : Result InstallError (bool * list string) :=
  match getFeature registry featureId with
  | None => Err (InstallFeatureNotFound featureId)
  | Some feature =>
      match f_dependencies feature with
      | DepsArray dependencies =>
          let missing :=
            filter (λ dep, dep ∉ dom (installedFeatures config))
                   dependencies in
          Ok (bool_decide (missing = []), missing)
      | _ => Err (NoDependenciesArray featureId)
      end
  end.

End FeatureInstaller.

(** ** Vocabulary of the proofs about the installer *)

(** [sat R P m]: every run of [m] relates the state before to the state
    after by [R], thrown error or not, and a returned value satisfies [P]. *)
Definition sat {A} (R : relation InstallState) (P : A → Prop) (m : M A) : Prop :=
  ∀ st r st', m st = (r, st') →
    R st st' ∧ match r with Ok a => P a | Err _ => True end.

(** What a step may do to the project: it makes scaffold requests from
    [Fc], writes only files at paths in [Qw] and deletes none. *)
Record world_step (Qw : Path → Prop) (Fc : CliCall → Prop) (w w' : World)
  : Prop := mkWorldStep {
  ws_calls : ∃ new, cli_calls w' = cli_calls w ++ new ∧ Forall Fc new;
  ws_files : ∀ p, ¬ Qw p → fs_files w' !! p = fs_files w !! p;
  ws_kept : ∀ p, is_Some (fs_files w !! p) → is_Some (fs_files w' !! p);
  ws_unwritable : fs_unwritable w' = fs_unwritable w;
  ws_failing : cli_failing w' = cli_failing w;
  ws_wall_clock : wall_clock w' = wall_clock w;
  ws_config_unwritable : config_unwritable w' = config_unwritable w;
  ws_unreadable : fs_unreadable w' = fs_unreadable w
}.

(** What a piece of the installer may do: it records installed paths from
    [Fi] and skipped paths from [Fs], acts on the project within [Qw] and
    [Fc], and replaces only the installed-feature records of the ids in
    [Qc]. *)
Record effect (Fi Fs Qw : Path → Prop) (Fc : CliCall → Prop)
    (Qc : string → Prop) (st st' : InstallState) : Prop := mkEffect {
  eff_installed :
    ∃ new, st_installed st' = st_installed st ++ new ∧ Forall Fi new;
  eff_skipped :
    ∃ new, st_skipped st' = st_skipped st ++ new ∧ Forall Fs new;
  eff_errors : ∃ new, st_errors st' = st_errors st ++ new;
  eff_world : world_step Qw Fc (st_world st) (st_world st');
  eff_records :
    ∀ g, ¬ Qc g →
      installedFeatures (st_config st') !! g =
      installedFeatures (st_config st) !! g;
  eff_settings :
    sourceDir (st_config st') = sourceDir (st_config st) ∧
    filePrefix (st_config st') = filePrefix (st_config st)
}.

Definition none {A} : A → Prop := λ _, False.
Definition any {A} : A → Prop := λ _, True.

(** The resolution the caller gave for a target path: the action of the
    first entry with that path. *)
Definition resolution_of (conflictResolutions : list ConflictingFile)
    (p : Path) : option Action :=
  find_resolution conflictResolutions p ≫= cf_action.

Definition schemas_of (templates : FeatureTemplates) : list TemplateFile :=
  default [] (t_schemas templates).
Definition migrations_of (templates : FeatureTemplates) : list TemplateFile :=
  filter (λ f, is_sql f) (default [] (t_migrations templates)).
Definition functions_of (templates : FeatureTemplates) : list FunctionTemplate :=
  default [] (t_functions templates).
Definition seeds_of (templates : FeatureTemplates) : list TemplateFile :=
  filter (λ f, is_sql f) (default [] (t_seed templates)).

(** Target paths as the stages build them. *)
Definition schema_target (config : SupaBootstrapConfig) (t : TemplateFile)
  : Path := getTargetPath config "schemas" (tf_path t).

Definition migration_name (config : SupaBootstrapConfig) (t : TemplateFile)
  : string := render (applyPrefix config [basename_ext (tf_path t) ".sql"]).

Definition function_target (config : SupaBootstrapConfig)
    (fn : FunctionTemplate) : Path :=
  getFunctionsPath ++ applyPrefix config [fn_name fn].

Definition is_migration_path (p : Path) : Prop :=
  ∃ file, p = getMigrationsPath ++ [file].

(** The shapes of the paths each stage records or writes. *)
Definition schema_installed_form (config : SupaBootstrapConfig)
    (res : list ConflictingFile) (files : list TemplateFile) (p : Path) : Prop :=
  ∃ t, t ∈ files ∧ p = schema_target config t ∧
       resolution_of res p ≠ Some skip.

Definition schema_skipped_form (config : SupaBootstrapConfig)
    (res : list ConflictingFile) (files : list TemplateFile) (p : Path) : Prop :=
  ∃ t, t ∈ files ∧ p = schema_target config t ∧
       resolution_of res p = Some skip.

Definition migration_form (config : SupaBootstrapConfig)
    (files : list TemplateFile) (p : Path) : Prop :=
  ∃ t (n : nat), t ∈ files ∧
    p = getMigrationsPath ++
        [pretty n +:+ "_" +:+ migration_name config t +:+ ".sql"].

Definition migration_call (config : SupaBootstrapConfig)
    (files : list TemplateFile) (c : CliCall) : Prop :=
  ∃ t created, t ∈ files ∧ c = MigrationNew (migration_name config t) created.

Definition function_file_form (config : SupaBootstrapConfig)
    (fns : list FunctionTemplate) (p : Path) : Prop :=
  ∃ fn t, fn ∈ fns ∧ t ∈ fn_files fn ∧
    p = function_target config fn ++ tf_path t.

Definition function_skipped_form (config : SupaBootstrapConfig)
    (fns : list FunctionTemplate) (p : Path) : Prop :=
  ∃ fn, fn ∈ fns ∧ p = function_target config fn.

Definition function_written_form (config : SupaBootstrapConfig)
    (fns : list FunctionTemplate) (p : Path) : Prop :=
  function_file_form config fns p ∨
  ∃ fn, fn ∈ fns ∧ p = function_target config fn ++ ["index.ts"].

Definition function_call (config : SupaBootstrapConfig)
    (fns : list FunctionTemplate) (c : CliCall) : Prop :=
  ∃ fn created, fn ∈ fns ∧
    c = FunctionsNew (render (applyPrefix config [fn_name fn])) created.

(** The same for a whole run. *)
Definition installed_form (config : SupaBootstrapConfig)
    (res : list ConflictingFile) (templates : FeatureTemplates) (p : Path)
  : Prop :=
  schema_installed_form config res (schemas_of templates) p ∨
  migration_form config (migrations_of templates) p ∨
  function_file_form config (functions_of templates) p ∨
  p = getSeedPath.

Definition skipped_form (config : SupaBootstrapConfig)
    (res : list ConflictingFile) (templates : FeatureTemplates) (p : Path)
  : Prop :=
  schema_skipped_form config res (schemas_of templates) p ∨
  function_skipped_form config (functions_of templates) p.

Definition written_form (config : SupaBootstrapConfig)
    (res : list ConflictingFile) (templates : FeatureTemplates) (p : Path)
  : Prop :=
  schema_installed_form config res (schemas_of templates) p ∨
  is_migration_path p ∨
  function_written_form config (functions_of templates) p ∨
  p = getSeedPath.

Definition call_form (config : SupaBootstrapConfig)
    (templates : FeatureTemplates) (c : CliCall) : Prop :=
  migration_call config (migrations_of templates) c ∨
  function_call config (functions_of templates) c.

(** A relation on projects, read on the states of a run. *)
Definition on_state (Rw : relation World) : relation InstallState :=
  λ st st', Rw (st_world st) (st_world st').

(** The files of a function template, copied over [m] below [target]. *)
Definition copy_function_files (target : Path) (files : list TemplateFile)
    (m : gmap Path string) : gmap Path string :=
  foldl (λ m t, <[target ++ tf_path t := default "" (tf_content t)]> m) m files.

(** Every file can be read and every target below [target] written. *)
Definition copyable (target : Path) (files : list TemplateFile) (w : World)
  : Prop :=
  ∀ t, t ∈ files →
    is_Some (tf_content t) ∧ target ++ tf_path t ∉ fs_unwritable w.

(** Every schema file that is not skipped can be copied. *)
Definition schemas_copyable (config : SupaBootstrapConfig)
    (res : list ConflictingFile) (files : list TemplateFile) (w : World)
  : Prop :=
  ∀ t, t ∈ files → resolution_of res (schema_target config t) ≠ Some skip →
    is_Some (tf_content t) ∧ schema_target config t ∉ fs_unwritable w.

(** The migration artifacts the scaffold tool created in a list of requests. *)
Definition created_migrations (calls : list CliCall) : list string :=
  omap (λ c, match c with
             | MigrationNew _ (Some file) => Some file
             | _ => None
             end) calls.

(** From [w] to [w']: the migration artifacts created in between are
    pairwise distinct, did not exist in [w] and exist in [w']; no file of [w]
    is gone; every migration file of [w] has its content unchanged. *)
Definition migrations_fresh (w w' : World) : Prop :=
  ∃ calls,
    cli_calls w' = cli_calls w ++ calls ∧
    NoDup (created_migrations calls) ∧
    (∀ file, file ∈ created_migrations calls →
       fs_files w !! (getMigrationsPath ++ [file]) = None ∧
       is_Some (fs_files w' !! (getMigrationsPath ++ [file]))) ∧
    (∀ p, is_Some (fs_files w !! p) → is_Some (fs_files w' !! p)) ∧
    (∀ file, is_Some (fs_files w !! (getMigrationsPath ++ [file])) →
       fs_files w' !! (getMigrationsPath ++ [file]) =
       fs_files w !! (getMigrationsPath ++ [file])).

(** The text of the shared seed artifact. *)
Definition seed_text (w : World) : string :=
  default "" (fs_files w !! getSeedPath).

(** The text the loop of [installSeeds] collects. *)
Definition collected_seeds (files : list TemplateFile) (acc : string) : string :=
  foldl (λ acc f, match tf_content f with
                  | Some content => acc +:+ seed_entry f content
                  | None => acc
                  end) acc files.

(** The marker block of a feature. *)
Definition seed_block (featureId : string) (files : list TemplateFile) : string :=
  collected_seeds files (newline +:+ featureCommentBlock featureId +:+ newline)
  +:+ "-- END: " +:+ featureId +:+ " seeds" +:+ newline.

(** From [w] to [w'] the seed artifact is unchanged, or it did not hold the
    feature's begin marker and the feature's block was appended, once. *)
Definition seed_once (featureId : string) (files : list TemplateFile)
    (w w' : World) : Prop :=
  seed_text w' = seed_text w ∨
  (includes (seed_text w) (featureCommentBlock featureId) = false ∧
   seed_text w' = seed_text w +:+ seed_block featureId files).

(** The read of the existing seed artifact throws: the file exists and
    cannot be read. *)
Definition seed_read_fails (w : World) : Prop :=
  is_Some (fs_files w !! getSeedPath) ∧ getSeedPath ∈ fs_unreadable w.

Global Instance seed_read_fails_dec w : Decision (seed_read_fails w).
Proof. unfold seed_read_fails. apply _. Defined.

(** ** Sample projects *)

Definition demo_registry : FeatureRegistry :=
  mkRegistry (Some "1.0.0") (Some [("demo", mk [])]).

Definition empty_world : World :=
  mkWorld ∅ ∅ ∅ ∅ 0 [] None false "2025-01-01T00:00:00.000Z" ∅.

Definition default_config : SupaBootstrapConfig :=
  mkConfig "1.0.0" ["supabase"] None ∅.

Definition prefixed_config : SupaBootstrapConfig :=
  mkConfig "1.0.0" ["supabase"] (Some "sb_") ∅.

(** Two schema files, one migration, one function and one seed file. *)
Definition demo_templates : FeatureTemplates :=
  mkTemplates
    (Some [mkTemplate [] "a.sql" (Some "create table a;");
           mkTemplate [] "b.sql" (Some "create table b;")])
    (Some [mkTemplate [] "init.sql" (Some "alter table a;")])
    (Some [mkFunction "foo" [mkTemplate [] "index.ts" (Some "serve();")]])
    (Some [mkTemplate [] "seed.sql" (Some "insert into a;")]).

Definition demo_package : gmap string FeatureTemplates :=
  {[ "demo" := demo_templates ]}.




(** The project refuses writes to the target of [a.sql]. *)
Definition readonly_a_world : World :=
  mkWorld ∅ ∅ {[ ["supabase"; "schemas"; "a.sql"] ]} ∅ 0 [] None false
    "2025-01-01T00:00:00.000Z" ∅.

(** The target of [a.sql] exists already. *)
Definition existing_a_world : World :=
  mkWorld {[ ["supabase"; "schemas"; "a.sql"] := "-- mine" ]}
    {[ ["supabase"]; ["supabase"; "schemas"] ]} ∅ ∅ 0 [] None false
    "2025-01-01T00:00:00.000Z" ∅.

Definition unresolved_a : list ConflictingFile :=
  [mkConflict ["supabase"; "schemas"; "a.sql"] true None].

Definition overwrite_foo : list ConflictingFile :=
  [mkConflict ["supabase"; "functions"; "foo"] true (Some overwrite)].

End Installer.

(** * Registry queries and the manager's cache ([core/registry.ts]) *)

Module Queries.
Import Registry.

(** What [loadRegistry] finds at [registryPath]: no file, text that
    [JSON.parse] rejects, a falsy value such as [null], or a parsed
    object. *)
Inductive RegistryFile :=
| FileMissing
| FileUnparsable
| FileFalsy
| FileParsed (parsed : FeatureRegistry).

Inductive LoadError :=
| RegistryNotFound
| LoadFailedParse
| LoadFailedEmpty
| LoadFailedInvalid (cause : RegistryError)
| ResolveFeatureNotFound (featureId : string)
| ResolveFailed (cause : RegistryError).

(** [loadRegistry] with the field [this.registry] made explicit: the result
    and the field as the call leaves it. The parsed object is assigned to
    the field before [validateRegistry] runs. *)
Definition loadRegistry_cached (file : RegistryFile)
    (cache : option FeatureRegistry)
  : option (Result LoadError FeatureRegistry * option FeatureRegistry) :=
  match cache with
  | Some registry => Some (Ok registry, cache)
  | None =>
      match file with
      | FileMissing => Some (Err RegistryNotFound, None)
      | FileUnparsable => Some (Err LoadFailedParse, None)
      | FileFalsy => Some (Err LoadFailedEmpty, None)
      | FileParsed parsed =>
          match validateRegistry parsed with
          | None => None
          | Some (Err e) => Some (Err (LoadFailedInvalid e), Some parsed)
          | Some (Ok _) => Some (Ok parsed, Some parsed)
          end
      end
  end.

(** [resolveDependencies] on the manager: the body of
    [Registry.resolveDependencies] after [loadRegistry_cached]. *)
Definition resolveDependencies_cached (file : RegistryFile)
    (cache : option FeatureRegistry) (featureId : string)
  : option (Result LoadError (list string) * option FeatureRegistry) :=
  match loadRegistry_cached file cache with
  | None => None
  | Some (Err e, cache') => Some (Err e, cache')
  | Some (Ok registry, cache') =>
      let features := registry_features registry in
      match features_get features featureId with
      | None => Some (Err (ResolveFeatureNotFound featureId), cache')
      | Some _ =>
          match resolve (S (length features)) features featureId
                  {| r_visited := ∅; resolved := [] |} with
          | None => None
          | Some (Err e) => Some (Err (ResolveFailed e), cache')
          | Some (Ok st) => Some (Ok (resolved st), cache')
          end
      end
  end.


(** [categories.add(c)]; a [Set] keeps its members in insertion order, and
    [None] is [undefined]. *)
Definition set_add (c : option string) (categories : list (option string))
  : list (option string) :=
  if decide (c ∈ categories) then categories else categories ++ [c].

Section Sorting.
(** The order of strings by UTF-16 code units, which [Array.prototype.sort]
    uses when it is given no comparator. *)
Context (code_unit_le : relation string)
  `{!∀ x y, Decision (code_unit_le x y)}.

(** [array.sort()]: strings in order, [undefined] members at the end. *)
Definition sort_default (array : list (option string))
  : list (option string) :=
  (Some <$> merge_sort code_unit_le (omap id array)) ++
  filter (λ c, c = None) array.

(** [getCategories] *)
Definition getCategories (registry : FeatureRegistry)
  : list (option string) :=
  sort_default
    (foldl (λ categories entry, set_add (f_category entry.2) categories)
       [] (registry_features registry)).

End Sorting.


Definition categorised : FeatureRegistry :=
  mkRegistry (Some "1.0.0")
    (Some [("users", mkFeature (Some "n") (Some "d") (Some "1") (DepsArray [])
                       (Some "db"));
           ("login", mkFeature (Some "n") (Some "d") (Some "1")
                       (DepsArray ["users"]) (Some "auth"));
           ("posts", mkFeature (Some "n") (Some "d") (Some "1") (DepsArray [])
                       (Some "db"))]).

(** Strings compared character by character. *)
Definition string_le (a b : string) : Prop := String.leb a b = true.

Global Instance string_le_dec a b : Decision (string_le a b).
Proof. unfold string_le. apply _. Defined.

End Queries.

(** * The install command ([commands/install.ts], [utils/prompts.ts]) *)

Module Commands.
Import Registry Installer.

(** [config.installedFeatures[featureId]] is truthy, on the configuration
    object as [loadConfig] or [createDefaultConfig] made it: the object has
    an own record for the id, or it inherits a member of that name from
    [Object.prototype]. *)
Definition installed_get (config : SupaBootstrapConfig) (featureId : string)
  : Prop :=
  is_Some (installedFeatures config !! featureId) ∨
  featureId ∈ object_prototype.

Global Instance installed_get_dec config featureId :
  Decision (installed_get config featureId).
Proof. unfold installed_get. apply _. Defined.

(** [installCommand], step 7: the dependencies installed before the
    feature, in this order. *)
Definition missingDeps (registry : FeatureRegistry) (featureId : string)
    (config : SupaBootstrapConfig)
  : option (Result RegistryError (list string)) :=
  match resolveDependencies registry featureId with
  | None => None
  | Some (Err e) => Some (Err e)
  | Some (Ok allDependencies) =>
      Some (Ok (filter (λ dep, dep ≠ featureId ∧ ¬ installed_get config dep)
                  allDependencies))
  end.

(** A registry with a feature named like a member of [Object.prototype]. *)
Definition inherited_name : FeatureRegistry :=
  mkRegistry (Some "1.0.0")
    (Some [("constructor", mk []); ("app", mk ["constructor"])]).

Definition installed_abc : SupaBootstrapConfig :=
  mkConfig "1.0.0" ["supabase"] None {[ "a" := mkInstalled (Some "1.0.0") "t" [] ]}.

(** The user at the prompts of [handleFileConflicts]: the choice made at
    the question about the [i]-th conflict, and the answer to the final
    confirmation. *)
Record User := mkUser {
  choose : nat → ConflictingFile → Action;
  proceed : bool
}.

Inductive PromptError := CancelledByUser.

(** [PromptUtils.handleFileConflicts] *)
Definition handleFileConflicts (user : User) (conflicts : list ConflictingFile)
  : Result PromptError (list ConflictingFile) :=
  match conflicts with
  | [] => Ok []
  | _ =>
      let resolvedConflicts :=
        imap (λ i conflict,
                mkConflict (cf_path conflict) (cf_exists conflict)
                  (Some (choose user i conflict)))
             conflicts in
      if proceed user then Ok resolvedConflicts else Err CancelledByUser
  end.

(** [installCommand], step 9: the resolutions handed to [installFeature]. *)
Definition conflictResolutions (user : User) (conflicts : list ConflictingFile)
  : Result PromptError (list ConflictingFile) :=
  match conflicts with
  | [] => Ok conflicts
  | _ => handleFileConflicts user conflicts
  end.

(** [installFeatureRecursive]: the resolutions for a dependency. *)
Definition overwrite_all (conflicts : list ConflictingFile)
  : list ConflictingFile :=
  (λ conflict, mkConflict (cf_path conflict) (cf_exists conflict)
                 (Some overwrite)) <$> conflicts.

Inductive DependencyError :=
| DependencyAnalysisFailed (cause : AnalyzeError)
| DependencyNotFound (cause : InstallError)
| DependencyInstallFailed (featureId : string) (errors : list InstallError).

(** [installFeatureRecursive]; beside the result, the outcome of the inner
    [installFeature] when it was reached. *)
Definition installFeatureRecursive (registry : FeatureRegistry)
    (package : gmap string FeatureTemplates) (featureId : string)
    (config : SupaBootstrapConfig) (w : World)
  : Result DependencyError unit * option InstallationResult *
    (SupaBootstrapConfig * World) :=
  match analyzeConflicts registry package featureId config w with
  | Err e => (Err (DependencyAnalysisFailed e), None, (config, w))
  | Ok conflicts =>
      let conflictResolutions := overwrite_all conflicts in
      match installFeature registry package featureId conflictResolutions
              config w with
      | (Err e, after) => (Err (DependencyNotFound e), None, after)
      | (Ok result, after) =>
          if success result then (Ok tt, Some result, after)
          else (Err (DependencyInstallFailed featureId (errors result)),
                Some result, after)
      end
  end.

(** [installCommand], step 7: the loop that installs the missing
    dependencies; the first failure ends it. *)
Fixpoint install_dependencies (registry : FeatureRegistry)
    (package : gmap string FeatureTemplates) (missingDeps : list string)
    (config : SupaBootstrapConfig) (w : World)
  : Result DependencyError unit * (SupaBootstrapConfig * World) :=
  match missingDeps with
  | [] => (Ok tt, (config, w))
  | dep :: rest =>
      match installFeatureRecursive registry package dep config w with
      | (Ok _, _, (config', w')) =>
          install_dependencies registry package rest config' w'
      | (Err e, _, after) => (Err e, after)
      end
  end.

Definition abc_package : gmap string FeatureTemplates :=
  {[ "a" := no_templates; "b" := demo_templates; "c" := no_templates ]}.

Definition always_skip : User := mkUser (λ _ _, skip) true.

(** A project in which the function directory [foo] exists. *)
Definition existing_foo_world : World :=
  mkWorld {[ ["supabase"; "functions"; "foo"; "index.ts"] := "// mine" ]}
    {[ ["supabase"]; ["supabase"; "functions"];
       ["supabase"; "functions"; "foo"] ]} ∅ ∅ 0 [] None false
    "2025-01-01T00:00:00.000Z" ∅.

End Commands.

(** * The directory tree ([utils/file-operations.ts]) *)

Module FileOperations.
Import Installer.

(** An entry of a directory as [readdirSync(_, {withFileTypes: true})]
    reports it: a regular file, a directory with its entries, or anything
    else (a link, a socket). *)
#[warnings="-register-all"]
Inductive Entry :=
| FileEntry (name : string)
| DirectoryEntry (name : string) (entries : list Entry)
| OtherEntry (name : string).

Definition entry_name (entry : Entry) : string :=
  match entry with
  | FileEntry name | DirectoryEntry name _ | OtherEntry name => name
  end.

(** One iteration of the loop of [getFilesInDirectory] over the entries of
    [dirPath]; a directory entry is listed by the recursive call. *)
Fixpoint entry_files (recursive : bool) (dirPath : Path) (entry : Entry)
  : list Path :=
  match entry with
  | FileEntry name => [dirPath ++ [name]]
  | DirectoryEntry name entries =>
      if recursive then
        let fullPath := dirPath ++ [name] in
        (fix loop (entries : list Entry) : list Path :=
           match entries with
           | [] => []
           | entry :: rest => entry_files recursive fullPath entry ++ loop rest
           end) entries
      else []
  | OtherEntry _ => []
  end.

(** [getFilesInDirectory(dirPath, recursive)]; [dir] holds the entries of
    [dirPath], or [None] when [dirPath] is no directory. *)
Definition getFilesInDirectory (dir : option (list Entry)) (dirPath : Path)
    (recursive : bool) : list Path :=
  match dir with
  | None => []
  | Some entries => entries ≫= entry_files recursive dirPath
  end.

(** The names in every directory of the tree are pairwise distinct. *)
Fixpoint distinct_names (entry : Entry) : Prop :=
  match entry with
  | DirectoryEntry _ entries =>
      NoDup (entry_name <$> entries) ∧
      (fix all (entries : list Entry) : Prop :=
         match entries with
         | [] => True
         | entry :: rest => distinct_names entry ∧ all rest
         end) entries
  | _ => True
  end.

(** Induction over a tree of entries. *)
Fixpoint Entry_tree_ind (P : Entry → Prop)
    (Hfile : ∀ name, P (FileEntry name))
    (Hdir : ∀ name entries, Forall P entries → P (DirectoryEntry name entries))
    (Hother : ∀ name, P (OtherEntry name)) (entry : Entry) : P entry :=
  match entry with
  | FileEntry name => Hfile name
  | DirectoryEntry name entries =>
      Hdir name entries
        ((fix all (entries : list Entry) : Forall P entries :=
            match entries with
            | [] => Forall_nil_2 P
            | entry :: rest =>
                Forall_cons_2 P entry rest
                  (Entry_tree_ind P Hfile Hdir Hother entry) (all rest)
            end) entries)
  | OtherEntry name => Hother name
  end.

Definition sample_tree : list Entry :=
  [FileEntry "a.sql";
   DirectoryEntry "nested" [FileEntry "a.sql"; OtherEntry "link"];
   FileEntry "b.sql"].

End FileOperations.

(** * The project directory ([core/config.ts], [core/supabase-cli.ts]) *)

Module Project.
Import Installer.

(** What [fs.statSync] tells about an existing path. *)
Inductive Stat := IsFile | IsDirectory.

Global Instance Stat_eq_dec : EqDecision Stat.
Proof. solve_decision. Defined.

(** The paths that exist, from the file system root. *)
Abbreviation Disk := (gmap Path Stat).

Definition existsSync (disk : Disk) (p : Path) : bool :=
  bool_decide (is_Some (disk !! p)).

Definition isDirectory (disk : Disk) (p : Path) : bool :=
  bool_decide (disk !! p = Some IsDirectory).

Definition CONFIG_FILE_NAME : string := ".supabootstrap.json".

(** The loop of [findConfigFile]; the empty path is the root, at which the
    loop stops. [fuel] bounds the number of iterations. *)
Fixpoint findConfigFile_loop (fuel : nat) (disk : Disk) (currentDir : Path)
  : option (option Path) :=
  if decide (currentDir = []) then Some None
  else
    match fuel with
    | 0 => None
    | S fuel' =>
        let configPath := currentDir ++ [CONFIG_FILE_NAME] in
        if existsSync disk configPath then Some (Some configPath)
        else findConfigFile_loop fuel' disk (dirname currentDir)
    end.

(** [findConfigFile(startDir)] for an absolute [startDir]. *)
Definition findConfigFile (disk : Disk) (startDir : Path)
  : option (option Path) :=
  findConfigFile_loop (length startDir) disk startDir.

(** [SupabaseCLI.isSupabaseProject] *)
Definition isSupabaseProject (disk : Disk) (projectPath : Path) : bool :=
  let supabasePath := projectPath ++ ["supabase"] in
  let configPath := supabasePath ++ ["config.toml"] in
  existsSync disk supabasePath && isDirectory disk supabasePath &&
  existsSync disk configPath.

Inductive ProjectError :=
| NoSupabaseDirectory
| SupabaseNotADirectory
| ConfigTomlNotFound.

(** [SupabaseCLI.validateProject]; the result lists the directories it
    warns about. *)
Definition validateProject (disk : Disk) (projectPath : Path)
  : Result ProjectError (list string) :=
  let supabasePath := projectPath ++ ["supabase"] in
  if negb (existsSync disk supabasePath) then Err NoSupabaseDirectory
  else if negb (isDirectory disk supabasePath) then Err SupabaseNotADirectory
  else
    let configPath := supabasePath ++ ["config.toml"] in
    if negb (existsSync disk configPath) then Err ConfigTomlNotFound
    else
      Ok (filter (λ dir, existsSync disk (supabasePath ++ [dir]) = false)
            ["migrations"; "functions"]).

End Project.

(** * Relations the installer keeps *)

Module Invariants.
Import Registry Installer.

(** Every path recorded as installed is a file of the project. *)
Definition recorded_exist (st : InstallState) : Prop :=
  ∀ p, p ∈ st_installed st → is_Some (fs_files (st_world st) !! p).

Definition keeps_recorded : relation InstallState :=
  λ st st', recorded_exist st → recorded_exist st'.

(** The configuration file on disk is left as it is. *)
Definition same_config_file : relation World :=
  λ w w', config_file w' = config_file w.

Definition keeps_config_file : relation InstallState :=
  on_state same_config_file.

(** What the schema stage leaves alone. *)
Definition schema_quiet : relation InstallState :=
  λ st st',
    st_errors st' = st_errors st ∧ st_config st' = st_config st ∧
    cli_calls (st_world st') = cli_calls (st_world st) ∧
    config_file (st_world st') = config_file (st_world st) ∧
    fs_unwritable (st_world st') = fs_unwritable (st_world st).

(** Directories are only created on the way to a path in [Q]. *)
Definition dirs_toward (Q : Path → Prop) : relation World :=
  λ w w', ∀ d, d ∈ fs_dirs w' →
    d ∈ fs_dirs w ∨ ∃ rest, rest ≠ [] ∧ Q (d ++ rest).

(** Every function directory that exists has the resolution [overwrite]. *)
Definition overwrite_existing (config : SupaBootstrapConfig)
    (res : list ConflictingFile) (fns : list FunctionTemplate) (w : World)
  : Prop :=
  ∀ fn, fn ∈ fns → directoryExists (function_target config fn) w = true →
        resolution_of res (function_target config fn) = Some overwrite.

(** ** Sample projects *)

(** The scaffold tool fails on the migration [init]. *)
Definition failing_init_world : World :=
  mkWorld ∅ ∅ ∅ {[ "init" ]} 0 [] None false "2025-01-01T00:00:00.000Z" ∅.

(** The scaffold tool fails on the function [foo]. *)
Definition failing_foo_world : World :=
  mkWorld ∅ ∅ ∅ {[ "foo" ]} 0 [] None false "2025-01-01T00:00:00.000Z" ∅.

(** The first migration artifact of the project cannot be written. *)
Definition readonly_migration_world : World :=
  mkWorld ∅ ∅ {[ ["supabase"; "migrations"; "0_init.sql"] ]} ∅ 0 [] None false
    "2025-01-01T00:00:00.000Z" ∅.

(** The scaffold tool fails on the migration [init] and the configuration
    cannot be saved. *)
Definition unsaved_world : World :=
  mkWorld ∅ ∅ ∅ {[ "init" ]} 0 [] None true "2025-01-01T00:00:00.000Z" ∅.

(** The seed artifact exists and cannot be read. *)
Definition unreadable_seed_world : World :=
  mkWorld {[ getSeedPath := "-- mine" ]} ∅ ∅ ∅ 0 [] None false
    "2025-01-01T00:00:00.000Z" {[ getSeedPath ]}.

(** A feature whose second schema file cannot be read. *)
Definition unreadable_b_package : gmap string FeatureTemplates :=
  {[ "demo" :=
       mkTemplates
         (Some [mkTemplate [] "a.sql" (Some "create table a;");
                mkTemplate [] "b.sql" None;
                mkTemplate [] "c.sql" (Some "create table c;")])
         (Some [mkTemplate [] "init.sql" (Some "alter table a;")])
         None None ]}.

End Invariants.

(** * Facts about the registry *)

Module RegistryFacts.
Import Registry.

Section Graph.
Context (features : Features).

Local Abbreviation E := (edge features).

Lemma lookup_feature_Some_elem id f :
  lookup_feature features id = Some f → id ∈ feature_ids features.
Proof.
  unfold feature_ids. induction features as [|[k g] l IH]; simpl; [done|].
  case_decide; intros ?; simplify_eq; [left | right; auto].
Qed.

Lemma elem_lookup_feature id :
  id ∈ feature_ids features → is_Some (lookup_feature features id).
Proof.
  unfold feature_ids. induction features as [|[k g] l IH]; simpl.
  - by intros ?%elem_of_nil.
  - intros Hin. case_decide; [eauto|].
    apply elem_of_cons in Hin as [->|Hin]; [done | auto].
Qed.

Lemma lookup_feature_entry id f :
  lookup_feature features id = Some f → (id, f) ∈ features.
Proof.
  induction features as [|[k g] l IH]; simpl; [done|].
  case_decide; intros ?; simplify_eq; [left | right; auto].
Qed.

Lemma edge_source_known x y : E x y → is_Some (lookup_feature features x).
Proof.
  unfold edge, deps_of. destruct (lookup_feature features x); [eauto|].
  by intros ?%elem_of_nil.
Qed.

Lemma edge_deps_list x f y :
  lookup_feature features x = Some f → E x y ↔ y ∈ deps_list f.
Proof. unfold edge, deps_of. by intros ->. Qed.

(** A set closed under the dependency relation contains everything
    reachable from its members. *)
Lemma rtc_closed (B : string → Prop) x y :
  (∀ a b, B a → E a b → B b) → rtc E x y → B x → B y.
Proof. intros Hcl. induction 1; eauto. Qed.

(** *** Property reads *)

Lemma features_get_own id f :
  lookup_feature features id = Some f → features_get features id = Some f.
Proof. unfold features_get. by intros ->. Qed.

(** A value with a [dependencies] array is an own property: the inherited
    members have none. *)
Lemma features_get_array id f ids :
  features_get features id = Some f → f_dependencies f = DepsArray ids →
  lookup_feature features id = Some f ∧ deps_list f = ids.
Proof.
  unfold features_get, deps_list. intros Hget Hdeps. rewrite Hdeps.
  destruct (lookup_feature features id); [done|].
  case_decide; [|done]. injection Hget as <-. done.
Qed.

Lemma features_get_None id :
  features_get features id = None →
  lookup_feature features id = None ∧ id ∉ object_prototype.
Proof.
  unfold features_get. destruct (lookup_feature features id); [done|].
  by case_decide.
Qed.

Lemma features_get_inherited id :
  lookup_feature features id = None → id ∈ object_prototype →
  features_get features id = Some (inherited_member id).
Proof. unfold features_get. intros -> ?. by rewrite decide_True. Qed.

(** *** The cycle check *)

Lemma hasCycle_deps_post rec id deps st st2 :
  (∀ d s b s', rec d s = Some (Ok (b, s')) → cycle_post d s b s') →
  hasCycle_deps rec features id deps st = Some (Ok st2) →
  recursionStack st2 = recursionStack st ∧ visited st ⊆ visited st2 ∧
  ∀ d, d ∈ deps → d ∈ visited st2 ∧ d ∉ recursionStack st2.
Proof.
  intros Hrec. revert st. induction deps as [|d deps IH]; intros st; simpl.
  - intros [= ->]. split_and!; [done..|]. by intros d ?%elem_of_nil.
  - destruct (features_get features d) as [fd|] eqn:Hd; [|done].
    destruct (rec d st) as [[[[] s']|e]|] eqn:Hr; try done.
    intros Hloop. destruct (IH _ Hloop) as (Hst & Hv & Hall).
    destruct (Hrec _ _ _ _ Hr) as (Hst' & Hv' & Hno & Hin).
    split_and!; [congruence | set_solver |].
    intros d' [->|Hd']%elem_of_cons; [|auto].
    split; [set_solver | congruence].
Qed.

Lemma hasCycle_post fuel id st b st' :
  hasCycle fuel features id st = Some (Ok (b, st')) → cycle_post id st b st'.
Proof.
  revert id st b st'. induction fuel as [|fuel IH]; intros id st b st'; [done|].
  simpl. case_decide as Hstack.
  { intros [= <- <-]. by split_and!. }
  case_decide as Hvis.
  { intros [= <- <-]. by split_and!. }
  set (st1 := {| visited := {[id]} ∪ visited st;
                 recursionStack := {[id]} ∪ recursionStack st |}).
  destruct (features_get features id) as [f|] eqn:Hf.
  - destruct (f_dependencies f) as [| |deps]; try done.
    destruct (hasCycle_deps _ _ _ _ st1) as [[st2|e]|] eqn:Hloop; try done.
    intros [= <- <-].
    destruct (hasCycle_deps_post _ _ _ _ _ IH Hloop) as (Hst & Hv & _).
    unfold cycle_post; simpl in *. rewrite Hst.
    split_and!; [set_solver.. ].
  - intros [= <- <-]. unfold cycle_post; simpl. split_and!; set_solver.
Qed.

(** A call on an id that the property read finds leaves only keys among
    the visited ids. *)
Lemma hasCycle_deps_own rec id deps st st2 :
  (∀ d s b s', is_Some (features_get features d) →
     rec d s = Some (Ok (b, s')) → visited_own features s →
     visited_own features s') →
  hasCycle_deps rec features id deps st = Some (Ok st2) →
  visited_own features st → visited_own features st2.
Proof.
  intros Hrec. revert st. induction deps as [|d deps IH]; intros st; simpl.
  - by intros [= ->].
  - destruct (features_get features d) as [fd|] eqn:Hd; [|done].
    destruct (rec d st) as [[[[] s']|e]|] eqn:Hr; try done.
    intros Hloop Hown. eapply IH; [done|]. eapply Hrec; [|done..]. by eauto.
Qed.

Lemma hasCycle_own fuel id st b st' :
  is_Some (features_get features id) →
  hasCycle fuel features id st = Some (Ok (b, st')) →
  visited_own features st → visited_own features st'.
Proof.
  revert id st b st'. induction fuel as [|fuel IH]; intros id st b st'; [done|].
  simpl. intros [f Hf]. case_decide as Hstack; [by intros [= <- <-]|].
  case_decide as Hvis; [by intros [= <- <-]|].
  rewrite Hf. destruct (f_dependencies f) as [| |deps] eqn:Hdeps; try done.
  destruct (features_get_array _ _ _ Hf Hdeps) as [Hown _].
  destruct (hasCycle_deps _ _ _ _ _) as [[st2|e]|] eqn:Hloop; try done.
  intros [= <- <-] Hst. simpl.
  eapply (hasCycle_deps_own _ _ _ _ _ IH Hloop).
  intros x [->%elem_of_singleton|?]%elem_of_union; [eauto | auto].
Qed.

Lemma hasCycle_deps_inv rec id deps st st2 :
  (∀ d s b s', rec d s = Some (Ok (b, s')) → cycle_post d s b s') →
  (∀ d s b s', is_Some (features_get features d) →
     rec d s = Some (Ok (b, s')) → visited_own features s →
     visited_own features s') →
  (∀ d s s', is_Some (features_get features d) →
     rec d s = Some (Ok (false, s')) → visited_own features s →
     cycle_inv features s → cycle_inv features s') →
  hasCycle_deps rec features id deps st = Some (Ok st2) →
  visited_own features st → cycle_inv features st → cycle_inv features st2.
Proof.
  intros Hpost Hown Hrec. revert st.
  induction deps as [|d deps IH]; intros st; simpl.
  - by intros [= ->].
  - destruct (features_get features d) as [fd|] eqn:Hd; [|done].
    destruct (rec d st) as [[[[] s']|e]|] eqn:Hr; try done.
    intros Hloop Hst Hinv. eapply IH; [done | |].
    + eapply Hown; [|done..]. by eauto.
    + eapply Hrec; [|done..]. by eauto.
Qed.

Lemma hasCycle_inv fuel id st st' :
  is_Some (features_get features id) →
  hasCycle fuel features id st = Some (Ok (false, st')) →
  visited_own features st →
  cycle_inv features st → cycle_inv features st'.
Proof.
  revert id st st'. induction fuel as [|fuel IH]; intros id st st'; [done|].
  simpl. intros [f Hf]. case_decide as Hstack; [done|].
  case_decide as Hvis; [by intros [= <-]|].
  set (st1 := {| visited := {[id]} ∪ visited st;
                 recursionStack := {[id]} ∪ recursionStack st |}).
  rewrite Hf. destruct (f_dependencies f) as [| |deps] eqn:Hdeps; try done.
  destruct (features_get_array _ _ _ Hf Hdeps) as [Hown Hlist].
  intros Hrun Hvown Hinv.
  assert (visited_own features st1) as Hvown1.
  { intros x [->%elem_of_singleton|?]%elem_of_union; [eauto | auto]. }
  assert (cycle_inv features st1) as Hinv1.
  { intros x [Hx1 Hx2]. simpl in *.
    assert (finished st x) as Hfx by (split; set_solver).
    destruct (Hinv x Hfx) as [Hd Hacyc]. split; [|done].
    intros y Hxy. destruct (Hd y Hxy) as [? [? ?]].
    split; [done|]. split; simpl; set_solver. }
  destruct (hasCycle_deps _ _ _ _ st1) as [[st2|e]|] eqn:Hloop; try done.
  injection Hrun as <-.
  destruct (hasCycle_deps_post _ _ _ _ _ (hasCycle_post fuel) Hloop)
    as (Hst & Hv & Hall).
  pose proof (hasCycle_deps_own _ _ _ _ _ (hasCycle_own fuel) Hloop Hvown1)
    as Hvown2.
  assert (cycle_inv features st2) as Hinv2.
  { eapply hasCycle_deps_inv;
      [apply hasCycle_post | apply hasCycle_own | apply IH | done..]. }
  assert (∀ y, E id y → is_Some (lookup_feature features y) ∧ finished st2 y)
    as Hdeps'.
  { intros y Hy. rewrite (edge_deps_list _ _ _ Hown), Hlist in Hy.
    destruct (Hall y Hy) as [? ?]. split; [by apply Hvown2 | done]. }
  intros x [Hx1 Hx2]; simpl in *.
  destruct (decide (x = id)) as [->|Hne].
  - split.
    + intros y Hy. destruct (Hdeps' y Hy) as [? [? ?]].
      split; [done|]. split; simpl; set_solver.
    + intros Hcyc.
      assert (finished st2 id) as [_ Hbad]; [|rewrite Hst in Hbad; set_solver].
      inversion Hcyc as [? ? Hstep|? y ? Hstep Hrest]; subst.
      * by apply Hdeps'.
      * apply (rtc_closed (finished st2) y id).
        -- intros a b Ha Hab. destruct (Hinv2 a Ha) as [Hd _]. by apply Hd.
        -- by apply tc_rtc.
        -- by apply Hdeps'.
  - assert (finished st2 x) as Hfx by (split; set_solver).
    destruct (Hinv2 x Hfx) as [Hd Hacyc]. split; [|done].
    intros y Hy. destruct (Hd y Hy) as [? [? ?]].
    split; [done|]. split; simpl; set_solver.
Qed.

Lemma hasCycle_deps_sound rec id deps st e :
  (∀ d s b s', rec d s = Some (Ok (b, s')) → cycle_post d s b s') →
  (∀ d s e', rec d s = Some (Err e') → traversed features d →
     (∀ a, a ∈ recursionStack s → rtc E a d) → error_justified features e') →
  hasCycle_deps rec features id deps st = Some (Err e) →
  (∀ a, a ∈ recursionStack st → rtc E a id) →
  (∀ d, d ∈ deps → E id d) →
  error_justified features e.
Proof.
  intros Hpost Hrec. revert st e.
  induction deps as [|d deps IH]; intros st e; simpl; [done|].
  intros Hrun Hstack Hdeps.
  assert (E id d) as Hd by (apply Hdeps; left).
  destruct (features_get features d) as [fd|] eqn:Hfd.
  2:{ injection Hrun as <-. split; [done|]. by apply features_get_None. }
  destruct (rec d st) as [[[[] s']|e']|] eqn:Hr; try done.
  - injection Hrun as <-. destruct (Hpost _ _ _ _ Hr) as (_ & _ & Hin & _).
    simpl. eapply tc_rtc_r; [by apply tc_once | by apply Hstack].
  - destruct (Hpost _ _ _ _ Hr) as (Hst & _ & _).
    eapply IH; [done| |].
    + intros a. rewrite Hst. apply Hstack.
    + intros d' ?. apply Hdeps. by right.
  - injection Hrun as <-. eapply Hrec; [done | right; eauto |].
    intros a Ha. eapply rtc_r; [by apply Hstack | done].
Qed.

Lemma hasCycle_sound fuel id st e :
  hasCycle fuel features id st = Some (Err e) →
  traversed features id →
  (∀ a, a ∈ recursionStack st → rtc E a id) →
  error_justified features e.
Proof.
  revert id st e. induction fuel as [|fuel IH]; intros id st e; [done|].
  simpl. case_decide as Hstack; [done|]. case_decide as Hvis; [done|].
  destruct (features_get features id) as [f|] eqn:Hf; [|done].
  destruct (f_dependencies f) as [| |deps] eqn:Hdeps.
  1,2: intros [= <-] Hid _; exists id, f; split_and!; [done..|];
       intros ids; by rewrite Hdeps.
  destruct (features_get_array _ _ _ Hf Hdeps) as [Hown Hlist].
  destruct (hasCycle_deps _ _ _ _ _) as [[st2|e']|] eqn:Hloop; try done.
  intros [= <-] _ Hanc.
  eapply hasCycle_deps_sound; [apply hasCycle_post | apply IH | done | |].
  - simpl. intros a [->%elem_of_singleton|Ha]%elem_of_union; [done | auto].
  - intros d Hd. apply (edge_deps_list _ _ _ Hown). by rewrite Hlist.
Qed.

Lemma unvisited_mono V V' : V ⊆ V' → unvisited features V' ≤ unvisited features V.
Proof. intros ?. apply subseteq_size. set_solver. Qed.

Lemma unvisited_mark id f V :
  lookup_feature features id = Some f → id ∉ V →
  unvisited features ({[id]} ∪ V) < unvisited features V.
Proof.
  intros Hf%lookup_feature_Some_elem Hid. apply subset_size.
  apply strict_spec_alt. split; [set_solver|].
  intros Heq. assert (id ∈ list_to_set (C := gset string) (feature_ids features) ∖ V) as Hin
    by (apply elem_of_difference; split; [by apply elem_of_list_to_set | done]).
  rewrite <- Heq in Hin. set_solver.
Qed.

Lemma size_list_to_set_le (l : list string) :
  size (list_to_set (C := gset string) l) ≤ length l.
Proof.
  induction l as [|a l IH].
  - by rewrite list_to_set_nil, size_empty.
  - rewrite list_to_set_cons, size_union_alt, size_singleton. simpl.
    assert (size (list_to_set (C := gset string) l ∖ {[a]})
            ≤ size (list_to_set (C := gset string) l))
      by (apply subseteq_size; set_solver).
    lia.
Qed.

Lemma unvisited_bound V : unvisited features V ≤ length features.
Proof.
  unfold unvisited.
  trans (size (list_to_set (C := gset string) (feature_ids features))).
  - apply subseteq_size. set_solver.
  - unfold feature_ids. rewrite <- (length_fmap fst features).
    apply size_list_to_set_le.
Qed.

Lemma hasCycle_deps_fuel rec id deps st n :
  (∀ d s b s', rec d s = Some (Ok (b, s')) → cycle_post d s b s') →
  (∀ d s, unvisited features (visited s) ≤ n → is_Some (rec d s)) →
  unvisited features (visited st) ≤ n →
  is_Some (hasCycle_deps rec features id deps st).
Proof.
  intros Hpost Hrec. revert st.
  induction deps as [|d deps IH]; intros st Hn; simpl; [eauto|].
  destruct (features_get features d); [|eauto].
  destruct (Hrec d st Hn) as [[[[] s']|e] Hr]; rewrite Hr; eauto.
  apply IH. destruct (Hpost _ _ _ _ Hr) as (_ & Hv & _).
  etrans; [by apply unvisited_mono | done].
Qed.

Lemma hasCycle_fuel fuel id st :
  unvisited features (visited st) < fuel → is_Some (hasCycle fuel features id st).
Proof.
  revert id st. induction fuel as [|fuel IH]; intros id st Hn; [lia|].
  simpl. case_decide; [eauto|]. case_decide; [eauto|].
  destruct (features_get features id) as [f|] eqn:Hf; [|eauto].
  destruct (f_dependencies f) as [| |deps] eqn:Hdeps; [eauto..|].
  destruct (features_get_array _ _ _ Hf Hdeps) as [Hown _].
  set (st1 := {| visited := _; recursionStack := _ |}).
  destruct (hasCycle_deps_fuel (hasCycle fuel features) id deps st1
              (unvisited features (visited st1))) as [[?|?] ->]; eauto.
  - apply hasCycle_post.
  - intros d s Hs. apply IH.
    pose proof (unvisited_mark id f (visited st) Hown ltac:(done)).
    simpl in *. lia.
Qed.

Lemma check_all_ok fuel ids st st' :
  (∀ id, id ∈ ids → is_Some (lookup_feature features id)) →
  check_all fuel features ids st = Some (Ok st') →
  visited_own features st → cycle_inv features st → recursionStack st = ∅ →
  cycle_inv features st' ∧ recursionStack st' = ∅ ∧
  visited st ⊆ visited st' ∧ ∀ id, id ∈ ids → id ∈ visited st'.
Proof.
  revert st. induction ids as [|id ids IH]; intros st Hids; simpl.
  - intros [= ->] ? ? ?. split_and!; [done..|]. by intros ? ?%elem_of_nil.
  - assert (∀ id', id' ∈ ids → is_Some (lookup_feature features id')) as Hrest
      by (intros id' ?; apply Hids; by right).
    case_decide as Hvis.
    + intros Hrun Hown Hinv Hst.
      destruct (IH _ Hrest Hrun Hown Hinv Hst) as (? & ? & ? & Hall).
      split_and!; [done..|].
      intros id' [->|?]%elem_of_cons; [set_solver | auto].
    + destruct (hasCycle fuel features id st) as [[[b s1]|e]|] eqn:Hc; try done.
      intros Hrun Hown Hinv Hst.
      destruct (Hids id) as [f Hf]; [by left|].
      apply features_get_own in Hf.
      destruct (hasCycle_post _ _ _ _ _ Hc) as (Hst1 & Hv1 & Hb).
      destruct b; [rewrite Hst in Hb; set_solver|]. destruct Hb as [_ Hid].
      destruct (IH _ Hrest Hrun) as (? & ? & ? & Hall);
        [by eapply hasCycle_own; eauto | by eapply hasCycle_inv; eauto
        | congruence |].
      split_and!; [done | done | set_solver |].
      intros id' [->|?]%elem_of_cons; [set_solver | auto].
Qed.

Lemma check_all_sound fuel ids st e :
  (∀ id, id ∈ ids → is_Some (lookup_feature features id)) →
  check_all fuel features ids st = Some (Err e) →
  recursionStack st = ∅ → error_justified features e.
Proof.
  revert st. induction ids as [|id ids IH]; intros st Hids; simpl; [done|].
  assert (∀ id', id' ∈ ids → is_Some (lookup_feature features id')) as Hrest
    by (intros id' ?; apply Hids; by right).
  case_decide; [by apply IH|].
  destruct (hasCycle fuel features id st) as [[[b s1]|e']|] eqn:Hc; try done.
  - intros Hrun Hst. eapply IH; [done | done |].
    destruct (hasCycle_post _ _ _ _ _ Hc) as (-> & _). done.
  - intros [= <-] Hst. eapply hasCycle_sound; [done | left; apply Hids; by left |].
    intros a. rewrite Hst. set_solver.
Qed.

Lemma check_all_fuel fuel ids st :
  unvisited features (visited st) < fuel →
  is_Some (check_all fuel features ids st).
Proof.
  revert st. induction ids as [|id ids IH]; intros st Hn; simpl; [eauto|].
  case_decide; [by apply IH|].
  destruct (hasCycle_fuel fuel id st Hn) as [[[b s1]|e] Hc]; rewrite Hc; [|eauto].
  apply IH. destruct (hasCycle_post _ _ _ _ _ Hc) as (_ & Hv & _).
  pose proof (unvisited_mono _ _ Hv). lia.
Qed.

Lemma cycle_inv_init :
  cycle_inv features {| visited := ∅; recursionStack := ∅ |}.
Proof. intros x [Hx _]. simpl in Hx. set_solver. Qed.

Lemma checkCircularDependencies_total :
  is_Some (checkCircularDependencies features).
Proof.
  unfold checkCircularDependencies.
  destruct (check_all_fuel (S (length features)) (feature_ids features)
              {| visited := ∅; recursionStack := ∅ |}) as [[?|?] ->]; eauto.
  pose proof (unvisited_bound ∅). simpl. lia.
Qed.

(** A check that passes certifies the graph: all declared dependencies are
    keys and there is no cycle. *)
Lemma checkCircularDependencies_ok :
  checkCircularDependencies features = Some (Ok tt) →
  deps_known features ∧ ¬ has_cycle features.
Proof.
  unfold checkCircularDependencies.
  destruct (check_all _ _ _ _) as [[st'|e]|] eqn:Hrun; try done. intros _.
  destruct (check_all_ok _ _ _ _ (λ id, elem_lookup_feature id) Hrun)
    as (Hinv & Hst & _ & Hall); [by intros x ?%elem_of_empty
                                | apply cycle_inv_init | done |].
  assert (∀ x y, edge features x y → finished st' x) as Hfin.
  { intros x y [f Hf]%edge_source_known. split; [|rewrite Hst; set_solver].
    apply Hall. by eapply lookup_feature_Some_elem. }
  split.
  - intros x y Hxy. by apply (Hinv x (Hfin _ _ Hxy)).
  - intros [x Hx]. assert (∃ y, edge features x y) as [y Hxy]
      by (inversion Hx; eauto).
    by apply (Hinv x (Hfin _ _ Hxy)).
Qed.

Lemma checkCircularDependencies_err e :
  checkCircularDependencies features = Some (Err e) →
  error_justified features e.
Proof.
  unfold checkCircularDependencies.
  destruct (check_all _ _ _ _) as [[st'|e']|] eqn:Hrun; try done.
  intros [= <-]. eapply check_all_sound; [|done..].
  intros id. apply elem_lookup_feature.
Qed.

(** *** Dependency resolution *)

Lemma resolve_deps_mono rec deps st st2 :
  (∀ d s s', rec d s = Some (Ok s') → r_visited s ⊆ r_visited s') →
  resolve_deps rec deps st = Some (Ok st2) → r_visited st ⊆ r_visited st2.
Proof.
  intros Hrec. revert st. induction deps as [|d deps IH]; intros st; simpl.
  - by intros [= ->].
  - destruct (rec d st) as [[s'|e]|] eqn:Hr; [|done..]. intros Hrun.
    etrans; [by eapply Hrec | by apply IH].
Qed.

Lemma resolve_mono fuel cur st st' :
  resolve fuel features cur st = Some (Ok st') → r_visited st ⊆ r_visited st'.
Proof.
  revert cur st st'. induction fuel as [|fuel IH]; intros cur st st'; [done|].
  simpl. case_decide; [by intros [= ->]|].
  destruct (features_get features cur) as [f|]; [|intros [= <-]; set_solver].
  destruct (f_dependencies f) as [| |deps]; try done.
  destruct (resolve_deps _ _ _) as [[st2|e]|] eqn:Hloop; [|done..].
  apply resolve_deps_mono in Hloop; [|apply IH]. simpl in Hloop.
  case_decide; intros [= <-]; simpl; set_solver.
Qed.

Lemma resolve_deps_fuel rec deps st n :
  (∀ d s s', rec d s = Some (Ok s') → r_visited s ⊆ r_visited s') →
  (∀ d s, unvisited features (r_visited s) ≤ n → is_Some (rec d s)) →
  unvisited features (r_visited st) ≤ n →
  is_Some (resolve_deps rec deps st).
Proof.
  intros Hmono Hrec. revert st.
  induction deps as [|d deps IH]; intros st Hn; simpl; [eauto|].
  destruct (Hrec d st Hn) as [[s'|e] Hr]; rewrite Hr; [|eauto]. apply IH.
  etrans; [eapply unvisited_mono, Hmono, Hr | done].
Qed.

Lemma resolve_fuel fuel cur st :
  unvisited features (r_visited st) < fuel →
  is_Some (resolve fuel features cur st).
Proof.
  revert cur st. induction fuel as [|fuel IH]; intros cur st Hn; [lia|].
  simpl. case_decide; [eauto|].
  destruct (features_get features cur) as [f|] eqn:Hf; [|eauto].
  destruct (f_dependencies f) as [| |deps] eqn:Hdeps; [eauto..|].
  destruct (features_get_array _ _ _ Hf Hdeps) as [Hown _].
  set (st1 := {| r_visited := _; resolved := _ |}).
  assert (is_Some (resolve_deps (resolve fuel features) deps st1))
    as [[st2|e] ->]; [|case_decide; eauto | eauto].
  apply (resolve_deps_fuel _ _ _ (unvisited features (r_visited st1)));
    [apply resolve_mono | | done].
  intros d s Hs. apply IH.
  pose proof (unvisited_mark cur f (r_visited st) Hown ltac:(done)).
  simpl in *. lia.
Qed.

Lemma topo_snoc l x :
  topo features l → (∀ y, E x y → y ∈ l) → topo features (l ++ [x]).
Proof.
  intros Hl Hx i z Hi y Hzy.
  destruct (decide (i < length l)) as [Hlt|Hge].
  - rewrite lookup_app_l in Hi by done.
    destruct (Hl i z Hi y Hzy) as (j & ? & Hj). exists j. split; [done|].
    rewrite lookup_app_l; [done|]. apply lookup_lt_Some in Hj. lia.
  - rewrite lookup_app_r in Hi by lia.
    destruct (i - length l) eqn:Hd; [|done]. simpl in Hi. simplify_eq.
    destruct (proj1 (list_elem_of_lookup l y) (Hx y Hzy)) as [j Hj].
    exists j. apply lookup_lt_Some in Hj as Hlt. split; [lia|].
    by rewrite lookup_app_l.
Qed.

Lemma topo_closed l x y : topo features l → x ∈ l → E x y → y ∈ l.
Proof.
  intros Hl [i Hi]%list_elem_of_lookup Hxy.
  destruct (Hl i x Hi y Hxy) as (j & _ & Hj). by eapply list_elem_of_lookup_2.
Qed.

Lemma topo_order l :
  topo features l → NoDup l →
  ∀ x y, tc E x y → ∀ i j, l !! i = Some x → l !! j = Some y → j < i.
Proof.
  intros Hl Hnd x y Hxy. induction Hxy as [x y Hxy|x z y Hxz Hzy IH];
    intros i j Hi Hj.
  - destruct (Hl i x Hi y Hxy) as (j' & ? & Hj').
    by rewrite (NoDup_lookup l j j' y Hnd Hj Hj').
  - destruct (Hl i x Hi z Hxz) as (k & ? & Hk).
    specialize (IH k j Hk Hj). lia.
Qed.

Section Resolve.
Hypothesis Hknown : deps_known features.
Hypothesis Hacyclic : ¬ has_cycle features.
Hypothesis Harrays :
  ∀ id f, lookup_feature features id = Some f →
          ∃ ids, f_dependencies f = DepsArray ids.

Lemma resolve_deps_post rec cur deps st r :
  (∀ d s r', rec d s = Some r' → resolve_pre features d s →
     ∃ s', r' = Ok s' ∧ resolve_post features d s s') →
  resolve_deps rec deps st = Some r →
  resolve_inv features st →
  (∀ d s, d ∈ deps → in_progress st s → ¬ rtc E d s) →
  (∀ d, d ∈ deps → E cur d) →
  ∃ st2, r = Ok st2 ∧
    resolve_inv features st2 ∧
    (∃ new, resolved st2 = resolved st ++ new ∧ ∀ x, x ∈ new → rtc E cur x) ∧
    (∀ s, in_progress st2 s ↔ in_progress st s) ∧
    ∀ d, d ∈ deps → d ∈ resolved st2.
Proof.
  intros Hrec. revert st. induction deps as [|d deps IH]; intros st; simpl.
  - intros [= <-] Hinv _ _. exists st. split_and!; [done | done | | done |].
    + exists []. split; [by rewrite app_nil_r|]. by intros ? ?%elem_of_nil.
    + by intros ? ?%elem_of_nil.
  - destruct (rec d st) as [r'|] eqn:Hr; [|done]. intros Hrun Hinv Hpre Hdeps.
    destruct (Hrec d st r' Hr)
      as (s' & -> & Hinv' & (new1 & Hnew1 & Hreach1) & Hip & Hd & _).
    { split_and!; [|done|].
      - eapply Hknown, Hdeps. left.
      - intros s. apply Hpre. left. }
    destruct (IH s' Hrun Hinv')
      as (st2 & -> & Hinv2 & (new2 & Hnew2 & Hreach2) & Hip2 & Hall).
    { intros d' s ? Hs. apply Hpre; [by right | by apply Hip]. }
    { intros d' ?. apply Hdeps. by right. }
    exists st2. split_and!; [done | done | | |].
    + exists (new1 ++ new2). split; [by rewrite Hnew2, Hnew1, app_assoc|].
      intros x [?|?]%elem_of_app; [|by auto].
      eapply rtc_l; [apply Hdeps; left | by apply Hreach1].
    + intros s. by rewrite Hip2.
    + intros d' [->|?]%elem_of_cons; [|by auto].
      rewrite Hnew2. apply elem_of_app. by left.
Qed.

Lemma resolve_correct fuel cur st r :
  resolve fuel features cur st = Some r →
  resolve_pre features cur st →
  ∃ st', r = Ok st' ∧ resolve_post features cur st st'.
Proof.
  revert cur st r. induction fuel as [|fuel IH]; intros cur st r; [done|].
  simpl. intros Hrun ([f Hf] & Hinv & Hpre). case_decide as Hvis.
  { injection Hrun as <-. exists st. split; [done|].
    assert (cur ∈ resolved st) as Hin.
    { destruct (decide (cur ∈ resolved st)) as [|Hn]; [done|].
      by destruct (Hpre cur (conj Hvis Hn)). }
    split_and!; [done | | done | done | done].
    exists []. split; [by rewrite app_nil_r|]. by intros ? ?%elem_of_nil. }
  destruct Hinv as (Hnd & Hsub & Htopo).
  assert (cur ∉ resolved st) as Hfresh by (intros ?; by apply Hvis, Hsub).
  destruct (Harrays _ _ Hf) as [ids Hids].
  assert (deps_list f = ids) as Hlist by (unfold deps_list; by rewrite Hids).
  rewrite (features_get_own _ _ Hf), Hids in Hrun.
  set (st1 := {| r_visited := {[cur]} ∪ r_visited st; resolved := resolved st |}) in *.
  destruct (resolve_deps _ _ st1) as [r2|] eqn:Hloop; [|done].
  assert (∀ s, in_progress st1 s ↔ in_progress st s ∨ s = cur) as Hip1.
  { intros s. unfold in_progress. simpl. split.
    - intros [[->%elem_of_singleton|?]%elem_of_union ?]; auto.
    - intros [[? ?]| ->]; (split; [set_solver | done]). }
  destruct (resolve_deps_post _ cur _ _ _ IH Hloop)
    as (st2 & -> & (Hnd2 & Hsub2 & Htopo2) & (new & Hnew & Hreach) & Hip2 & Hall).
  { split_and!; [done | | done]. simpl. intros x ?. set_solver. }
  { intros d s Hd [Hs| ->]%Hip1 Hds.
    - apply (Hpre s Hs). eapply rtc_l; [|done].
      apply (edge_deps_list _ _ _ Hf). by rewrite Hlist.
    - apply Hacyclic. exists cur. eapply tc_rtc_r; [|done].
      apply tc_once, (edge_deps_list _ _ _ Hf). by rewrite Hlist. }
  { intros d ?. apply (edge_deps_list _ _ _ Hf). by rewrite Hlist. }
  assert (in_progress st2 cur) as [Hv2 Hr2] by (apply Hip2, Hip1; by right).
  rewrite decide_False in Hrun by done. injection Hrun as <-.
  eexists. split; [done|].
  split_and!; simpl.
  - split_and!; simpl.
    + apply NoDup_app. split_and!; [done | | apply NoDup_singleton].
      intros x ? Hx%list_elem_of_singleton. by subst.
    + intros x [?|Hx%list_elem_of_singleton]%elem_of_app; subst; auto.
    + apply topo_snoc; [done|]. intros y Hy. apply Hall.
      rewrite <- Hlist. by apply (edge_deps_list _ _ _ Hf).
  - exists (new ++ [cur]). split; [by rewrite Hnew, app_assoc|].
    intros x [?|Hx%list_elem_of_singleton]%elem_of_app; subst; auto. done.
  - intros s. unfold in_progress at 1. simpl. split.
    + intros [Hs1 Hs2]. rewrite not_elem_of_app in Hs2. destruct Hs2 as [Hs2 Hs3].
      destruct (proj1 (Hip1 s) (proj1 (Hip2 s) (conj Hs1 Hs2))) as [?| ->]; [done|].
      exfalso. apply Hs3. by left.
    + intros Hs. assert (in_progress st2 s) as [? ?] by (apply Hip2, Hip1; by left).
      split; [done|]. rewrite not_elem_of_app. split; [done|].
      intros Hx%list_elem_of_singleton. subst. by destruct Hs.
  - apply elem_of_app. right. by left.
  - intros _. by rewrite last_snoc.
Qed.

Lemma resolve_top id :
  is_Some (lookup_feature features id) →
  ∃ st, resolve (S (length features)) features id
          {| r_visited := ∅; resolved := [] |} = Some (Ok st) ∧
    NoDup (resolved st) ∧
    (∀ x, x ∈ resolved st ↔ rtc E id x) ∧
    last (resolved st) = Some id ∧
    (∀ x y i j, tc E x y →
       resolved st !! i = Some x → resolved st !! j = Some y → j < i).
Proof.
  intros Hid. set (st0 := {| r_visited := ∅; resolved := [] |}).
  destruct (resolve_fuel (S (length features)) id st0) as [r Hrun].
  { pose proof (unvisited_bound ∅). simpl. lia. }
  destruct (resolve_correct _ _ _ _ Hrun)
    as (st & -> & (Hnd & _ & Htopo) & (new & Hnew & Hreach) & _ & Hin & Hlast).
  { split_and!; [done | | ].
    - split_and!; simpl; [constructor | by intros ? ?%elem_of_nil |].
      by intros i x ?.
    - intros s [Hs _]. simpl in Hs. set_solver. }
  exists st. split; [done|].
  split_and!; [done | | |].
  - intros x. split.
    + rewrite Hnew. simpl. apply Hreach.
    + intros Hx. eapply (rtc_closed (λ z, z ∈ resolved st)); [|done..].
      intros a b ? ?. by eapply topo_closed.
  - apply Hlast. simpl. set_solver.
  - intros x y i j Hxy. by eapply topo_order.
Qed.

End Resolve.

End Graph.

Lemma validateRegistry_total registry : is_Some (validateRegistry registry).
Proof.
  unfold validateRegistry. destruct (reg_version registry) as [[|? ?]|]; eauto.
  destruct (reg_features registry) as [features|]; eauto.
  destruct (validateFeatures features); eauto.
  apply checkCircularDependencies_total.
Qed.

Lemma validateFeature_ok id f :
  validateFeature id f = Ok tt ↔ feature_complete f.
Proof.
  unfold validateFeature, feature_complete. split.
  - destruct (f_name f), (f_description f), (f_version f),
      (f_dependencies f), (f_category f); try done.
    intros _. split_and!; eauto.
  - intros ([? ->] & [? ->] & [? ->] & [? ->] & [? ->]). done.
Qed.

Lemma validateFeatures_ok entries :
  validateFeatures entries = Ok tt ↔
  ∀ id f, (id, f) ∈ entries → feature_complete f.
Proof.
  induction entries as [|[id f] l IH]; simpl.
  - split; [|done]. by intros _ ? ? ?%elem_of_nil.
  - destruct (validateFeature id f) as [[]|e] eqn:Hv.
    + apply validateFeature_ok in Hv. rewrite IH. split.
      * intros Hl id' f' [[= -> ->]|?]%elem_of_cons; eauto.
      * intros Hl id' f' ?. apply (Hl id'). by right.
    + split; [done|]. intros Hl. exfalso.
      assert (validateFeature id f = Ok tt) as Hok
        by (apply validateFeature_ok, (Hl id); left).
      congruence.
Qed.

Lemma validateFeatures_err entries e :
  validateFeatures entries = Err e →
  (∃ id field, e = MissingField id field) ∨ (∃ id, e = DependenciesNotArray id).
Proof.
  induction entries as [|[id f] l IH]; simpl; [done|].
  destruct (validateFeature id f) as [[]|e'] eqn:Hv; [done|].
  intros [= <-]. unfold validateFeature in Hv.
  repeat (case_match; simplify_eq; eauto).
Qed.

Lemma validateRegistry_ok registry :
  validateRegistry registry = Some (Ok tt) →
  ∃ features, reg_features registry = Some features ∧
    (∀ id f, (id, f) ∈ features → feature_complete f) ∧
    deps_known features ∧ ¬ has_cycle features.
Proof.
  unfold validateRegistry. destruct (reg_version registry) as [[|? ?]|]; try done.
  destruct (reg_features registry) as [features|]; [|done].
  destruct (validateFeatures features) as [[]|] eqn:Hv; [|done].
  intros [? ?]%checkCircularDependencies_ok. exists features.
  split_and!; [done | by apply validateFeatures_ok | done..].
Qed.

Lemma validateRegistry_err registry e :
  validateRegistry registry = Some (Err e) →
  is_Some (reg_version registry) → reg_version registry ≠ Some "" →
  (∀ id f, (id, f) ∈ registry_features registry → feature_complete f) →
  deps_known (registry_features registry) →
  is_Some (reg_features registry) →
  ∃ x, e = CircularDependency x ∧ on_cycle (registry_features registry) x.
Proof.
  unfold validateRegistry, registry_features.
  destruct (reg_version registry) as [[|? ?]|]; [done| |by intros _ [? ?]].
  destruct (reg_features registry) as [features|]; [|by intros _ _ _ _ _ [? ?]].
  simpl. intros Hrun _ _ Hcomplete Hknown _.
  pose proof Hcomplete as Hall.
  apply validateFeatures_ok in Hcomplete. rewrite Hcomplete in Hrun.
  apply checkCircularDependencies_err in Hrun.
  destruct e; try done.
  - destruct Hrun as [Hedge Hnone]. apply Hknown in Hedge as [? ?]. congruence.
  - eauto.
  - destruct Hrun as (x & f & Htrav & Hget & Hno). exfalso.
    assert (is_Some (lookup_feature features x)) as [f' Hf'].
    { destruct Htrav as [?|[y Hy]]; [done | by eapply Hknown]. }
    rewrite (features_get_own _ _ _ Hf') in Hget. injection Hget as <-.
    destruct (Hall x f') as (_ & _ & _ & _ & ids & Hids);
      [by apply lookup_feature_entry|].
    by eapply Hno.
Qed.

(** On a registry that passes validation every own descriptor has its
    [dependencies] array. *)
Lemma complete_arrays (features : Features) :
  (∀ id f, (id, f) ∈ features → feature_complete f) →
  ∀ id f, lookup_feature features id = Some f →
          ∃ ids, f_dependencies f = DepsArray ids.
Proof.
  intros Hall id f Hf%lookup_feature_entry.
  by destruct (Hall id f Hf) as (_ & _ & _ & _ & ?).
Qed.

End RegistryFacts.

(** * Theorems about the registry *)

Module RegistryTheorems.
Import Registry RegistryFacts.

(** C1, at a failing input. The registry a, b -> a, c -> b passes
    validation and has no feature [constructor]. [resolveDependencies]
    finds the member that every object inherits under that name, takes it
    for a descriptor, and throws the [TypeError] of the loop over its
    missing [dependencies]; the not-found error is thrown only for a name
    such as [d] that is no inherited member either. *)
Lemma resolveDependencies_inherited_name :
  validateRegistry abc = Some (Ok tt) ∧
  lookup_feature (registry_features abc) "constructor" = None ∧
  resolveDependencies abc "constructor" =
    Some (Err (NotIterable "currentFeature.dependencies")) ∧
  resolveDependencies abc "d" = Some (Err (FeatureNotFound "d")).
Proof. by vm_compute. Qed.

(** X23. On a registry that passes validation (so its dependency graph is
    closed and acyclic), [resolveDependencies id] for a key [id] returns a
    duplicate-free list holding exactly the features reachable from [id]
    through declared dependencies, ending with [id], in which every
    (transitive) dependency of an element stands at a smaller index. For an
    [id] that is no key it throws: the not-found error, unless [id] names a
    member of [Object.prototype], when it is the [TypeError] of the loop. On
    the registry a, b -> a, c -> b the answer for c is a, b, c. *)
Theorem resolveDependencies_closure :
  resolveDependencies abc "c" = Some (Ok ["a"; "b"; "c"]) ∧
  ∀ registry id,
    validateRegistry registry = Some (Ok tt) →
    let features := registry_features registry in
    match lookup_feature features id with
    | Some _ =>
        ∃ l, resolveDependencies registry id = Some (Ok l) ∧
          NoDup l ∧
          (∀ x, x ∈ l ↔ rtc (edge features) id x) ∧
          last l = Some id ∧
          (∀ x y i j, tc (edge features) x y →
             l !! i = Some x → l !! j = Some y → j < i)
    | None =>
        resolveDependencies registry id =
        Some (Err (if decide (id ∈ object_prototype)
                   then NotIterable "currentFeature.dependencies"
                   else FeatureNotFound id))
    end.
Proof.
  split; [by vm_compute|].
  intros registry id Hvalid features.
  destruct (validateRegistry_ok _ Hvalid) as (fs & Hfs & Hall & Hknown & Hacyc).
  assert (features = fs) as Hfeat
    by (unfold features, registry_features; by rewrite Hfs).
  unfold resolveDependencies, loadRegistry. rewrite Hvalid.
  fold features. rewrite Hfeat.
  destruct (lookup_feature fs id) as [f|] eqn:Hf.
  - rewrite (features_get_own _ _ _ Hf).
    destruct (resolve_top fs Hknown Hacyc (complete_arrays fs Hall) id)
      as (st & -> & ? & ? & ? & ?); [eauto|].
    exists (resolved st). by split_and!.
  - unfold features_get. rewrite Hf. case_decide as Hid; [|done].
    simpl. rewrite decide_False by set_solver.
    unfold features_get. rewrite Hf, decide_True by done. done.
Qed.

Lemma resolveDependencies_closure_witness :
  validateRegistry abc = Some (Ok tt) ∧
  ∃ l, resolveDependencies abc "b" = Some (Ok l) ∧ NoDup l ∧ last l = Some "b".
Proof.
  split; [by vm_compute|].
  destruct resolveDependencies_closure as [_ H].
  specialize (H abc "b" ltac:(by vm_compute)). simpl in H.
  destruct H as (l & ? & ? & _ & ? & _). by exists l.
Defined.

(** C3, as stated, fails: a registry with a cycle and an unknown dependency
    is rejected with the unknown-dependency error, which names no feature of
    the cycle. *)
Lemma validateRegistry_cycle_counterexample :
  has_cycle (registry_features cyclic_and_unknown) ∧
  ∃ e, validateRegistry cyclic_and_unknown = Some (Err e) ∧
    ∀ x, x ∈ error_features e → ¬ on_cycle (registry_features cyclic_and_unknown) x.
Proof.
  split.
  - exists "b". apply tc_once. unfold edge. vm_compute. left.
  - exists (UnknownDependency "a" "zzz"). split; [by vm_compute|].
    assert (∀ y, ¬ edge (registry_features cyclic_and_unknown) "zzz" y) as Hz.
    { intros y Hy. unfold edge in Hy. vm_compute in Hy. by apply elem_of_nil in Hy. }
    assert (∀ y, edge (registry_features cyclic_and_unknown) "a" y → y = "zzz") as Ha.
    { intros y Hy. unfold edge in Hy. vm_compute in Hy.
      by apply list_elem_of_singleton in Hy. }
    intros x Hx Hcyc. simpl in Hx.
    apply elem_of_cons in Hx as [->|Hx].
    + inversion Hcyc as [? ? Hstep|? y ? Hstep Hrest]; subst.
      * by apply Ha in Hstep.
      * apply Ha in Hstep as ->. inversion Hrest; subst; by eapply Hz.
    + apply list_elem_of_singleton in Hx as ->.
      inversion Hcyc; subst; by eapply Hz.
Qed.

(** C3, amended. A registry whose dependency graph has a cycle, or that has
    a descriptor lacking a required member, or that declares a dependency
    which is no key, fails validation. When the registry has a version, all
    descriptors are complete and all declared dependencies are keys, the error
    of a cyclic registry is the circular-dependency error and the feature it
    names lies on a cycle. *)
Theorem validateRegistry_rejects registry :
  has_cycle (registry_features registry) ∨
  (∃ id f, (id, f) ∈ registry_features registry ∧ ¬ feature_complete f) ∨
  ¬ deps_known (registry_features registry) →
  ∃ e, validateRegistry registry = Some (Err e) ∧
    (is_Some (reg_version registry) → reg_version registry ≠ Some "" →
     (∀ id f, (id, f) ∈ registry_features registry → feature_complete f) →
     deps_known (registry_features registry) →
     ∃ x, e = CircularDependency x ∧ x ∈ error_features e ∧
          on_cycle (registry_features registry) x).
Proof.
  intros Hbad.
  destruct (validateRegistry_total registry) as [[[]|e] Hrun].
  - exfalso. destruct (validateRegistry_ok _ Hrun) as (fs & Hfs & Hc & Hk & Ha).
    unfold registry_features in Hbad. rewrite Hfs in Hbad. simpl in Hbad.
    destruct Hbad as [?|[(id & f & ? & Hn)|?]]; [done | | done].
    by apply Hn, (Hc id).
  - exists e. split; [done|]. intros Hv Hv' Hc Hk.
    destruct (reg_features registry) as [fs|] eqn:Hfs.
    + destruct (validateRegistry_err _ _ Hrun) as (x & -> & ?);
        [done | done | done | done | by rewrite Hfs |].
      exists x. split_and!; [done | by left | done].
    + exfalso. unfold registry_features in Hbad. rewrite Hfs in Hbad.
      simpl in Hbad. destruct Hbad as [[x Hx]|[(id & f & Hin & _)|Hn]].
      * inversion Hx as [? ? Hstep|? ? ? Hstep _]; by apply elem_of_nil in Hstep.
      * by apply elem_of_nil in Hin.
      * apply Hn. intros x y Hxy. by apply elem_of_nil in Hxy.
Qed.

Lemma validateRegistry_rejects_witness :
  has_cycle (registry_features self_loop) ∧
  ∃ e, validateRegistry self_loop = Some (Err e) ∧
       e = CircularDependency "a".
Proof.
  assert (has_cycle (registry_features self_loop)) as Hc.
  { exists "a". apply tc_once. unfold edge. vm_compute. left. }
  split; [done|].
  destruct (validateRegistry_rejects self_loop (or_introl Hc)) as (e & Hrun & _).
  exists e. split; [done|]. vm_compute in Hrun. congruence.
Defined.

End RegistryTheorems.

(** * Facts about the installer *)

Module InstallerFacts.
Import Registry Installer.

(** ** Strings and paths *)

Section Strings.
Local Arguments String.append !_ _ / : simpl nomatch.

Lemma append_nil_r (s : string) : s +:+ "" = s.
Proof. induction s as [|c s IH]; simpl; [done | by f_equal]. Qed.

Lemma append_assoc (a b c : string) : (a +:+ b) +:+ c = a +:+ (b +:+ c).
Proof. induction a as [|x a IH]; simpl; [done | by f_equal]. Qed.

Lemma length_append (a b : string) :
  String.length (a +:+ b) = String.length a + String.length b.
Proof. induction a as [|x a IH]; simpl; [done | by f_equal]. Qed.

Lemma prefix_append (a b : string) : String.prefix a (a +:+ b) = true.
Proof.
  induction a as [|x a IH]; simpl; [by destruct b|].
  destruct (ascii_dec x x); [done | congruence].
Qed.

Lemma includes_prefix (s sub : string) :
  String.prefix sub s = true → includes s sub = true.
Proof. destruct s; simpl; by intros ->. Qed.

(** A text that holds [sub] somewhere includes it. *)
Lemma includes_append (a sub b : string) : includes (a +:+ sub +:+ b) sub = true.
Proof.
  induction a as [|x a IH]; simpl.
  - apply includes_prefix, prefix_append.
  - rewrite IH. apply orb_true_r.
Qed.

Lemma strip_suffix_append (b e : string) : strip_suffix (b +:+ e) e = Some b.
Proof.
  induction b as [|x b IH]; simpl.
  - destruct e; simpl; [done | by rewrite decide_True].
  - rewrite decide_False.
    + by rewrite IH.
    + intros Heq. apply (f_equal String.length) in Heq. simpl in Heq.
      rewrite length_append in Heq. lia.
Qed.

Lemma last_dot_suffix_split (s e : string) :
  last_dot_suffix s = Some e → ∃ b, s = b +:+ e ∧ e ≠ "".
Proof.
  revert e. induction s as [|c s IH]; intros e; simpl; [done|].
  destruct (last_dot_suffix s) as [e'|].
  - intros [= <-]. destruct (IH e' eq_refl) as (b & -> & ?).
    by exists (String c b).
  - case_decide; [|done]. intros [= <-]. by exists "".
Qed.

(** The stem and the extension of a file name make up the name. *)
Lemma stem_extension (dir : Path) (name : string) :
  basename_ext (dir ++ [name]) (extname (dir ++ [name])) +:+
    extname (dir ++ [name]) = name.
Proof.
  unfold basename_ext, extname, basename. rewrite last_snoc. simpl.
  destruct (extname_seg name) as [|a e] eqn:Hext.
  { apply append_nil_r. }
  unfold extname_seg in Hext. destruct name as [|c rest]; [done|].
  destruct (last_dot_suffix rest) as [e'|] eqn:Hdot; [|done].
  case_decide; [done|]. subst e'.
  destruct (last_dot_suffix_split _ _ Hdot) as (b & -> & _).
  change (String c (b +:+ String a e)) with (String c b +:+ String a e).
  by rewrite strip_suffix_append.
Qed.

End Strings.

Lemma basename_snoc (dir : Path) (name : string) : basename (dir ++ [name]) = name.
Proof. unfold basename. by rewrite last_snoc. Qed.

Lemma dirname_snoc (dir : Path) (name : string) : dirname (dir ++ [name]) = dir.
Proof.
  unfold dirname. rewrite length_app. simpl.
  replace (length dir + 1 - 1) with (length dir) by lia.
  by rewrite take_app_length.
Qed.

(** What [applyFilePrefix] does to a file below [dir]. *)
Lemma applyFilePrefix_snoc (dir : Path) (name : string) config :
  applyFilePrefix (dir ++ [name]) config =
  dir ++ [default "" (filePrefix config) +:+ name].
Proof.
  unfold applyFilePrefix. destruct (filePrefix config) as [[|c pre]|]; try done.
  cbn [default]. rewrite dirname_snoc, append_assoc, stem_extension. done.
Qed.

(** ** The monad *)

Lemma any_I {A} (a : A) : any a.
Proof. exact I. Qed.
Local Hint Resolve any_I : core.

Lemma sat_ret {A} R (P : A → Prop) a :
  Reflexive R → P a → sat R P (mret a).
Proof. intros ? ? st r st' [= <- <-]. done. Qed.

Lemma sat_bind {A B} R (P : A → Prop) (Q : B → Prop) (m : M A) (f : A → M B) :
  Transitive R → sat R P m → (∀ a, P a → sat R Q (f a)) → sat R Q (m ≫= f).
Proof.
  intros ? Hm Hf st r st'. unfold mbind, M_bind.
  destruct (m st) as [[a|e] st1] eqn:Hrun; destruct (Hm _ _ _ Hrun) as [HR HP].
  - intros Hf'. destruct (Hf a HP _ _ _ Hf') as [? ?]. split; [by etrans | done].
  - by intros [= <- <-].
Qed.

Lemma sat_try_catch R (m : M unit) (h : InstallError → M unit) :
  Transitive R → sat R any m → (∀ e, sat R any (h e)) → sat R any (try_catch m h).
Proof.
  intros ? Hm Hh st r st'. unfold try_catch.
  destruct (m st) as [[a|e] st1] eqn:Hrun; destruct (Hm _ _ _ Hrun) as [HR _].
  - by intros [= <- <-].
  - intros Hh'. destruct (Hh e _ _ _ Hh') as [? ?]. split; [by etrans | done].
Qed.

Lemma try_catch_ok (m : M unit) (h : InstallError → M unit) st :
  (∀ e s, (h e s).1 = Ok tt) → (try_catch m h st).1 = Ok tt.
Proof.
  intros Hh. unfold try_catch. destruct (m st) as [[[]|e] st']; [done | apply Hh].
Qed.

Lemma sat_for_each {A} R (body : A → M unit) (l : list A) :
  PreOrder R → (∀ x, x ∈ l → sat R any (body x)) → sat R any (for_each body l).
Proof.
  intros ?. induction l as [|x l IH]; intros Hbody; simpl.
  - apply sat_ret; [apply _ | done].
  - eapply sat_bind; [apply _ | apply Hbody; left |].
    intros _ _. apply IH. intros y ?. apply Hbody. by right.
Qed.

(** The assignment of a record touches no other key, and stores the record
    under every key but [__proto__]. *)
Lemma lookup_assign_record_ne featureId record installed g :
  g ≠ featureId →
  assign_record featureId record installed !! g = installed !! g.
Proof.
  intros ?. unfold assign_record. case_decide; [done|].
  by rewrite lookup_insert_ne.
Qed.

Lemma lookup_assign_record featureId record installed :
  featureId ≠ "__proto__" →
  assign_record featureId record installed !! featureId = Some record.
Proof.
  intros ?. unfold assign_record. rewrite decide_False by (by intros [? _]).
  by rewrite lookup_insert_eq.
Qed.

(** Reading the seed artifact changes nothing; it throws exactly when the
    file exists and cannot be read. *)
Lemma read_existing_seed_run p st :
  read_existing_seed p st =
  (if fileExists p (st_world st) &&
      bool_decide (p ∈ fs_unreadable (st_world st))
   then Err (ReadFailed p)
   else Ok (default "" (fs_files (st_world st) !! p)), st).
Proof.
  destruct st as [w c i k e]. unfold read_existing_seed, mbind, M_bind,
    get_world, on_world, readProjectFile, fileExists. simpl.
  case_bool_decide as Hex; simpl.
  - case_decide.
    + by rewrite bool_decide_eq_true_2.
    + by rewrite bool_decide_eq_false_2.
  - destruct (fs_files w !! p) eqn:Hp; [|done]. destruct Hex. by eauto.
Qed.

Lemma read_seed_run st :
  read_existing_seed getSeedPath st =
  (if decide (seed_read_fails (st_world st))
   then Err (ReadFailed getSeedPath)
   else Ok (seed_text (st_world st)), st).
Proof.
  rewrite read_existing_seed_run. unfold fileExists, seed_read_fails.
  case_decide as Hfails.
  - destruct Hfails as [Hex Hun].
    by rewrite (bool_decide_eq_true_2 _ Hex), (bool_decide_eq_true_2 _ Hun).
  - destruct (_ && _) eqn:Hb; [|done]. destruct Hfails.
    apply andb_true_iff in Hb as [Hex Hun].
    by split; eapply bool_decide_eq_true_1.
Qed.

Lemma sat_read_existing_seed R p :
  Reflexive R → sat R any (read_existing_seed p).
Proof.
  intros ? st r st'. rewrite read_existing_seed_run. intros [= <- <-].
  split; [reflexivity|]. by destruct (_ && _).
Qed.

Lemma sat_weaken {A} (R R' : relation InstallState) (P P' : A → Prop) m :
  (∀ st st', R st st' → R' st st') → (∀ a, P a → P' a) →
  sat R P m → sat R' P' m.
Proof.
  intros HR HP Hm st r st' Hrun. destruct (Hm _ _ _ Hrun) as [? ?].
  split; [auto|]. destruct r; auto.
Qed.

(** ** Effects *)

Global Instance world_step_preorder Qw Fc : PreOrder (world_step Qw Fc).
Proof.
  split.
  - intros w. split; try done. exists []. by rewrite app_nil_r.
  - intros w1 w2 w3 [(c1 & Hc1 & ?) Hf1 Hk1 ? ? ? ?] [(c2 & Hc2 & ?) Hf2 Hk2 ? ? ? ?].
    split; try congruence.
    + exists (c1 ++ c2). split; [by rewrite Hc2, Hc1, app_assoc|].
      by apply Forall_app.
    + intros p Hp. by rewrite Hf2, Hf1.
    + auto.
Qed.

Global Instance effect_preorder Fi Fs Qw Fc Qc : PreOrder (effect Fi Fs Qw Fc Qc).
Proof.
  split.
  - intros st. split; try done; try (exists []; by rewrite app_nil_r).
  - intros s1 s2 s3 [(i1 & Hi1 & ?) (k1 & Hk1 & ?) (e1 & He1) Hw1 Hr1 [? ?]]
      [(i2 & Hi2 & ?) (k2 & Hk2 & ?) (e2 & He2) Hw2 Hr2 [? ?]].
    split.
    + exists (i1 ++ i2). split; [by rewrite Hi2, Hi1, app_assoc|].
      by apply Forall_app.
    + exists (k1 ++ k2). split; [by rewrite Hk2, Hk1, app_assoc|].
      by apply Forall_app.
    + exists (e1 ++ e2). by rewrite He2, He1, app_assoc.
    + by etrans.
    + intros g Hg. by rewrite Hr2, Hr1.
    + split; congruence.
Qed.

Lemma world_step_weaken (Qw Qw' : Path → Prop) (Fc Fc' : CliCall → Prop) w w' :
  (∀ p, Qw p → Qw' p) → (∀ c, Fc c → Fc' c) →
  world_step Qw Fc w w' → world_step Qw' Fc' w w'.
Proof.
  intros HQ HF [(c & ? & Hc) Hf ? ? ? ? ?]. split; try done.
  - exists c. split; [done|]. eapply Forall_impl; eauto.
  - intros p Hp. apply Hf. auto.
Qed.

Lemma effect_weaken (Fi Fi' Fs Fs' Qw Qw' : Path → Prop)
    (Fc Fc' : CliCall → Prop) (Qc Qc' : string → Prop) st st' :
  (∀ p, Fi p → Fi' p) → (∀ p, Fs p → Fs' p) → (∀ p, Qw p → Qw' p) →
  (∀ c, Fc c → Fc' c) → (∀ g, Qc g → Qc' g) →
  effect Fi Fs Qw Fc Qc st st' → effect Fi' Fs' Qw' Fc' Qc' st st'.
Proof.
  intros HFi HFs HQw HFc HQc [(i & ? & Hi) (k & ? & Hk) ? Hw Hr ?].
  split; try done.
  - exists i. split; [done|]. eapply Forall_impl; eauto.
  - exists k. split; [done|]. eapply Forall_impl; eauto.
  - by eapply world_step_weaken.
  - intros g Hg. apply Hr. auto.
Qed.

Section Primitives.
Context (Fi Fs Qw : Path → Prop) (Fc : CliCall → Prop) (Qc : string → Prop).
Local Abbreviation R := (effect Fi Fs Qw Fc Qc).

Lemma sat_on_world {A} (f : World → Result InstallError A * World)
    (P : A → Prop) :
  (∀ w r w', f w = (r, w') →
     world_step Qw Fc w w' ∧ match r with Ok a => P a | Err _ => True end) →
  sat R P (on_world f).
Proof.
  intros Hf st r st'. unfold on_world.
  destruct (f (st_world st)) as [r' w'] eqn:Hrun. intros [= <- <-].
  destruct (Hf _ _ _ Hrun) as [? ?]. split; [|done].
  split; simpl; try done; exists []; by rewrite app_nil_r.
Qed.

Lemma sat_get_world : sat R any get_world.
Proof. intros st r st' [= <- <-]. split; [reflexivity | done]. Qed.

Lemma sat_push_installed p : Fi p → sat R any (push_installed p).
Proof.
  intros ? st r st' [= <- <-]. split; [|done].
  split; simpl; try done; try (exists []; by rewrite app_nil_r).
  exists [p]. split; [done|]. by constructor.
Qed.

Lemma sat_push_skipped p : Fs p → sat R any (push_skipped p).
Proof.
  intros ? st r st' [= <- <-]. split; [|done].
  split; simpl; try done; try (exists []; by rewrite app_nil_r).
  exists [p]. split; [done|]. by constructor.
Qed.

Lemma sat_push_error e : sat R any (push_error e).
Proof.
  intros st r st' [= <- <-]. split; [|done].
  split; simpl; try done; try (exists []; by rewrite app_nil_r).
  by exists [e].
Qed.

Lemma step_mkdirs p w : world_step Qw Fc w (w_mkdirs p w).
Proof. split; simpl; try done. exists []. by rewrite app_nil_r. Qed.

Lemma step_put p content w : Qw p → world_step Qw Fc w (w_put p content w).
Proof.
  intros Hp. split; simpl; try done.
  - exists []. by rewrite app_nil_r.
  - intros q Hq. rewrite lookup_insert_ne; [done|]. by intros ->.
  - intros q Hq. rewrite lookup_insert. case_decide; eauto.
Qed.

Lemma step_log c w : Fc c → world_step Qw Fc w (w_log c w).
Proof. intros ?. split; simpl; try done. exists [c]. split; [done|]. by constructor. Qed.

Lemma step_tick w : world_step Qw Fc w (w_tick w).
Proof. split; simpl; try done. exists []. by rewrite app_nil_r. Qed.

Lemma step_mkdir p w : world_step Qw Fc w (w_mkdir p w).
Proof. split; simpl; try done. exists []. by rewrite app_nil_r. Qed.

Lemma step_save config w : world_step Qw Fc w (w_save config w).
Proof. split; simpl; try done. exists []. by rewrite app_nil_r. Qed.

Lemma sat_copyFile src dest : Qw dest → sat R any (on_world (copyFile src dest)).
Proof.
  intros Hd. apply sat_on_world. intros w r w'. unfold copyFile.
  destruct (tf_content src) as [c|]; [case_decide|]; intros [= <- <-];
    (split; [|done]).
  - apply step_mkdirs.
  - etrans; [apply (step_mkdirs dest) | by apply step_put].
  - apply step_mkdirs.
Qed.

Lemma sat_writeFile dest content :
  Qw dest → sat R any (on_world (writeFile dest content)).
Proof.
  intros Hd. apply sat_on_world. intros w r w'. unfold writeFile.
  case_decide; intros [= <- <-]; (split; [|done]).
  - apply step_mkdirs.
  - etrans; [apply (step_mkdirs dest) | by apply step_put].
Qed.

Lemma sat_readFile src :
  sat R (λ content, tf_content src = Some content) (on_world (readFile src)).
Proof.
  apply sat_on_world. intros w r w'. unfold readFile.
  destruct (tf_content src); intros [= <- <-]; (split; [reflexivity | done]).
Qed.

Lemma sat_createMigration name :
  (∀ file, Qw (getMigrationsPath ++ [file])) →
  (∀ created, Fc (MigrationNew name created)) →
  sat R (λ file, ∃ n : nat, file = pretty n +:+ "_" +:+ name +:+ ".sql")
    (on_world (createMigration name)).
Proof.
  intros HQ HF. apply sat_on_world. intros w r w'. unfold createMigration.
  case_decide; [|destruct (fileExists _ w)]; intros [= <- <-].
  - split; [|done]. by apply step_log.
  - split; [|done]. etrans; [by apply step_log | apply step_tick].
  - split; [|eauto]. etrans; [by apply step_log|].
    etrans; [apply step_tick|]. etrans; [apply step_mkdirs|]. apply step_put, HQ.
Qed.

Lemma sat_createFunction name :
  Qw ((getFunctionsPath ++ [name]) ++ ["index.ts"]) →
  (∀ created, Fc (FunctionsNew name created)) →
  sat R any (on_world (createFunction name)).
Proof.
  intros HQ HF. apply sat_on_world. intros w r w'. unfold createFunction.
  case_decide; intros [= <- <-]; (split; [|done]).
  - by apply step_log.
  - etrans; [by apply step_log|]. etrans; [apply step_mkdirs|].
    etrans; [apply step_mkdir|]. apply step_put, HQ.
Qed.

End Primitives.

(** ** What each stage may do *)

Lemma has_action_resolution res p a :
  has_action (find_resolution res p) a = bool_decide (resolution_of res p = Some a).
Proof.
  unfold resolution_of, has_action.
  by destruct (find_resolution res p) as [c|].
Qed.

Lemma applyPrefix_name config (name : string) :
  applyPrefix config [name] = [default "" (filePrefix config) +:+ name].
Proof. apply (applyFilePrefix_snoc [] name). Qed.

Lemma render_applyPrefix config (name : string) :
  [render (applyPrefix config [name])] = applyPrefix config [name].
Proof. by rewrite applyPrefix_name. Qed.

Section Stages.
Context (registry : FeatureRegistry) (config : SupaBootstrapConfig)
  (res : list ConflictingFile).

Lemma installSchema_effect files t :
  t ∈ files →
  sat (effect (schema_installed_form config res files)
         (schema_skipped_form config res files)
         (schema_installed_form config res files) none none)
      any (installSchema config res t).
Proof.
  intros Ht. unfold installSchema. rewrite has_action_resolution.
  case_bool_decide as Hres.
  - apply sat_push_skipped. by exists t.
  - assert (schema_installed_form config res files (schema_target config t))
      by (by exists t).
    eapply sat_bind; [apply _ | by apply sat_copyFile |].
    intros _ _. by apply sat_push_installed.
Qed.

Lemma installSchemas_effect templates :
  sat (effect (schema_installed_form config res (schemas_of templates))
         (schema_skipped_form config res (schemas_of templates))
         (schema_installed_form config res (schemas_of templates)) none none)
      any (installSchemas config templates res).
Proof.
  unfold installSchemas, schemas_of.
  destruct (t_schemas templates) as [files|]; simpl.
  - apply sat_for_each; [apply _|]. intros t Ht. by apply installSchema_effect.
  - apply sat_ret; [apply _ | done].
Qed.

Lemma installMigration_effect files t :
  t ∈ files →
  sat (effect (migration_form config files) none is_migration_path
         (migration_call config files) none)
      any (installMigration config t).
Proof.
  intros Ht. unfold installMigration.
  apply sat_try_catch; [apply _ | | intros e; apply sat_push_error].
  eapply sat_bind; [apply _ | apply sat_readFile |]. intros content _.
  eapply sat_bind; [apply _ | apply sat_createMigration |].
  - intros file. by exists file.
  - intros created. by exists t, created.
  - intros file [n ->].
    eapply sat_bind; [apply _ | apply sat_writeFile |].
    + by eexists.
    + intros _ _. apply sat_push_installed. by exists t, n.
Qed.

Lemma installMigrations_effect templates :
  sat (effect (migration_form config (migrations_of templates)) none
         is_migration_path (migration_call config (migrations_of templates))
         none)
      any (installMigrations config templates).
Proof.
  unfold installMigrations, migrations_of.
  destruct (t_migrations templates) as [files|]; simpl.
  - apply sat_for_each; [apply _|]. intros t Ht. by apply installMigration_effect.
  - apply sat_ret; [apply _ | done].
Qed.

Lemma copyFunctionFile_effect fns fn t :
  fn ∈ fns → t ∈ fn_files fn →
  sat (effect (function_file_form config fns) (function_skipped_form config fns)
         (function_written_form config fns) (function_call config fns) none)
      any (copyFunctionFile (function_target config fn) t).
Proof.
  intros Hfn Ht. unfold copyFunctionFile.
  assert (function_file_form config fns (function_target config fn ++ tf_path t))
    by (by exists fn, t).
  eapply sat_bind; [apply _ | apply sat_copyFile; by left |].
  intros _ _. by apply sat_push_installed.
Qed.

Lemma installFunction_effect fns fn :
  fn ∈ fns →
  sat (effect (function_file_form config fns) (function_skipped_form config fns)
         (function_written_form config fns) (function_call config fns) none)
      any (installFunction config res fn).
Proof.
  intros Hfn. unfold installFunction.
  assert (function_skipped_form config fns (function_target config fn))
    by (by exists fn).
  apply sat_try_catch; [apply _ | | intros e; apply sat_push_error].
  fold (function_target config fn).
  destruct (has_action _ skip); [by apply sat_push_skipped|].
  eapply sat_bind; [apply _ | apply sat_get_world |]. intros w _.
  destruct (directoryExists _ w && negb _); [by apply sat_push_skipped|].
  eapply sat_bind with (P := any); [apply _ | |].
  - destruct (negb _ && negb _); [|apply sat_ret; [apply _ | done]].
    eapply sat_bind; [apply _ | apply sat_createFunction |].
    + right. exists fn. split; [done|]. unfold function_target.
      by rewrite render_applyPrefix.
    + intros created. by exists fn, created.
    + intros _ _. apply sat_ret; [apply _ | done].
  - intros _ _. apply sat_for_each; [apply _|]. intros t Ht.
    by apply copyFunctionFile_effect.
Qed.

Lemma installFunctions_effect templates :
  sat (effect (function_file_form config (functions_of templates))
         (function_skipped_form config (functions_of templates))
         (function_written_form config (functions_of templates))
         (function_call config (functions_of templates)) none)
      any (installFunctions config templates res).
Proof.
  unfold installFunctions, functions_of.
  destruct (t_functions templates) as [fns|]; simpl.
  - apply sat_for_each; [apply _|]. intros fn ?. by apply installFunction_effect.
  - apply sat_ret; [apply _ | done].
Qed.

Lemma collectSeeds_effect seedFiles seedContent :
  sat (effect (λ p, p = getSeedPath) none (λ p, p = getSeedPath) none none)
      any (collectSeeds seedFiles seedContent).
Proof.
  revert seedContent. induction seedFiles as [|f l IH]; intros acc; simpl.
  - apply sat_ret; [apply _ | done].
  - intros st r st' Hrun.
    pose proof (sat_readFile (λ p, p = getSeedPath) none (λ p, p = getSeedPath)
                  none none f) as Hr.
    destruct (on_world (readFile f) st) as [[content|e] st1] eqn:Hread;
      destruct (Hr _ _ _ Hread) as [? _].
    + destruct (IH _ _ _ _ Hrun) as [? ?]. split; [by etrans | done].
    + assert (sat (effect (λ p, p = getSeedPath) none (λ p, p = getSeedPath)
                     none none) any
                (push_error (SeedReadFailed (tf_path f) e);; collectSeeds l acc))
        as Hrest.
      { eapply sat_bind; [apply _ | apply sat_push_error | intros _ _; apply IH]. }
      destruct (Hrest _ _ _ Hrun) as [? ?]. split; [by etrans | done].
Qed.

Lemma installSeeds_effect featureId templates :
  sat (effect (λ p, p = getSeedPath) none (λ p, p = getSeedPath) none none)
      any (installSeeds featureId templates).
Proof.
  unfold installSeeds.
  destruct (t_seed templates) as [files|]; [|apply sat_ret; [apply _ | done]].
  destruct (filter _ files) as [|f l] eqn:Hfiles; [apply sat_ret; [apply _ | done]|].
  eapply sat_bind; [apply _ | apply sat_read_existing_seed; apply _ |].
  intros existing _.
  destruct (includes _ _); [apply sat_ret; [apply _ | done]|].
  eapply sat_bind; [apply _ | apply collectSeeds_effect |]. intros content _.
  apply sat_try_catch; [apply _ | | intros e; apply sat_push_error].
  eapply sat_bind; [apply _ | by apply sat_writeFile |].
  intros _ _. by apply sat_push_installed.
Qed.

Lemma updateInstalledFeatures_effect featureId :
  sat (effect none none none none (λ g, g = featureId))
      any (updateInstalledFeatures registry featureId).
Proof.
  intros st r st'. unfold updateInstalledFeatures.
  destruct (getFeature registry featureId) as [feature|].
  2:{ intros [= <- <-]. split; [reflexivity | done]. }
  unfold mbind, M_bind, set_config, on_world, saveConfig. simpl.
  destruct (config_unwritable (st_world st)) eqn:Hcu; intros [= <- <-];
    (split; [|done]); split; simpl; try done;
    try (exists []; by rewrite app_nil_r);
    try (intros g Hg; by rewrite lookup_assign_record_ne);
    try reflexivity.
  apply step_save.
Qed.

Lemma later_stages_effect package featureId :
  let templates := templates_of package featureId in
  sat (effect (λ p, migration_form config (migrations_of templates) p ∨
                    function_file_form config (functions_of templates) p ∨
                    p = getSeedPath)
         (function_skipped_form config (functions_of templates))
         (λ p, is_migration_path p ∨
               function_written_form config (functions_of templates) p ∨
               p = getSeedPath)
         (call_form config templates) none)
      any (later_stages package featureId config res).
Proof.
  intros templates. unfold later_stages. fold templates.
  eapply sat_bind; [apply _ | |intros _ _].
  { eapply sat_weaken; [|done|apply installMigrations_effect].
    intros st st'. apply effect_weaken; unfold call_form; by eauto. }
  eapply sat_bind; [apply _ | |intros _ _].
  { eapply sat_weaken; [|done|apply installFunctions_effect].
    intros st st'. apply effect_weaken; unfold call_form; by eauto. }
  eapply sat_weaken; [|done|apply installSeeds_effect].
  intros st st'. apply effect_weaken; unfold call_form; by eauto.
Qed.

Lemma artifact_stages_effect package featureId :
  let templates := templates_of package featureId in
  sat (effect (installed_form config res templates)
         (skipped_form config res templates)
         (written_form config res templates)
         (call_form config templates) none)
      any (artifact_stages package featureId config res).
Proof.
  intros templates. unfold artifact_stages. fold templates.
  eapply sat_bind; [apply _ | |intros _ _].
  { eapply sat_weaken; [|done|apply installSchemas_effect].
    intros st st'. apply effect_weaken; unfold installed_form, skipped_form,
      written_form, call_form; by eauto. }
  eapply sat_weaken; [|done|apply later_stages_effect].
  intros st st'. apply effect_weaken; unfold installed_form, skipped_form,
    written_form, call_form; fold templates; naive_solver.
Qed.

Lemma install_stages_effect package featureId :
  let templates := templates_of package featureId in
  sat (effect (installed_form config res templates)
         (skipped_form config res templates)
         (written_form config res templates)
         (call_form config templates) (λ g, g = featureId))
      any (install_stages registry package featureId config res).
Proof.
  intros templates. unfold install_stages.
  eapply sat_bind; [apply _ | |intros _ _].
  - eapply sat_weaken; [|done|apply artifact_stages_effect].
    intros st st'. apply effect_weaken; by eauto.
  - eapply sat_weaken; [|done|apply updateInstalledFeatures_effect].
    intros st st'. apply effect_weaken; by eauto.
Qed.

End Stages.

(** ** Shapes of the target paths *)

Lemma schema_target_shape config t :
  schema_target config t =
  sourceDir config ++ "schemas" ::
    tf_dir t ++ [default "" (filePrefix config) +:+ tf_name t].
Proof.
  unfold schema_target, getTargetPath, applyPrefix, tf_path, getSupabasePath.
  by rewrite applyFilePrefix_snoc.
Qed.

Lemma function_target_shape config fn :
  function_target config fn =
  ["supabase"; "functions"; default "" (filePrefix config) +:+ fn_name fn].
Proof. unfold function_target. by rewrite applyPrefix_name. Qed.

Lemma migration_name_shape config t :
  migration_name config t =
  default "" (filePrefix config) +:+ basename_ext (tf_path t) ".sql".
Proof. unfold migration_name. by rewrite applyPrefix_name. Qed.

Lemma schema_target_inj config t t' :
  schema_target config t = schema_target config t' → tf_path t = tf_path t'.
Proof.
  rewrite !schema_target_shape. intros Heq%app_inv_head. injection Heq as Heq.
  apply app_inj_tail in Heq as [Hd Hn]. apply (inj _) in Hn.
  unfold tf_path. by rewrite Hd, Hn.
Qed.

Lemma schema_not_migration config t file :
  schema_target config t ≠ getMigrationsPath ++ [file].
Proof.
  rewrite schema_target_shape. unfold getMigrationsPath.
  destruct (sourceDir config) as [|s1 [|s2 [|s3 sd]]]; simpl; try done.
  - destruct (tf_dir t); done.
  - destruct sd; done.
Qed.

Lemma schema_not_seed config t : schema_target config t ≠ getSeedPath.
Proof.
  rewrite schema_target_shape. unfold getSeedPath.
  destruct (sourceDir config) as [|s1 [|s2 [|s3 sd]]]; simpl; done.
Qed.


Lemma schema_not_function_file config t fn rel :
  ¬ getFunctionsPath `prefix_of` sourceDir config →
  schema_target config t ≠ function_target config fn ++ rel.
Proof.
  rewrite schema_target_shape, function_target_shape. intros Hsd.
  destruct (sourceDir config) as [|s1 [|s2 sd]]; simpl; try done.
  intros [= -> -> _]. apply Hsd. by exists sd.
Qed.

Lemma function_file_not_migration config fn rel file :
  function_target config fn ++ rel ≠ getMigrationsPath ++ [file].
Proof. by rewrite function_target_shape. Qed.

Lemma function_file_not_seed config fn rel :
  function_target config fn ++ rel ≠ getSeedPath.
Proof. by rewrite function_target_shape. Qed.

Lemma migration_not_seed file : getMigrationsPath ++ [file] ≠ getSeedPath.
Proof. done. Qed.

(** ** The schema stage when every copy succeeds *)

Lemma schema_loop_complete config res files st :
  schemas_copyable config res files (st_world st) →
  ∃ st1,
    for_each (installSchema config res) files st = (Ok tt, st1) ∧
    (∀ t, t ∈ files → resolution_of res (schema_target config t) = Some skip →
       schema_target config t ∈ st_skipped st1) ∧
    (∀ t, t ∈ files → resolution_of res (schema_target config t) ≠ Some skip →
       schema_target config t ∈ st_installed st1 ∧
       (NoDup (tf_path <$> files) →
        fs_files (st_world st1) !! schema_target config t = tf_content t)).
Proof.
  revert st. induction files as [|t l IH]; intros st Hc.
  { eexists. split; [done|]. split; by intros ? ?%elem_of_nil. }
  set (p := schema_target config t).
  assert (∃ sta,
    installSchema config res t st = (Ok tt, sta) ∧
    fs_unwritable (st_world sta) = fs_unwritable (st_world st) ∧
    (resolution_of res p = Some skip → p ∈ st_skipped sta) ∧
    (resolution_of res p ≠ Some skip →
     p ∈ st_installed sta ∧ fs_files (st_world sta) !! p = tf_content t))
    as (sta & Hstep & Hunw & Hskip & Hinst).
  { unfold installSchema. fold (schema_target config t). fold p.
    rewrite has_action_resolution. case_bool_decide as Hres.
    - eexists. split; [done|]. simpl. split_and!; [done | | done].
      intros _. apply elem_of_app. right. by left.
    - destruct (Hc t) as [[c Hcont] Hw]; [by left | done |].
      unfold mbind, M_bind, on_world, copyFile, push_installed.
      rewrite Hcont, decide_False by done.
      eexists. split; [done|]. simpl. split_and!; [done | done |].
      intros _. split; [apply elem_of_app; right; by left|].
      by rewrite lookup_insert_eq. }
  destruct (IH sta) as (st1 & Hrun & Hskips & Hinsts).
  { intros t' Ht' Hres. rewrite Hunw. apply Hc; [by right | done]. }
  pose proof (sat_for_each _ (installSchema config res) l
                (effect_preorder _ _ _ none none)
                (λ x Hx, installSchema_effect config res l x Hx) _ _ _ Hrun)
    as [[(i & Hi & _) (k & Hk & _) _ [_ Hfiles _ _ _ _ _] _ _] _].
  exists st1. simpl. unfold mbind, M_bind. rewrite Hstep. split; [done|]. split.
  - intros t' [->|Ht']%elem_of_cons Hres; [|by apply Hskips].
    rewrite Hk. apply elem_of_app. left. by apply Hskip.
  - intros t' [->|Ht']%elem_of_cons Hres.
    + destruct (Hinst Hres) as [Hin Hcont]. split.
      * rewrite Hi. apply elem_of_app. by left.
      * intros [Hnotin _]%NoDup_cons. rewrite Hfiles; [done|].
        intros (t'' & Ht'' & Heq & _). apply Hnotin.
        apply schema_target_inj in Heq. rewrite Heq.
        by apply list_elem_of_fmap_2.
    + destruct (Hinsts t' Ht' Hres) as [? Hcont]. split; [done|].
      intros [_ ?]%NoDup_cons. by apply Hcont.
Qed.

(** ** The function stage, case by case *)

Lemma copy_loop_exact target files st :
  copyable target files (st_world st) →
  ∃ st',
    for_each (copyFunctionFile target) files st = (Ok tt, st') ∧
    st_installed st' =
      st_installed st ++ ((λ t, target ++ tf_path t) <$> files) ∧
    st_skipped st' = st_skipped st ∧ st_errors st' = st_errors st ∧
    fs_files (st_world st') =
      copy_function_files target files (fs_files (st_world st)) ∧
    cli_calls (st_world st') = cli_calls (st_world st).
Proof.
  revert st. induction files as [|t l IH]; intros st Hc.
  - eexists. split; [done|]. simpl. by rewrite app_nil_r.
  - destruct (Hc t) as [[c Hcont] Hw]; [left|].
    set (dest := target ++ tf_path t).
    set (st1 := mkState (w_put dest c (w_mkdirs dest (st_world st)))
                  (st_config st) (st_installed st ++ [dest]) (st_skipped st)
                  (st_errors st)).
    assert (copyFunctionFile target t st = (Ok tt, st1)) as Hstep.
    { unfold copyFunctionFile, mbind, M_bind, on_world, copyFile, push_installed.
      fold dest. rewrite Hcont, decide_False by done. done. }
    destruct (IH st1) as (st' & Hrun & Hi & Hs & He & Hf & Hcalls).
    { intros t' Ht'. apply Hc. by right. }
    exists st'. simpl. unfold mbind, M_bind. rewrite Hstep.
    split; [done|]. rewrite Hi, Hs, He, Hf, Hcalls. simpl.
    rewrite Hcont. simpl. by rewrite <- app_assoc.
Qed.

(** Copying makes no scaffold request and skips nothing. *)
Lemma copy_loop_quiet target files st r st' :
  for_each (copyFunctionFile target) files st = (r, st') →
  cli_calls (st_world st') = cli_calls (st_world st) ∧
  st_skipped st' = st_skipped st.
Proof.
  intros Hrun.
  assert (sat (effect any none any none none) any
            (for_each (copyFunctionFile target) files)) as Hsat.
  { apply sat_for_each; [apply _|]. intros t _. unfold copyFunctionFile.
    eapply sat_bind; [apply _ | by apply sat_copyFile |].
    intros _ _. by apply sat_push_installed. }
  destruct (Hsat _ _ _ Hrun) as [[_ (k & -> & Hk) _ [(c & -> & Hc) _ _ _ _ _ _] _ _] _].
  destruct k as [|? ?]; [|by inversion Hk]. destruct c as [|? ?]; [|by inversion Hc].
  by rewrite !app_nil_r.
Qed.

Section FunctionCases.
Context (config : SupaBootstrapConfig) (res : list ConflictingFile)
  (fn : FunctionTemplate) (st : InstallState).
Local Abbreviation target := (function_target config fn).
Local Abbreviation handler :=
  (λ error, push_error (FunctionInstallFailed (fn_name fn) error)).

Lemma installFunction_skip :
  resolution_of res target = Some skip →
  installFunction config res fn st = push_skipped target st.
Proof.
  intros Hres. unfold installFunction, try_catch.
  fold (function_target config fn).
  by rewrite has_action_resolution, Hres.
Qed.

Lemma installFunction_keep :
  directoryExists target (st_world st) = true →
  resolution_of res target ≠ Some overwrite →
  installFunction config res fn st = push_skipped target st.
Proof.
  intros Hdir Hres. unfold installFunction, try_catch.
  fold (function_target config fn). rewrite !has_action_resolution.
  case_bool_decide; [done|].
  unfold mbind, M_bind, get_world. rewrite Hdir.
  by rewrite (bool_decide_eq_false_2 _ Hres).
Qed.

Lemma installFunction_overwrite :
  resolution_of res target = Some overwrite →
  installFunction config res fn st =
  try_catch (for_each (copyFunctionFile target) (fn_files fn)) handler st.
Proof.
  intros Hres. unfold installFunction, try_catch.
  fold (function_target config fn). rewrite !has_action_resolution, Hres.
  simpl. unfold mbind, M_bind, get_world. by rewrite !andb_false_r.
Qed.

Lemma installFunction_scaffold :
  directoryExists target (st_world st) = false →
  resolution_of res target = None →
  installFunction config res fn st =
  try_catch
    (on_world (createFunction (render (applyPrefix config [fn_name fn])));;
     for_each (copyFunctionFile target) (fn_files fn)) handler st.
Proof.
  intros Hdir Hres. unfold installFunction, try_catch.
  fold (function_target config fn). rewrite !has_action_resolution, Hres.
  simpl. unfold mbind, M_bind, get_world. rewrite Hdir. simpl.
  by destruct (on_world _ st) as [[?|?] ?].
Qed.

End FunctionCases.

(** ** Recorded paths of different kinds never coincide *)



(** ** Migrations are always new *)

Lemma created_migrations_app calls1 calls2 :
  created_migrations (calls1 ++ calls2) =
  created_migrations calls1 ++ created_migrations calls2.
Proof. apply omap_app. Qed.

Global Instance migrations_fresh_preorder : PreOrder migrations_fresh.
Proof.
  split.
  - intros w. exists []. rewrite app_nil_r. split_and!; try done.
    + constructor.
    + by intros ? ?%elem_of_nil.
  - intros w1 w2 w3 (c1 & Hc1 & Hnd1 & Hnew1 & Hkept1 & Hmig1)
      (c2 & Hc2 & Hnd2 & Hnew2 & Hkept2 & Hmig2).
    exists (c1 ++ c2). rewrite created_migrations_app. split_and!.
    + by rewrite Hc2, Hc1, app_assoc.
    + apply NoDup_app. split_and!; [done | | done].
      intros file [_ Hin]%Hnew1 [Hout _]%Hnew2. rewrite Hout in Hin.
      by destruct Hin.
    + intros file [Hin|Hin]%elem_of_app.
      * destruct (Hnew1 file Hin) as [? ?]. split; [done | auto].
      * destruct (Hnew2 file Hin) as [Hnone ?]. split; [|done].
        destruct (fs_files w1 !! _) eqn:Hw1; [|done].
        destruct (Hkept1 (getMigrationsPath ++ [file])) as [? Hsome]; [by eexists|].
        congruence.
    + auto.
    + intros file Hfile. rewrite Hmig2 by auto. by apply Hmig1.
Qed.





Global Instance on_state_preorder Rw : PreOrder Rw → PreOrder (on_state Rw).
Proof.
  intros ?. split.
  - intros st. unfold on_state. reflexivity.
  - intros s1 s2 s3. unfold on_state. intros. by etrans.
Qed.




(** ** Seeds are merged once *)

Lemma collected_seeds_cons f l acc :
  collected_seeds (f :: l) acc =
  collected_seeds l (match tf_content f with
                     | Some content => acc +:+ seed_entry f content
                     | None => acc
                     end).
Proof. done. Qed.

Lemma collected_seeds_extends files acc :
  ∃ rest, collected_seeds files acc = acc +:+ rest.
Proof.
  revert acc. induction files as [|f l IH]; intros acc.
  - exists "". by rewrite append_nil_r.
  - rewrite collected_seeds_cons.
    destruct (tf_content f) as [c|]; [|apply IH].
    destruct (IH (acc +:+ seed_entry f c)) as [rest ->].
    eexists. apply append_assoc.
Qed.

(** A text that ends with the block of a feature includes its begin marker. *)
Lemma seed_block_includes featureId files s :
  includes (s +:+ seed_block featureId files) (featureCommentBlock featureId)
  = true.
Proof.
  unfold seed_block.
  destruct (collected_seeds_extends files
              (newline +:+ featureCommentBlock featureId +:+ newline))
    as [rest ->].
  rewrite !append_assoc, <- (append_assoc s newline). apply includes_append.
Qed.

Global Instance seed_once_preorder featureId files :
  PreOrder (seed_once featureId files).
Proof.
  split.
  - intros w. by left.
  - intros w1 w2 w3 [H12|[Hno12 H12]] [H23|[Hno23 H23]].
    + left. congruence.
    + right. rewrite <- H12. by split.
    + right. split; [done | congruence].
    + rewrite H12, seed_block_includes in Hno23. done.
Qed.



Lemma collectSeeds_result files acc st :
  ∃ st', collectSeeds files acc st = (Ok (collected_seeds files acc), st') ∧
         st_world st' = st_world st.
Proof.
  revert acc st. induction files as [|f l IH]; intros acc st.
  - by eexists.
  - rewrite collected_seeds_cons. cbn [collectSeeds].
    unfold on_world, readFile. destruct (tf_content f) as [c|]; cbn [st_world].
    + destruct (IH (acc +:+ seed_entry f c)
                  (mkState (st_world st) (st_config st) (st_installed st)
                     (st_skipped st) (st_errors st))) as (st' & -> & Hw).
      by exists st'.
    + unfold mbind, M_bind, push_error. cbv beta iota.
      match goal with
      | |- ∃ st', collectSeeds l acc ?s = _ ∧ _ =>
          destruct (IH acc s) as (st' & -> & Hw)
      end.
      by exists st'.
Qed.



(** ** Runs of [installFeature] *)

Section Runs.
Context (registry : FeatureRegistry) (package : gmap string FeatureTemplates).

Lemma install_stages_split featureId config res st0 :
  install_stages registry package featureId config res st0 =
  match installSchemas config (templates_of package featureId) res st0 with
  | (Ok _, st1) =>
      (later_stages package featureId config res;;
       updateInstalledFeatures registry featureId) st1
  | (Err e, st1) => (Err e, st1)
  end.
Proof.
  unfold install_stages, artifact_stages, mbind, M_bind.
  by destruct (installSchemas _ _ _ st0) as [[[]|e] st1].
Qed.

Lemma after_schemas_effect featureId config res :
  let templates := templates_of package featureId in
  sat (effect (λ p, migration_form config (migrations_of templates) p ∨
                    function_file_form config (functions_of templates) p ∨
                    p = getSeedPath)
         (function_skipped_form config (functions_of templates))
         (λ p, is_migration_path p ∨
               function_written_form config (functions_of templates) p ∨
               p = getSeedPath)
         (call_form config templates) (λ g, g = featureId))
      any (later_stages package featureId config res;;
           updateInstalledFeatures registry featureId).
Proof.
  intros templates. eapply sat_bind; [apply _ | |intros _ _].
  - eapply sat_weaken; [|done|apply later_stages_effect].
    intros ? ?. apply effect_weaken; done.
  - eapply sat_weaken; [|done|apply updateInstalledFeatures_effect].
    intros ? ?. apply effect_weaken; done.
Qed.

(** The stages after the schema stage only add to the two lists. *)
Lemma after_schemas_grow featureId config res st1 r st :
  (later_stages package featureId config res;;
   updateInstalledFeatures registry featureId) st1 = (r, st) →
  st_installed st1 `prefix_of` st_installed st ∧
  st_skipped st1 `prefix_of` st_skipped st.
Proof.
  intros Hrun.
  destruct (after_schemas_effect featureId config res _ _ _ Hrun)
    as [[(i & -> & _) (k & -> & _) _ _ _ _] _].
  split; by eexists.
Qed.

Lemma installFeature_run featureId res config w feature :
  getFeature registry featureId = Some feature →
  installFeature registry package featureId res config w =
  let run := install_stages registry package featureId config res
               (initial_state config w) in
  (Ok (outcome_of run.1 run.2), (st_config run.2, st_world run.2)).
Proof.
  intros Hf. unfold installFeature. rewrite Hf.
  by destruct (install_stages _ _ _ _ _ _) as [[[]|e] st].
Qed.

(** When the four artifact stages end without a throw, the persist stage
    stores the record and leaves the lists alone. *)
Lemma install_stages_persist featureId config res st0 st4 feature :
  getFeature registry featureId = Some feature →
  artifact_stages package featureId config res st0 = (Ok tt, st4) →
  ∃ r st,
    install_stages registry package featureId config res st0 = (r, st) ∧
    st_installed st = st_installed st4 ∧ st_skipped st = st_skipped st4 ∧
    installedFeatures (st_config st) =
      assign_record featureId
        (mkInstalled (f_version feature) (wall_clock (st_world st4))
           (st_installed st4))
        (installedFeatures (st_config st4)) ∧
    (config_unwritable (st_world st4) = false →
     r = Ok tt ∧ config_file (st_world st) = Some (st_config st)) ∧
    (config_unwritable (st_world st4) = true →
     r = Err SaveConfigFailed ∧ st_world st = st_world st4).
Proof.
  intros Hf Hrun. unfold install_stages, mbind, M_bind. rewrite Hrun.
  unfold updateInstalledFeatures. rewrite Hf.
  unfold mbind, M_bind, set_config, on_world, saveConfig. simpl.
  destruct (config_unwritable (st_world st4)); eexists _, _;
    (split; [done|]); simpl; split_and!; try done; by intros [= ?].
Qed.


End Runs.

(** A triple is determined by its first component and the projections of
    the rest. *)
Lemma run_eta {A B C} (r : A * (B * C)) a : r.1 = a → r = (a, (r.2.1, r.2.2)).
Proof. destruct r as [? [? ?]]. by intros <-. Qed.

End InstallerFacts.

(** * Theorems about the installer *)

Module InstallerTheorems.
Import Registry Installer InstallerFacts.

(** Closed decidable goals (membership, [NoDup]) by evaluation. *)
Ltac by_compute := apply (bool_decide_unpack _); vm_compute; exact I.

(** A run is its outcome together with the configuration and the world it
    leaves. *)
Ltac by_run := apply run_eta; vm_compute; reflexivity.

(** C7. [installFeature] throws only for an unknown feature. For a known
    one it returns an outcome whose [success] flag is true exactly when its
    [errors] list is empty, so a failed outcome has a non-empty list; the two
    path lists are those of the state in which the [try] block ended or
    threw, and whatever the schema stage had recorded up to then is still at
    their front. *)
Theorem installFeature_success_iff_no_errors registry package featureId res
    config w :
  match getFeature registry featureId with
  | None =>
      installFeature registry package featureId res config w =
      (Err (InstallFeatureNotFound featureId), (config, w))
  | Some _ =>
      ∃ out config' w',
        installFeature registry package featureId res config w =
          (Ok out, (config', w')) ∧
        (success out = true ↔ errors out = []) ∧
        (success out = false → errors out ≠ []) ∧
        (let st := (install_stages registry package featureId config res
                      (initial_state config w)).2 in
         installedFiles out = st_installed st ∧
         skippedFiles out = st_skipped st) ∧
        (let st1 := (installSchemas config (templates_of package featureId)
                       res (initial_state config w)).2 in
         st_installed st1 `prefix_of` installedFiles out ∧
         st_skipped st1 `prefix_of` skippedFiles out)
  end.
Proof.
  destruct (getFeature registry featureId) as [feature|] eqn:Hf.
  2:{ unfold installFeature. by rewrite Hf. }
  rewrite (installFeature_run _ _ _ _ _ _ _ Hf). cbn zeta.
  pose proof (install_stages_split registry package featureId config res
                (initial_state config w)) as Hsplit.
  destruct (install_stages _ _ _ _ _ _) as [r st] eqn:Hrun. simpl.
  eexists _, _, _. split; [done|].
  assert (installedFiles (outcome_of r st) = st_installed st ∧
          skippedFiles (outcome_of r st) = st_skipped st) as [Hi Hs]
    by (by destruct r).
  split_and!; try done.
  - destruct r; simpl; [by rewrite bool_decide_eq_true|].
    split; [done|]. by intros [_ ?]%app_eq_nil.
  - destruct r; simpl; [by intros ?%bool_decide_eq_false|].
    by intros _ [_ ?]%app_eq_nil.
  - rewrite Hi. destruct (installSchemas _ _ _ _) as [[[]|e] st1]; simpl.
    + by eapply after_schemas_grow.
    + by injection Hsplit as _ ->.
  - rewrite Hs. destruct (installSchemas _ _ _ _) as [[[]|e] st1]; simpl.
    + by eapply after_schemas_grow.
    + by injection Hsplit as _ ->.
Qed.




(** C2, at a failing input. The feature has the schema files [a.sql] and
    [b.sql], a migration, a function and a seed file, and the project refuses
    the write to the target of [a.sql]. The error does reach the outcome, but
    the install stops there: [b.sql] is never copied, no scaffold request is
    made, the seed file is not written and no record is stored. *)
Lemma schema_copy_failure_aborts_install :
  let run := installFeature demo_registry demo_package "demo" []
               default_config readonly_a_world in
  run.1 = Ok (mkResult false [] []
                [CopyFailed ["supabase"; "schemas"; "a.sql"]]) ∧
  fs_files run.2.2 !! ["supabase"; "schemas"; "b.sql"] = None ∧
  cli_calls run.2.2 = [] ∧
  fs_files run.2.2 !! getSeedPath = None ∧
  installedFeatures run.2.1 !! "demo" = None ∧
  config_file run.2.2 = None.
Proof. by vm_compute. Qed.

(** C6, at a failing input. The target of the schema file [a.sql] exists
    and the caller passes its conflict entry without a resolution. The entry
    is not treated as skip: the file is overwritten and recorded as
    installed. *)
Lemma unresolved_schema_conflict_is_overwritten :
  let a := ["supabase"; "schemas"; "a.sql"] in
  let run := installFeature demo_registry demo_package "demo" unresolved_a
               default_config existing_a_world in
  resolution_of unresolved_a a = None ∧
  fs_files existing_a_world !! a = Some "-- mine" ∧
  fs_files run.2.2 !! a = Some "create table a;" ∧
  ∃ out, run.1 = Ok out ∧ skippedFiles out = [] ∧ head (installedFiles out) = Some a.
Proof. vm_compute. split_and!; try done. by eexists. Qed.

(** C4, as stated, fails on its second row: the target directory of the
    function [foo] does not exist and its resolution is overwrite; the files
    are copied but no scaffold is requested (the only request of the run is
    the migration's). *)
Lemma installFunction_overwrite_absent_counterexample :
  let target := ["supabase"; "functions"; "foo"] in
  let run := installFeature demo_registry demo_package "demo" overwrite_foo
               default_config empty_world in
  directoryExists target empty_world = false ∧
  resolution_of overwrite_foo target = Some overwrite ∧
  cli_calls run.2.2 = [MigrationNew "init" (Some "0_init.sql")] ∧
  fs_files run.2.2 !! (target ++ ["index.ts"]) = Some "serve();".
Proof. by vm_compute. Qed.

(** C4, amended. One pass of the loop over the function directories never
    throws and follows this table, keyed by the resolution of the target
    directory and by its existence:
    - skip: the target is recorded in [skippedFiles] and nothing else
      changes (no scaffold request, no copy);
    - the directory exists and the resolution is not overwrite: the same;
    - overwrite, whether the directory exists or not: no scaffold request is
      made, nothing is skipped, and when every file can be copied each
      template file is copied below the target and recorded;
    - no resolution and the directory does not exist: exactly one scaffold
      request is made, nothing is skipped, and when the scaffold succeeds and
      every file can be copied each template file is copied over the scaffold
      and recorded. *)
Theorem installFunction_decision_table config res fn st :
  let target := function_target config fn in
  let name := render (applyPrefix config [fn_name fn]) in
  let w := st_world st in
  let run := installFunction config res fn st in
  let recorded := (λ t, target ++ tf_path t) <$> fn_files fn in
  run.1 = Ok tt ∧
  (resolution_of res target = Some skip →
   run.2 = mkState w (st_config st) (st_installed st)
             (st_skipped st ++ [target]) (st_errors st)) ∧
  (directoryExists target w = true →
   resolution_of res target ≠ Some overwrite →
   run.2 = mkState w (st_config st) (st_installed st)
             (st_skipped st ++ [target]) (st_errors st)) ∧
  (resolution_of res target = Some overwrite →
   cli_calls (st_world run.2) = cli_calls w ∧
   st_skipped run.2 = st_skipped st ∧
   (copyable target (fn_files fn) w →
    fs_files (st_world run.2) =
      copy_function_files target (fn_files fn) (fs_files w) ∧
    st_installed run.2 = st_installed st ++ recorded ∧
    st_errors run.2 = st_errors st)) ∧
  (directoryExists target w = false →
   resolution_of res target = None →
   cli_calls (st_world run.2) =
     cli_calls w ++ [FunctionsNew name (bool_decide (name ∉ cli_failing w))] ∧
   st_skipped run.2 = st_skipped st ∧
   (name ∉ cli_failing w → copyable target (fn_files fn) w →
    fs_files (st_world run.2) =
      copy_function_files target (fn_files fn)
        (<[target ++ ["index.ts"] := "// boilerplate"]> (fs_files w)) ∧
    st_installed run.2 = st_installed st ++ recorded ∧
    st_errors run.2 = st_errors st)).
Proof.
  intros target name w run recorded. subst run. split_and!.
  - by apply try_catch_ok.
  - intros Hres. by rewrite installFunction_skip.
  - intros Hdir Hres. by rewrite installFunction_keep.
  - intros Hres. rewrite installFunction_overwrite by done. unfold try_catch.
    destruct (for_each _ _ st) as [r st'] eqn:Hloop.
    destruct (copy_loop_quiet _ _ _ _ _ Hloop) as [Hcalls Hskip].
    split_and!.
    + by destruct r.
    + by destruct r.
    + intros Hc.
      destruct (copy_loop_exact target (fn_files fn) st Hc)
        as (st2 & Hrun & ? & ? & ? & ? & ?).
      assert ((r, st') = (Ok tt, st2)) as [= -> ->]
        by (by rewrite <- Hloop, <- Hrun).
      done.
  - intros Hdir Hres. rewrite installFunction_scaffold by done.
    unfold try_catch, mbind, M_bind, on_world, createFunction.
    fold name. fold w.
    assert (getFunctionsPath ++ [name] = target) as Htarget
      by (unfold name, target, function_target; by rewrite render_applyPrefix).
    rewrite Htarget.
    case_decide as Hfail.
    { simpl. rewrite bool_decide_eq_false_2 by (by intros ?). done. }
    rewrite (bool_decide_eq_true_2 _ Hfail).
    set (st1 := mkState _ _ _ _ _).
    destruct (for_each _ _ st1) as [r st'] eqn:Hloop.
    destruct (copy_loop_quiet _ _ _ _ _ Hloop) as [Hcalls Hskip].
    split_and!.
    + by destruct r.
    + by destruct r.
    + intros _ Hc.
      destruct (copy_loop_exact target (fn_files fn) st1 Hc)
        as (st2 & Hrun & ? & ? & ? & ? & ?).
      assert ((r, st') = (Ok tt, st2)) as [= -> ->]
        by (by rewrite <- Hloop, <- Hrun).
      done.
Qed.

(** The scenario of a new function: [functions/foo/] is absent and has no
    resolution, so one scaffold request is made and [index.ts] is copied. *)
Lemma installFunction_decision_table_witness :
  let fn := mkFunction "foo" [mkTemplate [] "index.ts" (Some "serve();")] in
  let st := initial_state default_config empty_world in
  let run := installFunction default_config [] fn st in
  cli_calls (st_world run.2) = [FunctionsNew "foo" true] ∧
  fs_files (st_world run.2) !! ["supabase"; "functions"; "foo"; "index.ts"]
    = Some "serve();" ∧
  st_installed run.2 = [["supabase"; "functions"; "foo"; "index.ts"]].
Proof.
  intros fn st run.
  destruct (installFunction_decision_table default_config [] fn st)
    as (_ & _ & _ & _ & Hrow).
  destruct Hrow as (Hcalls & _ & Hcopy); [by vm_compute..|].
  destruct Hcopy as (Hfiles & Hinst & _).
  { by_compute. }
  { intros t Ht. apply list_elem_of_singleton in Ht as ->.
    split; [by eexists | by_compute]. }
  fold run in Hcalls, Hfiles, Hinst.
  rewrite Hcalls, Hfiles, Hinst. by vm_compute.
Defined.



(** C9, as stated, fails: with the prefix [sb_] configured the run records
    the shared seed artifact [supabase/seed.sql] and the function file
    [supabase/functions/sb_foo/index.ts], whose file names do not carry the
    prefix. *)
Lemma applyFilePrefix_not_on_every_artifact :
  let run := installFeature demo_registry demo_package "demo" []
               prefixed_config empty_world in
  ∃ out, run.1 = Ok out ∧
    ["supabase"; "seed.sql"] ∈ installedFiles out ∧
    String.prefix "sb_" (basename ["supabase"; "seed.sql"]) = false ∧
    ["supabase"; "functions"; "sb_foo"; "index.ts"] ∈ installedFiles out ∧
    String.prefix "sb_"
      (basename ["supabase"; "functions"; "sb_foo"; "index.ts"]) = false.
Proof.
  intros run.
  exists (match run.1 with Ok o => o | Err _ => mkResult false [] [] [] end).
  split; [by vm_compute|].
  split_and!; [by_compute | by vm_compute | by_compute | by vm_compute].
Qed.

(** C9, amended. [applyFilePrefix] leaves the directory of a path alone and
    puts the configured prefix (nothing, when none or the empty one is
    configured) once in front of its file name, extension included. Every
    path [installFeature] records as installed has one of four shapes: a
    schema file, below the schemas directory at its template path with the
    prefix once on its file name; a migration, named by the scaffold tool
    after the template's name without [.sql] with the prefix once in front; a
    function file, below the function directory that carries the prefix
    once, at its template path with its own name unchanged; or the shared
    seed artifact, which never carries the prefix. *)
Theorem applyFilePrefix_once registry package featureId res config w out
    config' w' :
  let templates := templates_of package featureId in
  let pre := default "" (filePrefix config) in
  installFeature registry package featureId res config w =
    (Ok out, (config', w')) →
  (∀ dir name, applyFilePrefix (dir ++ [name]) config = dir ++ [pre +:+ name]) ∧
  (filePrefix config = None → ∀ filename, applyFilePrefix filename config = filename) ∧
  ∀ p, p ∈ installedFiles out →
    (∃ t, t ∈ schemas_of templates ∧
       p = sourceDir config ++ ["schemas"] ++ tf_dir t ++ [pre +:+ tf_name t]) ∨
    (∃ t (n : nat), t ∈ migrations_of templates ∧
       p = getMigrationsPath ++
           [pretty n +:+ "_" +:+
            (pre +:+ basename_ext (tf_path t) ".sql") +:+ ".sql"]) ∨
    (∃ fn t, fn ∈ functions_of templates ∧ t ∈ fn_files fn ∧
       p = getFunctionsPath ++ [pre +:+ fn_name fn] ++ tf_path t) ∨
    p = getSeedPath.
Proof.
  intros templates pre Hrun. split_and!.
  - intros dir name. apply applyFilePrefix_snoc.
  - intros Hnone filename. unfold applyFilePrefix. by rewrite Hnone.
  - unfold installFeature in Hrun.
    destruct (getFeature registry featureId) as [feature|]; [|done].
    destruct (install_stages _ _ _ _ _ _) as [r st] eqn:Hstages.
    injection Hrun as <- <- <-.
    destruct (install_stages_effect registry config res package featureId
                _ _ _ Hstages) as [[(i & Hi & Hiform) _ _ _ _ _] _].
    simpl in Hi. fold templates in Hiform.
    assert (installedFiles (outcome_of r st) = i) as -> by (by destruct r).
    intros p Hp. rewrite Forall_forall in Hiform.
    destruct (Hiform p Hp) as [Hs|[Hm|[Hfn|Hseed]]].
    + left. destruct Hs as (t & ? & -> & _). exists t. split; [done|].
      by rewrite schema_target_shape.
    + right. left. destruct Hm as (t & n & ? & ->). exists t, n.
      split; [done|]. by rewrite migration_name_shape.
    + right. right. left. destruct Hfn as (fn & t & ? & ? & ->).
      exists fn, t. split_and!; [done..|]. by rewrite function_target_shape.
    + by right; right; right.
Qed.

Lemma applyFilePrefix_once_witness :
  (installFeature demo_registry demo_package "demo" [] prefixed_config
     empty_world).1 =
    Ok (mkResult true
          [["supabase"; "schemas"; "sb_a.sql"];
           ["supabase"; "schemas"; "sb_b.sql"];
           ["supabase"; "migrations"; "0_sb_init.sql"];
           ["supabase"; "functions"; "sb_foo"; "index.ts"];
           ["supabase"; "seed.sql"]] [] []) ∧
  applyFilePrefix ["nested"; "a.sql"] prefixed_config = ["nested"; "sb_a.sql"].
Proof.
  set (run := installFeature demo_registry demo_package "demo" []
                prefixed_config empty_world).
  set (out := match run.1 with Ok o => o | Err _ => mkResult false [] [] [] end).
  destruct (applyFilePrefix_once demo_registry demo_package "demo" []
              prefixed_config empty_world out run.2.1 run.2.2)
    as (Hshape & _ & _); [by_run|].
  split; [by vm_compute | apply (Hshape ["nested"] "a.sql")].
Defined.

End InstallerTheorems.

(** * Evaluation of closed goals *)

Module Evaluation.

(** Closed decidable goals (membership, [NoDup]) by evaluation. *)
Ltac by_compute := apply (bool_decide_unpack _); vm_compute; exact I.

(** A run is its outcome together with the configuration and the world it
    leaves. *)
Ltac by_run := apply InstallerFacts.run_eta; vm_compute; reflexivity.

End Evaluation.

(** * Facts about the registry queries *)

Module QueriesFacts.
Import Registry RegistryFacts Queries.



Lemma filter_none {A} (P : A → Prop) `{!∀ x, Decision (P x)} (l : list A) :
  (∀ x, x ∈ l → ¬ P x) → filter P l = [].
Proof.
  induction l as [|a l IH]; intros Hall; [done|].
  rewrite filter_cons_False by (apply Hall; left).
  apply IH. intros x ?. apply Hall. by right.
Qed.

(** The set built by the loop of [getCategories]. *)
Lemma set_add_elem c x categories :
  x ∈ set_add c categories ↔ x = c ∨ x ∈ categories.
Proof.
  unfold set_add. case_decide; [naive_solver|].
  rewrite elem_of_app, list_elem_of_singleton. naive_solver.
Qed.

Lemma set_add_NoDup c categories : NoDup categories → NoDup (set_add c categories).
Proof.
  unfold set_add. case_decide; [done|]. intros Hnd.
  apply NoDup_app. split_and!; [done| |apply NoDup_singleton].
  intros x Hx ->%list_elem_of_singleton. done.
Qed.

Lemma collected_categories (features : Features) acc :
  let categories :=
    foldl (λ categories entry, set_add (f_category entry.2) categories)
      acc features in
  (NoDup acc → NoDup categories) ∧
  ∀ c, c ∈ categories ↔
       c ∈ acc ∨ ∃ id f, (id, f) ∈ features ∧ f_category f = c.
Proof.
  revert acc. induction features as [|[k f] l IH]; intros acc; simpl.
  - split; [done|]. intros c. split; [by left|].
    intros [?|(? & ? & []%elem_of_nil & _)]; done.
  - destruct (IH (set_add (f_category f) acc)) as [Hnd Hin]. split.
    + intros ?. by apply Hnd, set_add_NoDup.
    + intros c. rewrite Hin, set_add_elem. split.
      * intros [[->|?]|(id & g & ? & ?)].
        -- right. exists k, f. split; [left|done].
        -- by left.
        -- right. exists id, g. split; [by right|done].
      * intros [?|(id & g & [Heq|?]%elem_of_cons & ?)].
        -- left. by right.
        -- simplify_eq. left. by left.
        -- right. by exists id, g.
Qed.

Lemma omap_id_Some (l : list string) : omap id (Some <$> l) = l.
Proof. induction l; simpl; [done|]. by f_equal. Qed.

Lemma omap_id_filter_None (l : list (option string)) :
  omap id (filter (λ c, c = None) l) = [].
Proof.
  induction l as [|[x|] l IH]; [done| |].
  - by rewrite filter_cons_False.
  - by rewrite filter_cons_True.
Qed.

Lemma elem_of_omap_id (l : list (option string)) x :
  x ∈ omap id l ↔ Some x ∈ l.
Proof.
  rewrite list_elem_of_omap. split.
  - intros ([y|] & ? & ?); simplify_eq/=. done.
  - intros ?. by exists (Some x).
Qed.

Lemma NoDup_omap_id (l : list (option string)) : NoDup l → NoDup (omap id l).
Proof.
  induction 1 as [|[x|] l Hx Hnd IH]; simpl; [constructor| |done].
  constructor; [|done]. by rewrite elem_of_omap_id.
Qed.

Lemma NoDup_filter_None_length (l : list (option string)) :
  NoDup l → length (filter (λ c, c = None) l) ≤ 1.
Proof.
  intros Hnd.
  assert (∀ x, x ∈ filter (λ c : option string, c = None) l → x = None) as Hall
    by (intros x [? _]%list_elem_of_filter; done).
  pose proof (NoDup_filter (λ c : option string, c = None) _ Hnd) as Hnd'.
  destruct (filter _ l) as [|a [|b m]]; simpl; [lia..|].
  exfalso. rewrite (Hall a), (Hall b) in Hnd' by (repeat constructor).
  apply NoDup_cons in Hnd' as [Hin _]. apply Hin. left.
Qed.

Section Sorting.
Context (le : relation string) `{!∀ x y, Decision (le x y)}.

Lemma sort_default_elem array c : c ∈ sort_default le array ↔ c ∈ array.
Proof.
  unfold sort_default. rewrite elem_of_app, list_elem_of_fmap.
  setoid_rewrite merge_sort_Permutation. setoid_rewrite elem_of_omap_id.
  rewrite list_elem_of_filter. destruct c as [x|]; split.
  - intros [(y & ? & ?)|[? _]]; by simplify_eq.
  - intros ?. left. by exists x.
  - intros [(y & ? & ?)|[_ ?]]; by simplify_eq.
  - intros ?. by right.
Qed.

Lemma sort_default_NoDup array : NoDup array → NoDup (sort_default le array).
Proof.
  intros Hnd. unfold sort_default. apply NoDup_app. split_and!.
  - apply (NoDup_fmap_2 _). rewrite merge_sort_Permutation.
    by apply NoDup_omap_id.
  - intros c (y & -> & _)%list_elem_of_fmap [? _]%list_elem_of_filter. done.
  - by apply NoDup_filter.
Qed.

Lemma sort_default_strings array :
  omap id (sort_default le array) = merge_sort le (omap id array).
Proof.
  unfold sort_default. rewrite omap_app, omap_id_Some, omap_id_filter_None.
  apply app_nil_r.
Qed.

Lemma sort_default_undefined_last array i :
  NoDup array → sort_default le array !! i = Some None →
  i = length (sort_default le array) - 1.
Proof.
  intros Hnd Hi. unfold sort_default in *.
  pose proof (NoDup_filter_None_length _ Hnd) as Hlen.
  rewrite length_app. apply lookup_app_Some in Hi as [Hi|[Hge Hi]].
  - apply list_lookup_fmap_Some in Hi as (? & ? & ?). done.
  - apply lookup_lt_Some in Hi. lia.
Qed.

Lemma sort_default_all_strings array :
  (∀ c, c ∈ array → is_Some c) →
  sort_default le array ≡ₚ array.
Proof.
  intros Hall. unfold sort_default.
  assert (filter (λ c : option string, c = None) array = []) as ->.
  { apply filter_none. intros c Hc ->. by destruct (Hall _ Hc). }
  rewrite app_nil_r, merge_sort_Permutation.
  clear -Hall. induction array as [|[x|] l IH]; simpl; [done| |].
  - f_equiv. apply IH. intros c ?. apply Hall. by right.
  - destruct (Hall None) as [? ?]; [left|done].
Qed.

End Sorting.



(** [resolve] throws only at a value without a [dependencies] array: when
    every descriptor has one and no declared dependency is named like a
    member of [Object.prototype], it returns. *)
Section ResolveReturns.
Context (features : Features).
Hypothesis Harrays :
  ∀ id f, lookup_feature features id = Some f →
          ∃ ids, f_dependencies f = DepsArray ids.
Hypothesis Hnames : ∀ x y, edge features x y → y ∉ object_prototype.

Lemma resolve_deps_returns rec deps st r :
  (∀ d s r', d ∈ deps → rec d s = Some r' → ∃ s', r' = Ok s') →
  resolve_deps rec deps st = Some r → ∃ st', r = Ok st'.
Proof.
  revert st. induction deps as [|d deps IH]; intros st Hrec; simpl.
  - intros [= <-]. by eexists.
  - destruct (rec d st) as [r'|] eqn:Hr; [|done].
    destruct (Hrec d st r') as [s' ->]; [by left | done |].
    apply IH. intros d' s r'' ?. apply Hrec. by right.
Qed.

Lemma resolve_returns fuel cur st r :
  is_Some (lookup_feature features cur) ∨ cur ∉ object_prototype →
  resolve fuel features cur st = Some r → ∃ st', r = Ok st'.
Proof.
  revert cur st r. induction fuel as [|fuel IH]; intros cur st r Hcur; [done|].
  simpl. case_decide; [intros [= <-]; by eexists|].
  unfold features_get. destruct (lookup_feature features cur) as [f|] eqn:Hf.
  - destruct (Harrays _ _ Hf) as [ids Hids]. rewrite Hids.
    destruct (resolve_deps _ _ _) as [r2|] eqn:Hloop; [|done].
    assert (∃ st2, r2 = Ok st2) as [st2 ->].
    { eapply resolve_deps_returns; [|done]. intros d s r' Hd. apply IH. right.
      apply (Hnames cur), (edge_deps_list _ _ _ _ Hf).
      unfold deps_list. by rewrite Hids. }
    case_decide; intros [= <-]; by eexists.
  - destruct Hcur as [[? ?]|Hcur]; [done|].
    rewrite decide_False by done. intros [= <-]. by eexists.
Qed.

(** The top call of [resolve] for a key of the registry returns a list
    that holds the key, whatever the dependency graph is. *)
Lemma resolve_top_total id :
  is_Some (lookup_feature features id) →
  ∃ st, resolve (S (length features)) features id
          {| r_visited := ∅; resolved := [] |} = Some (Ok st) ∧
        id ∈ resolved st.
Proof.
  intros [f Hf].
  destruct (resolve_fuel features (S (length features)) id
              {| r_visited := ∅; resolved := [] |}) as [r Hst].
  { simpl. pose proof (unvisited_bound features ∅). lia. }
  destruct (resolve_returns _ _ _ _ (or_introl (mk_is_Some _ _ Hf)) Hst)
    as [st ->].
  exists st. split; [done|].
  simpl in Hst. rewrite decide_False in Hst by set_solver.
  rewrite (features_get_own _ _ _ Hf) in Hst.
  destruct (Harrays _ _ Hf) as [ids Hids]. rewrite Hids in Hst.
  destruct (resolve_deps _ _ _) as [[st2|e]|]; [|done..].
  case_decide; simplify_eq; [done|]. simpl. set_solver.
Qed.

End ResolveReturns.


Global Instance string_le_total : Total string_le.
Proof. intros a b. apply String.leb_total. Qed.

(** A duplicate-free list splits around one of its members in one way. *)
Lemma NoDup_split_unique {A} (l1 l2 k1 k2 : list A) x :
  NoDup (l1 ++ x :: l2) → l1 ++ x :: l2 = k1 ++ x :: k2 → l1 = k1.
Proof.
  revert k1. induction l1 as [|a l1 IH]; intros k1 Hnd Heq.
  - destruct k1 as [|b k1]; [done|]. simpl in *. simplify_eq.
    apply NoDup_cons in Hnd as [Hin _]. destruct Hin. set_solver.
  - destruct k1 as [|b k1]; simpl in *; simplify_eq.
    + apply NoDup_cons in Hnd as [Hin _]. destruct Hin. set_solver.
    + f_equal. apply IH; [|done]. by apply NoDup_cons in Hnd as [_ ?].
Qed.

End QueriesFacts.

(** * Theorems about the registry queries *)

Module QueriesTheorems.
Import Registry RegistryFacts Installer Queries QueriesFacts Evaluation.



(** X10. [getCategories] returns every category of the registry once, and
    nothing else; the strings are in the order of the comparison [sort]
    uses, and a missing category ([undefined]) can only be the last
    member. *)
Theorem getCategories_sorted_unique (le : relation string)
    `{!∀ x y, Decision (le x y)} `{!Total le} registry :
  let categories := getCategories le registry in
  NoDup categories ∧
  (∀ c, c ∈ categories ↔
        ∃ id f, (id, f) ∈ registry_features registry ∧ f_category f = c) ∧
  Sorted le (omap id categories) ∧
  (∀ i, categories !! i = Some None → i = length categories - 1).
Proof.
  intros categories. unfold categories, getCategories.
  destruct (collected_categories (registry_features registry) []) as [Hnd Hin].
  specialize (Hnd (NoDup_nil_2)). split_and!.
  - by apply sort_default_NoDup.
  - intros c. rewrite sort_default_elem, Hin. split; [|by right].
    by intros [[]%elem_of_nil|?].
  - rewrite sort_default_strings. by apply Sorted_merge_sort.
  - intros i. by apply sort_default_undefined_last.
Qed.

Lemma getCategories_sorted_unique_witness :
  getCategories string_le categorised = [Some "auth"; Some "db"] ∧
  Sorted string_le (omap id (getCategories string_le categorised)).
Proof.
  split; [by vm_compute|].
  by destruct (getCategories_sorted_unique string_le categorised)
    as (_ & _ & ? & _).
Defined.



(** X12. [loadRegistry] stores the parsed registry in the manager before it
    validates it. After a load that failed validation the next call finds
    the stored registry and returns it unvalidated: for a registry whose
    descriptors are complete and which declares no dependency named like a
    member of [Object.prototype], [resolveDependencies] for one of its keys
    first throws the validation error and then, called again, returns a
    list that holds the key, whatever the file holds by then. *)
Theorem loadRegistry_cache_skips_validation parsed features e featureId file' :
  validateRegistry parsed = Some (Err e) →
  reg_features parsed = Some features →
  (∀ id f, (id, f) ∈ features → feature_complete f) →
  (∀ id f dep, (id, f) ∈ features → dep ∈ deps_list f →
               dep ∉ object_prototype) →
  is_Some (lookup_feature features featureId) →
  resolveDependencies_cached (FileParsed parsed) None featureId =
    Some (Err (LoadFailedInvalid e), Some parsed) ∧
  ∃ l, resolveDependencies_cached file' (Some parsed) featureId =
         Some (Ok l, Some parsed) ∧
       featureId ∈ l.
Proof.
  intros Hinvalid Hfeatures Hcomplete Hnames Hknown. split.
  - unfold resolveDependencies_cached, loadRegistry_cached. by rewrite Hinvalid.
  - assert (registry_features parsed = features) as Hrf
      by (unfold registry_features; by rewrite Hfeatures).
    unfold resolveDependencies_cached, loadRegistry_cached. cbv zeta.
    rewrite Hrf. destruct Hknown as [f Hf].
    rewrite (features_get_own _ _ _ Hf).
    destruct (resolve_top_total features (complete_arrays _ Hcomplete))
      with (id := featureId) as (st & -> & ?); [|eauto|].
    + intros x y Hxy. destruct (edge_source_known _ _ _ Hxy) as [g Hg].
      apply (Hnames x g); [by apply lookup_feature_entry|].
      by apply (edge_deps_list _ _ _ _ Hg).
    + by exists (resolved st).
Qed.

Lemma loadRegistry_cache_skips_validation_witness :
  resolveDependencies_cached (FileParsed self_loop) None "a" =
    Some (Err (LoadFailedInvalid (CircularDependency "a")), Some self_loop) ∧
  ∃ l, resolveDependencies_cached FileMissing (Some self_loop) "a" =
         Some (Ok l, Some self_loop) ∧ "a" ∈ l.
Proof.
  apply (loadRegistry_cache_skips_validation self_loop [("a", mk ["a"])]
           (CircularDependency "a") "a" FileMissing);
    [by vm_compute | by vm_compute | | | vm_compute; by eexists].
  - intros id f [= -> ->]%list_elem_of_singleton.
    unfold feature_complete, mk. simpl. split_and!; eauto.
  - intros id f dep [= -> ->]%list_elem_of_singleton
      ->%list_elem_of_singleton. by_compute.
Defined.

(** X13. [validateRegistry] reports the first incomplete descriptor in the
    order of the registry's entries: the error is the one [validateFeature]
    gives for it and names that feature only, whatever cycles or unknown
    dependencies the registry has. *)
Theorem validateRegistry_first_incomplete registry version before id f after :
  reg_version registry = Some version → version ≠ "" →
  reg_features registry = Some (before ++ (id, f) :: after) →
  (∀ id' f', (id', f') ∈ before → feature_complete f') →
  ¬ feature_complete f →
  ∃ e, validateRegistry registry = Some (Err e) ∧
       validateFeature id f = Err e ∧ error_features e = [id].
Proof.
  intros Hv Hne Hfs Hbefore Hf. unfold validateRegistry. rewrite Hv, Hfs.
  destruct version as [|c version]; [done|].
  assert (validateFeatures (before ++ (id, f) :: after) = validateFeature id f)
    as ->.
  { clear Hfs. induction before as [|[k g] l IH]; simpl.
    - destruct (validateFeature id f) as [[]|e] eqn:He; [|done].
      by apply validateFeature_ok in He.
    - assert (validateFeature k g = Ok tt) as ->.
      { apply validateFeature_ok, (Hbefore k). left. }
      apply IH. intros id' f' ?. apply (Hbefore id'). by right. }
  destruct (validateFeature id f) as [[]|e] eqn:He.
  { by apply validateFeature_ok in He. }
  exists e. split_and!; [done..|].
  unfold validateFeature in He.
  repeat case_match; simplify_eq; done.
Qed.

Lemma validateRegistry_first_incomplete_witness :
  ∃ e, validateRegistry
         (mkRegistry (Some "1") (Some [("a", mk []);
            ("b", mkFeature (Some "n") None (Some "1") DepsNotArray None);
            ("c", mk ["c"])])) = Some (Err e) ∧
       e = MissingField "b" "description".
Proof.
  destruct (validateRegistry_first_incomplete
              (mkRegistry (Some "1") (Some [("a", mk []);
                 ("b", mkFeature (Some "n") None (Some "1") DepsNotArray None);
                 ("c", mk ["c"])]))
              "1" [("a", mk [])] "b"
              (mkFeature (Some "n") None (Some "1") DepsNotArray None)
              [("c", mk ["c"])]) as (e & He & Hb & _); [done..| | |].
  - intros id' f' [= -> ->]%list_elem_of_singleton.
    unfold feature_complete, mk. simpl.
    split_and!; eauto.
  - intros (_ & [? ?] & _). done.
  - exists e. split; [done|]. by vm_compute in Hb; simplify_eq.
Defined.

End QueriesTheorems.

(** * Further facts about the installer *)

Module InstallerProperties.
Import Registry Installer InstallerFacts Invariants.

Lemma function_target_not_migration config fn file :
  function_target config fn ≠ getMigrationsPath ++ [file].
Proof. by rewrite function_target_shape. Qed.

Lemma function_target_not_seed config fn :
  function_target config fn ≠ getSeedPath.
Proof. by rewrite function_target_shape. Qed.

(** ** Relations every stage keeps *)

Global Instance keeps_recorded_preorder : PreOrder keeps_recorded.
Proof. split; [by intros ? ?|]. intros a b c Hab Hbc ?. by apply Hbc, Hab. Qed.

Global Instance same_config_file_preorder : PreOrder same_config_file.
Proof.
  split; [by intros ?|]. unfold same_config_file.
  intros a b c Hab Hbc. by rewrite Hbc.
Qed.

Global Instance keeps_config_file_preorder : PreOrder keeps_config_file.
Proof. unfold keeps_config_file. apply _. Qed.

Lemma sat_get_world_any R : Reflexive R → sat R any get_world.
Proof. intros ? st r st' [= <- <-]. split; [reflexivity | done]. Qed.

(** The stages are built from a few steps; a relation that every step
    keeps is kept by the artifact stages. The two steps that record an
    installed path are taken together with the write before them. *)
Section AnyStage.
Context (R : relation InstallState) `{!PreOrder R}.
Hypothesis Hread : ∀ src, sat R any (on_world (readFile src)).
Hypothesis Hmigration : ∀ name, sat R any (on_world (createMigration name)).
Hypothesis Hfunction : ∀ name, sat R any (on_world (createFunction name)).
Hypothesis Hcopy :
  ∀ src dest, sat R any (on_world (copyFile src dest);; push_installed dest).
Hypothesis Hwrite :
  ∀ dest content,
    sat R any (on_world (writeFile dest content);; push_installed dest).
Hypothesis Hskipped : ∀ p, sat R any (push_skipped p).
Hypothesis Herror : ∀ e, sat R any (push_error e).

Lemma installSchemas_any config templates res :
  sat R any (installSchemas config templates res).
Proof.
  unfold installSchemas. destruct (t_schemas templates) as [files|].
  - apply sat_for_each; [done|]. intros t _. unfold installSchema.
    destruct (has_action _ skip); [apply Hskipped | apply Hcopy].
  - apply sat_ret; [apply _ | done].
Qed.

Lemma installMigrations_any config templates :
  sat R any (installMigrations config templates).
Proof.
  unfold installMigrations. destruct (t_migrations templates) as [files|].
  - apply sat_for_each; [done|]. intros t _. unfold installMigration.
    apply sat_try_catch; [apply _ | | intros e; apply Herror].
    eapply sat_bind; [apply _ | apply Hread |]. intros content _.
    eapply sat_bind; [apply _ | apply Hmigration |]. intros file _.
    apply Hwrite.
  - apply sat_ret; [apply _ | done].
Qed.

Lemma installFunctions_any config templates res :
  sat R any (installFunctions config templates res).
Proof.
  unfold installFunctions. destruct (t_functions templates) as [fns|].
  - apply sat_for_each; [done|]. intros fn _. unfold installFunction.
    apply sat_try_catch; [apply _ | | intros e; apply Herror].
    destruct (has_action _ skip); [apply Hskipped|].
    eapply sat_bind; [apply _ | apply sat_get_world_any; apply _ |].
    intros w _.
    destruct (directoryExists _ w && negb _); [apply Hskipped|].
    eapply sat_bind with (P := any); [apply _ | |].
    + destruct (negb _ && negb _); [|apply sat_ret; [apply _ | done]].
      eapply sat_bind; [apply _ | apply Hfunction |].
      intros _ _. apply sat_ret; [apply _ | done].
    + intros _ _. apply sat_for_each; [done|]. intros t _. apply Hcopy.
  - apply sat_ret; [apply _ | done].
Qed.

Lemma collectSeeds_any seedFiles seedContent :
  sat R any (collectSeeds seedFiles seedContent).
Proof.
  revert seedContent. induction seedFiles as [|f l IH]; intros acc; simpl.
  - apply sat_ret; [apply _ | done].
  - intros st r st' Hrun.
    destruct (on_world (readFile f) st) as [[content|e] st1] eqn:Hreadf;
      destruct (Hread f _ _ _ Hreadf) as [? _].
    + destruct (IH _ _ _ _ Hrun) as [? ?]. split; [by etrans | done].
    + assert (sat R any
                (push_error (SeedReadFailed (tf_path f) e);; collectSeeds l acc))
        as Hrest.
      { eapply sat_bind; [apply _ | apply Herror | intros _ _; apply IH]. }
      destruct (Hrest _ _ _ Hrun) as [? ?]. split; [by etrans | done].
Qed.

Lemma installSeeds_any featureId templates :
  sat R any (installSeeds featureId templates).
Proof.
  unfold installSeeds.
  destruct (t_seed templates) as [files|]; [|apply sat_ret; [apply _ | done]].
  destruct (filter _ files) as [|f l] eqn:Hfiles; [apply sat_ret; [apply _ | done]|].
  eapply sat_bind with (P := any);
    [apply _ | apply sat_read_existing_seed; apply _ |].
  intros existing _.
  destruct (includes _ _); [apply sat_ret; [apply _ | done]|].
  eapply sat_bind with (P := any); [apply _ | apply collectSeeds_any |].
  intros content _.
  apply sat_try_catch; [apply _ | apply Hwrite | intros e; apply Herror].
Qed.

Lemma artifact_stages_any package featureId config res :
  sat R any (artifact_stages package featureId config res).
Proof.
  unfold artifact_stages, later_stages.
  eapply sat_bind with (P := any); [apply _ | apply installSchemas_any |].
  intros _ _.
  eapply sat_bind with (P := any); [apply _ | apply installMigrations_any |].
  intros _ _.
  eapply sat_bind with (P := any); [apply _ | apply installFunctions_any |].
  intros _ _. apply installSeeds_any.
Qed.

End AnyStage.

(** *** Recorded paths exist *)

Lemma effect_keeps_recorded Fs Qw Fc Qc st st' :
  effect none Fs Qw Fc Qc st st' → keeps_recorded st st'.
Proof.
  intros [(new & Hi & Hnone) _ _ [_ _ Hkept _ _ _ _] _ _] Hrec p Hp.
  destruct new as [|q new]; [|by apply Forall_cons in Hnone as [[] _]].
  rewrite Hi, app_nil_r in Hp. by apply Hkept, Hrec.
Qed.

Lemma sat_quiet {A} Fs Qw Fc Qc (P : A → Prop) (m : M A) :
  sat (effect none Fs Qw Fc Qc) P m → sat keeps_recorded any m.
Proof. apply sat_weaken; [apply effect_keeps_recorded | done]. Qed.

Lemma put_push_recorded dest content w1 st :
  (∀ p, is_Some (fs_files (st_world st) !! p) → is_Some (fs_files w1 !! p)) →
  keeps_recorded st
    (mkState (w_put dest content w1) (st_config st) (st_installed st ++ [dest])
       (st_skipped st) (st_errors st)).
Proof.
  intros Hkept Hrec p. simpl. rewrite lookup_insert_is_Some.
  intros [Hp| ->%list_elem_of_singleton]%elem_of_app; [|by left].
  destruct (decide (dest = p)); [by left | right]. split; [done|].
  by apply Hkept, Hrec.
Qed.

Lemma copy_push_recorded src dest :
  sat keeps_recorded any (on_world (copyFile src dest);; push_installed dest).
Proof.
  intros st r st'. unfold mbind, M_bind, on_world, copyFile, push_installed.
  destruct (tf_content src) as [c|]; [case_decide|]; intros [= <- <-];
    (split; [|done]); try (by intros Hrec p Hp; apply Hrec).
  by apply put_push_recorded.
Qed.

Lemma write_push_recorded dest content :
  sat keeps_recorded any
    (on_world (writeFile dest content);; push_installed dest).
Proof.
  intros st r st'. unfold mbind, M_bind, on_world, writeFile, push_installed.
  case_decide; intros [= <- <-];
    (split; [|done]); try (by intros Hrec p Hp; apply Hrec).
  by apply put_push_recorded.
Qed.

Lemma install_stages_recorded registry package featureId config res :
  sat keeps_recorded any (install_stages registry package featureId config res).
Proof.
  unfold install_stages.
  eapply sat_bind with (P := any); [apply _ | |intros _ _].
  - apply artifact_stages_any; [apply _|..].
    + intros src. eapply sat_quiet, (sat_readFile none none none none none).
    + intros name.
      eapply sat_quiet, (sat_createMigration none none any any none); done.
    + intros name.
      eapply sat_quiet, (sat_createFunction none none any any none); done.
    + apply copy_push_recorded.
    + apply write_push_recorded.
    + intros p. eapply sat_quiet, (sat_push_skipped none any none none none).
      done.
    + intros e. eapply sat_quiet, (sat_push_error none none none none none).
  - eapply sat_quiet, updateInstalledFeatures_effect.
Qed.

(** *** The configuration file *)

Lemma sat_world_only (Rw : relation World) `{!PreOrder Rw} {A}
    (f : World → Result InstallError A * World) :
  (∀ w, Rw w (f w).2) → sat (on_state Rw) any (on_world f).
Proof.
  intros Hf st r st'. unfold on_world, on_state.
  specialize (Hf (st_world st)). destruct (f (st_world st)) as [r' w'].
  intros [= <- <-]. split; [done | by destruct r'].
Qed.

Lemma sat_same_world (Rw : relation World) `{!PreOrder Rw} {A} (m : M A) :
  (∀ st, st_world (m st).2 = st_world st) → sat (on_state Rw) any m.
Proof.
  intros Hm st r st' Hrun. unfold on_state. specialize (Hm st).
  rewrite Hrun in Hm. simpl in Hm. rewrite Hm. split; [done | by destruct r].
Qed.

Lemma artifact_stages_config_file package featureId config res :
  sat keeps_config_file any (artifact_stages package featureId config res).
Proof.
  unfold keeps_config_file.
  assert (∀ src dest,
            sat (on_state same_config_file) any (on_world (copyFile src dest)))
    as Hc.
  { intros src dest. apply sat_world_only; [apply _|]. intros w.
    unfold copyFile. by repeat case_match. }
  assert (∀ dest content,
            sat (on_state same_config_file) any
              (on_world (writeFile dest content)))
    as Hw.
  { intros dest content. apply sat_world_only; [apply _|]. intros w.
    unfold writeFile. by repeat case_match. }
  assert (∀ p, sat (on_state same_config_file) any (push_installed p)) as Hp
    by (intros p; by apply sat_same_world; [apply _|]).
  apply artifact_stages_any; [apply _|..].
  - intros src. apply sat_world_only; [apply _|]. intros w.
    unfold readFile. by repeat case_match.
  - intros name. apply sat_world_only; [apply _|]. intros w.
    unfold createMigration. by repeat case_match.
  - intros name. apply sat_world_only; [apply _|]. intros w.
    unfold createFunction. by repeat case_match.
  - intros src dest. eapply sat_bind with (P := any); [apply _ | apply Hc|].
    intros _ _. apply Hp.
  - intros dest content.
    eapply sat_bind with (P := any); [apply _ | apply Hw|].
    intros _ _. apply Hp.
  - intros p. by apply sat_same_world; [apply _|].
  - intros e. by apply sat_same_world; [apply _|].
Qed.

(** *** The stages after the schema stage throw only at the seed read *)

Lemma for_each_ok {A} (body : A → M unit) (l : list A) st :
  (∀ x s, (body x s).1 = Ok tt) → (for_each body l st).1 = Ok tt.
Proof.
  intros Hbody. revert st. induction l as [|x l IH]; intros st; [done|].
  simpl. unfold mbind, M_bind. specialize (Hbody x st).
  destruct (body x st) as [[[]|e] st1]; [apply IH | done].
Qed.

Lemma push_error_ok e st : (push_error e st).1 = Ok tt.
Proof. done. Qed.

Lemma installMigrations_ok config templates st :
  (installMigrations config templates st).1 = Ok tt.
Proof.
  unfold installMigrations. destruct (t_migrations templates); [|done].
  apply for_each_ok. intros t s. by apply try_catch_ok.
Qed.

Lemma installFunctions_ok config templates res st :
  (installFunctions config templates res st).1 = Ok tt.
Proof.
  unfold installFunctions. destruct (t_functions templates); [|done].
  apply for_each_ok. intros fn s. by apply try_catch_ok.
Qed.

Lemma installSeeds_ok featureId templates st :
  ¬ seed_read_fails (st_world st) →
  (installSeeds featureId templates st).1 = Ok tt.
Proof.
  intros Hread.
  unfold installSeeds. destruct (t_seed templates) as [files|]; [|done].
  destruct (filter _ files) as [|f l]; [done|].
  unfold mbind, M_bind. rewrite read_seed_run, decide_False by done.
  destruct (includes _ _); [done|].
  destruct (collectSeeds_result (f :: l)
              (newline +:+ featureCommentBlock featureId +:+ newline) st)
    as (st2 & -> & _).
  by apply try_catch_ok.
Qed.

(** With seed templates at hand, an existing seed artifact that cannot be
    read makes the seed stage throw before it changes anything. *)
Lemma installSeeds_fails featureId templates st :
  seeds_of templates ≠ [] → seed_read_fails (st_world st) →
  installSeeds featureId templates st = (Err (ReadFailed getSeedPath), st).
Proof.
  unfold installSeeds, seeds_of.
  destruct (t_seed templates) as [files|]; simpl; [|done].
  destruct (filter _ files) as [|f l]; [done|]. intros _ Hfails.
  unfold mbind, M_bind. by rewrite read_seed_run, decide_True.
Qed.

(** The stages before the seed stage return, and leave the seed artifact,
    what can be read and written, and the records as they were. *)
Lemma stages_before_seeds package featureId config res st0 :
  let templates := templates_of package featureId in
  (installSchemas config templates res st0).1 = Ok tt →
  ∃ st3,
    (installSchemas config templates res;;
     installMigrations config templates;;
     installFunctions config templates res) st0 = (Ok tt, st3) ∧
    fs_files (st_world st3) !! getSeedPath =
      fs_files (st_world st0) !! getSeedPath ∧
    fs_unreadable (st_world st3) = fs_unreadable (st_world st0) ∧
    fs_unwritable (st_world st3) = fs_unwritable (st_world st0) ∧
    (∀ g, installedFeatures (st_config st3) !! g =
          installedFeatures (st_config st0) !! g).
Proof.
  intros templates Hschemas. unfold mbind, M_bind.
  destruct (installSchemas config templates res st0) as [[[]|e1] st1] eqn:H1;
    [|done].
  pose proof (installMigrations_ok config templates st1) as Hok2.
  destruct (installMigrations config templates st1) as [[[]|e2] st2] eqn:H2;
    [|done].
  pose proof (installFunctions_ok config templates res st2) as Hok3.
  destruct (installFunctions config templates res st2) as [[[]|e3] st3] eqn:H3;
    [|done].
  destruct (installSchemas_effect config res templates _ _ _ H1)
    as [[_ _ _ [_ Hf1 _ Hu1 _ _ _ Hr1] Hc1 _] _].
  destruct (installMigrations_effect config templates _ _ _ H2)
    as [[_ _ _ [_ Hf2 _ Hu2 _ _ _ Hr2] Hc2 _] _].
  destruct (installFunctions_effect config res templates _ _ _ H3)
    as [[_ _ _ [_ Hf3 _ Hu3 _ _ _ Hr3] Hc3 _] _].
  exists st3. split; [done|]. split; [|split; [congruence|split; [congruence|]]].
  - rewrite Hf3, Hf2, Hf1; [done| | |].
    + intros (t & _ & Heq & _). symmetry in Heq. by eapply schema_not_seed.
    + by intros [file Heq].
    + intros [(fn & t & _ & _ & Heq)|(fn & _ & Heq)]; symmetry in Heq;
        by eapply function_file_not_seed.
  - intros g. rewrite Hc3, Hc2, Hc1; [done|by intros []..].
Qed.

Lemma seed_read_fails_same w w' :
  fs_files w' !! getSeedPath = fs_files w !! getSeedPath →
  fs_unreadable w' = fs_unreadable w →
  seed_read_fails w' ↔ seed_read_fails w.
Proof. unfold seed_read_fails. by intros -> ->. Qed.

Lemma artifact_stages_ok package featureId config res st :
  ¬ seed_read_fails (st_world st) →
  (installSchemas config (templates_of package featureId) res st).1 = Ok tt →
  (artifact_stages package featureId config res st).1 = Ok tt.
Proof.
  intros Hread Hschemas.
  destruct (stages_before_seeds package featureId config res st Hschemas)
    as (st3 & Hrun & Hf & Hr & _ & _).
  unfold artifact_stages, later_stages, mbind, M_bind in *.
  destruct (installSchemas _ _ _ st) as [[[]|e1] st1]; [|done].
  destruct (installMigrations _ _ st1) as [[[]|e2] st2]; [|done].
  destruct (installFunctions _ _ _ st2) as [[[]|e3] st3']; [|done].
  injection Hrun as ->. apply installSeeds_ok.
  by rewrite (seed_read_fails_same _ _ Hf Hr).
Qed.

(** *** The seed stage when the marker is absent *)

Lemma installSeeds_appends featureId templates st :
  seeds_of templates ≠ [] →
  includes (seed_text (st_world st)) (featureCommentBlock featureId) = false →
  ¬ seed_read_fails (st_world st) →
  getSeedPath ∉ fs_unwritable (st_world st) →
  ∃ st', installSeeds featureId templates st = (Ok tt, st') ∧
    seed_text (st_world st') =
      seed_text (st_world st) +:+ seed_block featureId (seeds_of templates) ∧
    getSeedPath ∈ st_installed st'.
Proof.
  unfold installSeeds, seeds_of.
  destruct (t_seed templates) as [files|]; simpl; [|done].
  destruct (filter _ files) as [|f l] eqn:Hfiles; [done|].
  intros _ Hinc Hread Hw.
  unfold mbind, M_bind. rewrite read_seed_run, decide_False by done.
  rewrite Hinc.
  destruct (collectSeeds_result (f :: l)
              (newline +:+ featureCommentBlock featureId +:+ newline) st)
    as (st2 & -> & Hst2).
  unfold try_catch, on_world, writeFile. rewrite Hst2.
  rewrite decide_False by done. eexists. split; [done|]. simpl. split.
  - unfold seed_text at 1. simpl. by rewrite lookup_insert_eq.
  - set_solver.
Qed.

(** A run whose schema stage returns reaches the seed stage; when that
    stage finds no marker and can read and write the seed artifact, the run
    appends the block of the feature and records the artifact. *)
Lemma install_stages_appends registry package featureId config res st0 r st :
  let templates := templates_of package featureId in
  install_stages registry package featureId config res st0 = (r, st) →
  (installSchemas config templates res st0).1 = Ok tt →
  seeds_of templates ≠ [] →
  includes (seed_text (st_world st0)) (featureCommentBlock featureId) = false →
  ¬ seed_read_fails (st_world st0) →
  getSeedPath ∉ fs_unwritable (st_world st0) →
  seed_text (st_world st) =
    seed_text (st_world st0) +:+ seed_block featureId (seeds_of templates) ∧
  getSeedPath ∈ st_installed st.
Proof.
  intros templates Hstages Hschemas Hseeds Hinc Hreadable Hwritable.
  destruct (stages_before_seeds package featureId config res st0 Hschemas)
    as (st3 & Hrun & Hf & Hr & Hu & _). fold templates in Hrun.
  unfold install_stages, artifact_stages, later_stages, mbind, M_bind
    in Hstages, Hrun. fold templates in Hstages.
  destruct (installSchemas config templates res _) as [[[]|e1] st1];
    [|done].
  destruct (installMigrations config templates st1) as [[[]|e2] st2];
    [|done].
  destruct (installFunctions config templates res st2) as [[[]|e3] st3'];
    [|done].
  injection Hrun as ->.
  assert (seed_text (st_world st3) = seed_text (st_world st0)) as Htext
    by (unfold seed_text; by rewrite Hf).
  destruct (installSeeds_appends featureId templates st3)
    as (st4 & H4 & Hblock & Hin);
    [done | by rewrite Htext
     | by rewrite (seed_read_fails_same _ _ Hf Hr) | congruence |].
  rewrite H4 in Hstages.
  destruct (updateInstalledFeatures_effect registry featureId _ _ _ Hstages)
    as [[(new & Hi & _) _ _ [_ Hf5 _ _ _ _ _] _ _] _].
  split.
  - unfold seed_text at 1. rewrite Hf5 by (by intros []).
    fold (seed_text (st_world st4)). by rewrite Hblock, Htext.
  - rewrite Hi. set_solver.
Qed.

(** A run whose schema stage returns and whose seed artifact exists and
    cannot be read stops at the seed stage: it fails with the read error,
    and leaves the seed artifact and the records as they were. *)
Lemma install_stages_seed_unreadable
    registry package featureId config res st0 r st :
  let templates := templates_of package featureId in
  install_stages registry package featureId config res st0 = (r, st) →
  (installSchemas config templates res st0).1 = Ok tt →
  seeds_of templates ≠ [] →
  seed_read_fails (st_world st0) →
  r = Err (ReadFailed getSeedPath) ∧
  seed_text (st_world st) = seed_text (st_world st0) ∧
  (∀ g, installedFeatures (st_config st) !! g =
        installedFeatures (st_config st0) !! g).
Proof.
  intros templates Hstages Hschemas Hseeds Hfails.
  destruct (stages_before_seeds package featureId config res st0 Hschemas)
    as (st3 & Hrun & Hf & Hr & _ & Hc). fold templates in Hrun.
  unfold install_stages, artifact_stages, later_stages, mbind, M_bind
    in Hstages, Hrun. fold templates in Hstages.
  destruct (installSchemas config templates res _) as [[[]|e1] st1];
    [|done].
  destruct (installMigrations config templates st1) as [[[]|e2] st2];
    [|done].
  destruct (installFunctions config templates res st2) as [[[]|e3] st3'];
    [|done].
  injection Hrun as ->.
  rewrite (installSeeds_fails featureId templates st3) in Hstages;
    [|done | by rewrite (seed_read_fails_same _ _ Hf Hr)].
  injection Hstages as <- <-. split; [done|]. split; [|done].
  unfold seed_text. by rewrite Hf.
Qed.

End InstallerProperties.

(** * Facts about the install command *)

Module CommandsFacts.
Import Registry RegistryFacts Installer InstallerFacts Commands.

(** A list of resolutions in which every entry carries an action resolves
    every path it names. *)
Lemma resolution_of_resolved res p :
  Forall (λ c, is_Some (cf_action c)) res →
  p ∈ cf_path <$> res → is_Some (resolution_of res p).
Proof.
  unfold resolution_of, find_resolution.
  induction res as [|c res IH]; intros Hall Hp; [by apply elem_of_nil in Hp|].
  apply Forall_cons in Hall as [Hc Hall]. simpl. case_bool_decide as Hpath.
  - done.
  - apply IH; [done|]. rewrite fmap_cons in Hp.
    apply elem_of_cons in Hp as [?|?]; [by subst|done].
Qed.

Lemma resolution_of_elem res p a :
  resolution_of res p = Some a →
  ∃ c, c ∈ res ∧ cf_path c = p ∧ cf_action c = Some a.
Proof.
  unfold resolution_of, find_resolution.
  induction res as [|c res IH]; [done|]. simpl. case_bool_decide as Hpath.
  - simpl. intros ?. exists c. split_and!; [left|done..].
  - intros (c' & ? & ? & ?)%IH. exists c'. split_and!; [by right|done..].
Qed.

Lemma imap_paths (f : nat → ConflictingFile → Action) conflicts :
  cf_path <$> imap (λ i c, mkConflict (cf_path c) (cf_exists c) (Some (f i c)))
                conflicts =
  cf_path <$> conflicts.
Proof.
  revert f. induction conflicts as [|c l IH]; intros f; [done|].
  rewrite imap_cons, !fmap_cons. simpl. f_equal. apply IH.
Qed.

Lemma imap_resolved (f : nat → ConflictingFile → Action) conflicts :
  Forall (λ c, is_Some (cf_action c))
    (imap (λ i c, mkConflict (cf_path c) (cf_exists c) (Some (f i c)))
       conflicts).
Proof.
  revert f. induction conflicts as [|c l IH]; intros f; [constructor|].
  rewrite imap_cons. constructor; [by eexists | apply IH].
Qed.

(** [handleFileConflicts] asks about every conflict and, unless the user
    cancels, returns the conflicts in order, each with the action chosen. *)
Lemma handleFileConflicts_resolves user conflicts :
  match handleFileConflicts user conflicts with
  | Ok resolved =>
      (conflicts ≠ [] → proceed user = true) ∧
      length resolved = length conflicts ∧
      ∀ i, resolved !! i =
           (λ c, mkConflict (cf_path c) (cf_exists c) (Some (choose user i c)))
             <$> conflicts !! i
  | Err CancelledByUser => conflicts ≠ [] ∧ proceed user = false
  end.
Proof.
  unfold handleFileConflicts. destruct conflicts as [|c l]; [done|].
  destruct (proceed user); [|done]. split_and!; [done| |].
  - by rewrite length_imap.
  - intros i. by rewrite list_lookup_imap.
Qed.

End CommandsFacts.

Module DependencyFacts.
Import Registry RegistryFacts Installer InstallerFacts Commands CommandsFacts
  Invariants InstallerProperties.

Section Strings.
Local Arguments String.append !_ _ / : simpl nomatch.

Lemma append_inj_r (a b c : string) : a +:+ b = a +:+ c → b = c.
Proof. induction a as [|x a IH]; simpl; [done|]. intros [= ?]. auto. Qed.

End Strings.

Global Instance dirs_toward_preorder Q : PreOrder (dirs_toward Q).
Proof.
  split; [by intros w d ?; left|].
  intros w1 w2 w3 H12 H23 d [Hd|?]%H23; [by apply H12 | by right].
Qed.

Lemma dirs_toward_weaken (Q Q' : Path → Prop) w w' :
  (∀ p, Q p → Q' p) → dirs_toward Q w w' → dirs_toward Q' w w'.
Proof.
  intros HQ Hd d [?|(rest & ? & ?)]%Hd; [by left|]. right. exists rest. auto.
Qed.

Lemma ancestors_split p d :
  d ∈ ancestors p → ∃ rest, rest ≠ [] ∧ p = d ++ rest.
Proof.
  unfold ancestors. rewrite elem_of_list_to_set, list_elem_of_fmap.
  intros (n & -> & Hn). apply elem_of_seq in Hn.
  exists (drop n p). split; [|by rewrite take_drop].
  intros Hnil. apply (f_equal length) in Hnil.
  rewrite length_drop in Hnil. simpl in Hnil. lia.
Qed.

Lemma mkdirs_toward (Q : Path → Prop) p w :
  Q p → dirs_toward Q w (w_mkdirs p w).
Proof.
  intros HQ d. simpl. rewrite elem_of_union.
  intros [?|(rest & ? & ->)%ancestors_split]; [by left|]. right. by exists rest.
Qed.

Lemma copyFile_toward (Q : Path → Prop) src dest w :
  Q dest → dirs_toward Q w (copyFile src dest w).2.
Proof.
  intros HQ. unfold copyFile.
  destruct (tf_content src); [case_decide|]; simpl; by apply mkdirs_toward.
Qed.

Lemma writeFile_toward (Q : Path → Prop) dest content w :
  Q dest → dirs_toward Q w (writeFile dest content w).2.
Proof.
  intros HQ. unfold writeFile. case_decide; simpl; by apply mkdirs_toward.
Qed.

Lemma createMigration_toward (Q : Path → Prop) name w :
  (∀ file, Q (getMigrationsPath ++ [file])) →
  dirs_toward Q w (createMigration name w).2.
Proof.
  intros HQ. unfold createMigration.
  case_decide; [|destruct (fileExists _ w)]; simpl; try (by intros d ?; left).
  intros d. simpl. rewrite elem_of_union.
  intros [?|(rest & ? & Heq)%ancestors_split]; [by left|].
  right. exists rest. split; [done|]. rewrite <- Heq. apply HQ.
Qed.

Lemma createFunction_toward (Q : Path → Prop) name w :
  Q ((getFunctionsPath ++ [name]) ++ ["index.ts"]) →
  dirs_toward Q w (createFunction name w).2.
Proof.
  intros HQ. unfold createFunction. case_decide; simpl; [by intros d ?; left|].
  intros d. simpl. rewrite !elem_of_union, elem_of_singleton.
  intros [->|[?|(rest & ? & Heq)%ancestors_split]].
  - right. by exists ["index.ts"].
  - by left.
  - right. exists (rest ++ ["index.ts"]). split; [by destruct rest|].
    by rewrite app_assoc, <- Heq.
Qed.

Lemma sat_toward {A} (Q : Path → Prop)
    (f : World → Result InstallError A * World) :
  (∀ w, dirs_toward Q w (f w).2) →
  sat (on_state (dirs_toward Q)) any (on_world f).
Proof. intros. by apply sat_world_only; [apply _|]. Qed.

Lemma sat_no_dirs {A} (Q : Path → Prop) (m : M A) :
  (∀ st, st_world (m st).2 = st_world st) →
  sat (on_state (dirs_toward Q)) any m.
Proof. intros. by apply sat_same_world; [apply _|]. Qed.

Lemma copy_push_toward (Q : Path → Prop) src dest :
  Q dest →
  sat (on_state (dirs_toward Q)) any
    (on_world (copyFile src dest);; push_installed dest).
Proof.
  intros HQ. eapply sat_bind with (P := any); [apply _ | |intros _ _].
  - apply sat_toward. intros w. by apply copyFile_toward.
  - by apply sat_no_dirs.
Qed.

Lemma installSchemas_toward config templates res :
  sat (on_state (dirs_toward (λ p, ∃ t, p = schema_target config t))) any
    (installSchemas config templates res).
Proof.
  unfold installSchemas. destruct (t_schemas templates) as [files|].
  - apply sat_for_each; [apply _|]. intros t _. unfold installSchema.
    destruct (has_action _ skip); [by apply sat_no_dirs|].
    apply copy_push_toward. by exists t.
  - apply sat_ret; [apply _ | done].
Qed.

Lemma installMigrations_toward config templates :
  sat (on_state (dirs_toward is_migration_path)) any
    (installMigrations config templates).
Proof.
  unfold installMigrations. destruct (t_migrations templates) as [files|].
  - apply sat_for_each; [apply _|]. intros t _. unfold installMigration.
    apply sat_try_catch; [apply _ | | intros e; by apply sat_no_dirs].
    eapply sat_bind with (P := any); [apply _ | |intros content _].
    { apply sat_toward. intros w. unfold readFile.
      destruct (tf_content t); by intros d ?; left. }
    eapply sat_bind with (P := any); [apply _ | |intros file _].
    { apply sat_toward. intros w. apply createMigration_toward.
      intros file. by exists file. }
    eapply sat_bind with (P := any); [apply _ | |intros _ _].
    { apply sat_toward. intros w. apply writeFile_toward. by eexists. }
    by apply sat_no_dirs.
  - apply sat_ret; [apply _ | done].
Qed.

Lemma installFunction_toward config res fn :
  sat (on_state (dirs_toward (λ p, ∃ rel, p = function_target config fn ++ rel)))
    any (installFunction config res fn).
Proof.
  unfold installFunction.
  apply sat_try_catch; [apply _ | | intros e; by apply sat_no_dirs].
  fold (function_target config fn).
  destruct (has_action _ skip); [by apply sat_no_dirs|].
  eapply sat_bind; [apply _ | apply sat_get_world_any; apply _ |]. intros w _.
  destruct (directoryExists _ w && negb _); [by apply sat_no_dirs|].
  eapply sat_bind with (P := any); [apply _ | |].
  - destruct (negb _ && negb _); [|apply sat_ret; [apply _ | done]].
    eapply sat_bind with (P := any); [apply _ | |intros _ _].
    + apply sat_toward. intros w'. apply createFunction_toward.
      exists ["index.ts"]. unfold function_target.
      by rewrite render_applyPrefix.
    + apply sat_ret; [apply _ | done].
  - intros _ _. apply sat_for_each; [apply _|]. intros t _.
    unfold copyFunctionFile. apply copy_push_toward. by eexists.
Qed.

(** [overwrite_all] never asks for a skip and resolves every conflict. *)
Lemma overwrite_all_resolution conflicts p :
  resolution_of (overwrite_all conflicts) p =
  if decide (p ∈ cf_path <$> conflicts) then Some overwrite else None.
Proof.
  unfold resolution_of, find_resolution, overwrite_all.
  induction conflicts as [|c l IH]; [done|].
  rewrite !fmap_cons. simpl. case_bool_decide as Hp.
  - subst. simpl. by rewrite decide_True by left.
  - rewrite IH. destruct (decide (p ∈ cf_path <$> l)).
    + by rewrite decide_True by (by right).
    + rewrite decide_False; [done|]. intros [?|?]%elem_of_cons; by subst.
Qed.

Lemma no_new_skips Fi Qw Fc Qc st st' :
  effect Fi none Qw Fc Qc st st' → st_skipped st' = st_skipped st.
Proof.
  intros [_ (new & -> & Hnone) _ _ _ _].
  destruct new as [|q new]; [by rewrite app_nil_r|].
  by apply Forall_cons in Hnone as [[] _].
Qed.

Lemma try_catch_skipped (m : M unit) (h : InstallError → M unit) st k :
  (∀ r s, m st = (r, s) → st_skipped s = k) →
  (∀ e s, st_skipped (h e s).2 = st_skipped s) →
  st_skipped (try_catch m h st).2 = k.
Proof.
  intros Hm Hh. unfold try_catch. destruct (m st) as [[[]|e] s] eqn:Hrun.
  - by apply (Hm _ _ eq_refl).
  - rewrite Hh. by apply (Hm _ _ eq_refl).
Qed.

Lemma installFunction_not_skipped config res fn st :
  resolution_of res (function_target config fn) ≠ Some skip →
  (directoryExists (function_target config fn) (st_world st) = true →
   resolution_of res (function_target config fn) = Some overwrite) →
  st_skipped (installFunction config res fn st).2 = st_skipped st.
Proof.
  intros Hskip Hex.
  destruct (resolution_of res (function_target config fn)) as [[]|] eqn:Hres;
    [|done|].
  - rewrite installFunction_overwrite by done.
    apply try_catch_skipped; [|done].
    intros r s Hrun. by apply copy_loop_quiet in Hrun as [_ ?].
  - rewrite installFunction_scaffold; [|by destruct (directoryExists _ _);
                                          [specialize (Hex eq_refl)|] | done].
    apply try_catch_skipped; [|done].
    intros r s. unfold mbind, M_bind, on_world.
    destruct (createFunction _ _) as [[name|e] w1]; [|by intros [= _ <-]].
    intros Hrun. by apply copy_loop_quiet in Hrun as [_ ?].
Qed.

Lemma function_target_inj config fn fn' rel rest :
  function_target config fn ++ rel = function_target config fn' ++ rest →
  fn_name fn = fn_name fn'.
Proof.
  rewrite !function_target_shape. intros [= Heq _]. by eapply append_inj_r.
Qed.

Lemma functions_never_skipped config res fns st :
  NoDup (fn_name <$> fns) →
  (∀ p, resolution_of res p ≠ Some skip) →
  overwrite_existing config res fns (st_world st) →
  st_skipped (for_each (installFunction config res) fns st).2 = st_skipped st.
Proof.
  revert st. induction fns as [|fn l IH]; intros st Hnd Hskip Hex; [done|].
  rewrite fmap_cons in Hnd. apply NoDup_cons in Hnd as [Hfn Hnd].
  simpl. unfold mbind, M_bind.
  pose proof (installFunction_not_skipped config res fn st (Hskip _)) as Hs.
  pose proof (installFunction_toward config res fn st) as Hd.
  assert ((installFunction config res fn st).1 = Ok tt) as Hok
    by (by apply try_catch_ok).
  destruct (installFunction config res fn st) as [[[]|e] st1]; [|done].
  destruct (Hd _ _ eq_refl) as [Hdirs _]. simpl in Hs.
  rewrite IH; [|done..|].
  - apply Hs. apply Hex. left.
  - intros fn2 Hfn2 Hex2. apply Hex; [by right|].
    unfold directoryExists in *. rewrite bool_decide_eq_true in *.
    apply Hdirs in Hex2 as [?|(rest & _ & rel & Heq)]; [done|].
    symmetry in Heq. apply function_target_inj in Heq.
    destruct Hfn. rewrite Heq. by apply list_elem_of_fmap_2.
Qed.

Lemma dependency_run_eta {A B C D} (r : A * B * (C * D)) b :
  r.1.2 = b → r = (r.1.1, b, (r.2.1, r.2.2)).
Proof. destruct r as [[? ?] [? ?]]. by intros <-. Qed.

End DependencyFacts.

Module LoopFacts.
Import Registry RegistryFacts Installer InstallerFacts Commands CommandsFacts
  Invariants InstallerProperties DependencyFacts.

Lemma install_stages_ok_records registry package featureId config res st0 st
    feature :
  featureId ≠ "__proto__" →
  getFeature registry featureId = Some feature →
  install_stages registry package featureId config res st0 = (Ok tt, st) →
  is_Some (installedFeatures (st_config st) !! featureId).
Proof.
  intros Hid Hf Hrun.
  destruct (artifact_stages package featureId config res st0) as [r4 st4]
    eqn:H4.
  destruct r4 as [[]|e].
  - destruct (install_stages_persist registry package _ _ _ _ _ _ Hf H4)
      as (r & st' & Hst & _ & _ & Hcfg & _).
    rewrite Hrun in Hst. injection Hst as <- <-.
    rewrite Hcfg, lookup_assign_record by done. by eexists.
  - unfold install_stages, mbind, M_bind in Hrun. by rewrite H4 in Hrun.
Qed.

(** A dependency installed without an error is recorded, and the records
    of the other features are as before. *)
Lemma installFeatureRecursive_records registry package dep config w o config'
    w' :
  dep ≠ "__proto__" →
  installFeatureRecursive registry package dep config w =
    (Ok tt, o, (config', w')) →
  is_Some (installedFeatures config' !! dep) ∧
  ∀ g, g ≠ dep → installedFeatures config' !! g = installedFeatures config !! g.
Proof.
  intros Hid. unfold installFeatureRecursive.
  destruct (analyzeConflicts registry package dep config w)
    as [conflicts|e]; [|done].
  unfold installFeature.
  destruct (getFeature registry dep) as [feature|] eqn:Hf; [|done].
  destruct (install_stages _ _ _ _ _ _) as [r st] eqn:Hstages.
  destruct (success (outcome_of r st)) eqn:Hsuccess; [|done].
  intros [= <- <- <-].
  destruct r as [[]|e]; [|done]. split.
  - by eapply install_stages_ok_records.
  - destruct (install_stages_effect registry config (overwrite_all conflicts)
                package dep _ _ _ Hstages) as [[_ _ _ _ Hrec _] _].
    intros g Hg. by apply Hrec.
Qed.

Lemma install_dependencies_records registry package deps config w config' w' :
  "__proto__" ∉ deps →
  install_dependencies registry package deps config w =
    (Ok tt, (config', w')) →
  (∀ dep, dep ∈ deps → is_Some (installedFeatures config' !! dep)) ∧
  (∀ g, is_Some (installedFeatures config !! g) →
        is_Some (installedFeatures config' !! g)).
Proof.
  revert config w. induction deps as [|dep rest IH]; intros config w Hids;
    simpl.
  - intros [= <- <-]. split; [by intros ? []%elem_of_nil | done].
  - apply not_elem_of_cons in Hids as [Hid Hids].
    destruct (installFeatureRecursive registry package dep config w)
      as [[[[]|e] o] [config1 w1]] eqn:Hdep; [|done].
    intros Hrest. destruct (IH _ _ Hids Hrest) as [Hin Hkeep].
    destruct (installFeatureRecursive_records _ _ _ _ _ _ _ _
                (not_eq_sym Hid) Hdep)
      as [Hdep1 Hother].
    split.
    + intros d [->|?]%elem_of_cons; [by apply Hkeep | by apply Hin].
    + intros g Hg. apply Hkeep. destruct (decide (g = dep)) as [->|Hne];
        [done|]. by rewrite Hother.
Qed.

End LoopFacts.

Module FailureFacts.
Import Registry RegistryFacts Installer InstallerFacts Invariants
  InstallerProperties.

Global Instance schema_quiet_preorder : PreOrder schema_quiet.
Proof.
  split; [by intros ?|].
  intros a b c (? & ? & ? & ? & ?) (? & ? & ? & ? & ?).
  split_and!; congruence.
Qed.

Lemma installSchema_quiet config res t :
  sat schema_quiet any (installSchema config res t).
Proof.
  intros st r st'. unfold installSchema.
  destruct (has_action _ skip); [by intros [= <- <-]|].
  unfold mbind, M_bind, on_world, copyFile, push_installed.
  destruct (tf_content t); [case_decide|]; by intros [= <- <-].
Qed.

Lemma for_each_app {A} (body : A → M unit) (l1 l2 : list A) st :
  for_each body (l1 ++ l2) st =
  match for_each body l1 st with
  | (Ok _, st1) => for_each body l2 st1
  | (Err e, st1) => (Err e, st1)
  end.
Proof.
  revert st. induction l1 as [|x l1 IH]; intros st; [done|].
  simpl. unfold mbind, M_bind. destruct (body x st) as [[[]|e] st1]; [|done].
  apply IH.
Qed.

(** A schema file that is not skipped and cannot be copied ends the loop. *)
Lemma installSchema_fails config res t st :
  resolution_of res (schema_target config t) ≠ Some skip →
  tf_content t = None ∨ schema_target config t ∈ fs_unwritable (st_world st) →
  ∃ st', installSchema config res t st =
           (Err (CopyFailed (schema_target config t)), st') ∧
         st_installed st' = st_installed st ∧ st_skipped st' = st_skipped st ∧
         fs_files (st_world st') = fs_files (st_world st).
Proof.
  intros Hres Hfail. unfold installSchema. fold (schema_target config t).
  rewrite has_action_resolution, bool_decide_eq_false_2 by done.
  unfold mbind, M_bind, on_world, copyFile.
  destruct Hfail as [->|Hw]; [by eexists|].
  destruct (tf_content t); [rewrite decide_True by done|]; by eexists.
Qed.

Lemma copy_loop_unwritable target files st :
  fs_unwritable (st_world (for_each (copyFunctionFile target) files st).2) =
  fs_unwritable (st_world st).
Proof.
  destruct (for_each _ files st) as [r st'] eqn:Hrun. simpl.
  assert (sat (effect any any any any none) any
            (for_each (copyFunctionFile target) files)) as Hsat.
  { apply sat_for_each; [apply _|]. intros t _. unfold copyFunctionFile.
    eapply sat_bind; [apply _ | by apply sat_copyFile |].
    intros _ _. by apply sat_push_installed. }
  by destruct (Hsat _ _ _ Hrun) as [[_ _ _ [_ _ _ ? _ _ _] _ _] _].
Qed.

Lemma copyFunctionFile_fails target t st :
  tf_content t = None ∨ target ++ tf_path t ∈ fs_unwritable (st_world st) →
  ∃ st', copyFunctionFile target t st =
           (Err (CopyFailed (target ++ tf_path t)), st') ∧
         st_installed st' = st_installed st ∧ st_skipped st' = st_skipped st ∧
         st_errors st' = st_errors st ∧
         fs_files (st_world st') = fs_files (st_world st).
Proof.
  intros Hfail. unfold copyFunctionFile, mbind, M_bind, on_world, copyFile.
  destruct Hfail as [->|Hw]; [by eexists|].
  destruct (tf_content t); [rewrite decide_True by done|]; by eexists.
Qed.

End FailureFacts.

(** * Further theorems about the installer *)

Module InstallerPropertyTheorems.
Import Registry RegistryFacts Installer InstallerFacts Invariants
  InstallerProperties DependencyFacts FailureFacts QueriesFacts Evaluation.



(** X1. [checkDependencies] throws the not-found error when
    [registry.features[featureId]] is undefined, and a [TypeError] when the
    value found has no [dependencies] array, as the members inherited from
    [Object.prototype] have none. For a descriptor with its array it returns
    the declared dependencies that are no key of [installedFeatures], in
    declaration order, and [satisfied] is true exactly when every declared
    dependency is installed. Only the declared dependencies are looked at,
    not their own dependencies. *)
Theorem checkDependencies_missing registry featureId config :
  match getFeature registry featureId with
  | None =>
      checkDependencies registry featureId config =
      Err (InstallFeatureNotFound featureId)
  | Some feature =>
      match f_dependencies feature with
      | DepsArray dependencies =>
          ∃ satisfied missing,
            checkDependencies registry featureId config =
              Ok (satisfied, missing) ∧
            missing `sublist_of` dependencies ∧
            (∀ dep, dep ∈ missing ↔
                    dep ∈ dependencies ∧
                    installedFeatures config !! dep = None) ∧
            (satisfied = true ↔
             ∀ dep, dep ∈ dependencies →
                    is_Some (installedFeatures config !! dep))
      | _ =>
          checkDependencies registry featureId config =
          Err (NoDependenciesArray featureId)
      end
  end.
Proof.
  unfold checkDependencies. destruct (getFeature registry featureId) as [f|]; [|done].
  destruct (f_dependencies f) as [| |dependencies]; [done..|].
  eexists _, _. split; [done|].
  assert (∀ dep, dep ∈ filter (λ dep, dep ∉ dom (installedFeatures config))
                         dependencies ↔
                 dep ∈ dependencies ∧ installedFeatures config !! dep = None)
    as Hmem.
  { intros dep. rewrite list_elem_of_filter, not_elem_of_dom. tauto. }
  split_and!; [apply sublist_filter | done |].
  rewrite bool_decide_eq_true. split.
  - intros Hnil dep Hdep.
    destruct (installedFeatures config !! dep) eqn:Hd; [done|].
    assert (dep ∈ @nil string) as []%elem_of_nil.
    rewrite <- Hnil. by apply Hmem.
  - intros Hall. apply filter_none. intros dep Hdep.
    rewrite not_elem_of_dom. destruct (Hall dep Hdep) as [? ->]. by intros ?.
Qed.

(** X2. [analyzeConflicts] throws for an unknown feature and for a feature
    without a template directory. Otherwise a conflict is reported exactly
    for each schema template whose target file exists and for each function
    template whose target directory exists; every reported entry has
    [exists] true and no action; no migration artifact and not the seed
    artifact is ever reported. *)
Theorem analyzeConflicts_reports_existing_targets registry package featureId
    config w :
  match getFeature registry featureId, package !! featureId with
  | None, _ =>
      analyzeConflicts registry package featureId config w =
      Err (AnalyzeFeatureNotFound featureId)
  | Some _, None =>
      analyzeConflicts registry package featureId config w =
      Err (FeatureDirectoryNotFound featureId)
  | Some _, Some templates =>
      ∃ conflicts,
        analyzeConflicts registry package featureId config w = Ok conflicts ∧
        (∀ c, c ∈ conflicts ↔
           ∃ p, c = mkConflict p true None ∧
             ((∃ t, t ∈ schemas_of templates ∧ p = schema_target config t ∧
                    fileExists p w = true) ∨
              (∃ fn, fn ∈ functions_of templates ∧
                     p = function_target config fn ∧
                     directoryExists p w = true))) ∧
        (∀ c, c ∈ conflicts →
           ¬ is_migration_path (cf_path c) ∧ cf_path c ≠ getSeedPath)
  end.
Proof.
  unfold analyzeConflicts.
  destruct (getFeature registry featureId) as [feature|]; [|done].
  destruct (package !! featureId) as [templates|]; [|done].
  eexists. split; [done|].
  assert (∀ c, c ∈ schema_conflicts config w (default [] (t_schemas templates)) ++
                   function_conflicts config w (default [] (t_functions templates)) ↔
           ∃ p, c = mkConflict p true None ∧
             ((∃ t, t ∈ schemas_of templates ∧ p = schema_target config t ∧
                    fileExists p w = true) ∨
              (∃ fn, fn ∈ functions_of templates ∧
                     p = function_target config fn ∧
                     directoryExists p w = true))) as Hmem.
  { intros c. rewrite elem_of_app. unfold schema_conflicts, function_conflicts.
    rewrite !list_elem_of_omap. unfold schemas_of, functions_of. split.
    - intros [(t & Ht & Hc)|(fn & Hfn & Hc)].
      + fold (schema_target config t) in Hc.
        destruct (fileExists _ w) eqn:Hex; simplify_eq.
        eexists. split; [done|]. left. by exists t.
      + fold (function_target config fn) in Hc.
        destruct (directoryExists _ w) eqn:Hex; simplify_eq.
        eexists. split; [done|]. right. by exists fn.
    - intros (p & -> & [(t & Ht & -> & Hex)|(fn & Hfn & -> & Hex)]).
      + left. exists t. split; [done|].
        fold (schema_target config t). by rewrite Hex.
      + right. exists fn. split; [done|].
        fold (function_target config fn). by rewrite Hex. }
  split; [done|].
  intros c (p & -> & [(t & _ & -> & _)|(fn & _ & -> & _)])%Hmem; simpl.
  - split; [|apply schema_not_seed].
    intros [file ?]. by eapply schema_not_migration.
  - split; [|apply function_target_not_seed].
    intros [file ?]. by eapply function_target_not_migration.
Qed.

(** X3. What a run of [installFeature] leaves alone: no file of the project
    is removed; a file keeps its content unless its path is a schema target
    that is not skipped, a migration artifact, a file below a function
    target of the feature, or the seed artifact; every scaffold request is
    for a migration or a function of the feature; every skipped path is a
    skipped schema target or a function target; [sourceDir] and
    [filePrefix] are unchanged, and so is the record of every other
    feature. *)
Theorem installFeature_frame registry package featureId res config w out
    config' w' :
  let templates := templates_of package featureId in
  installFeature registry package featureId res config w =
    (Ok out, (config', w')) →
  (∀ p, is_Some (fs_files w !! p) → is_Some (fs_files w' !! p)) ∧
  (∀ p, ¬ written_form config res templates p →
        fs_files w' !! p = fs_files w !! p) ∧
  (∃ calls, cli_calls w' = cli_calls w ++ calls ∧
            Forall (call_form config templates) calls) ∧
  Forall (skipped_form config res templates) (skippedFiles out) ∧
  sourceDir config' = sourceDir config ∧
  filePrefix config' = filePrefix config ∧
  (∀ g, g ≠ featureId →
        installedFeatures config' !! g = installedFeatures config !! g).
Proof.
  intros templates Hrun. unfold installFeature in Hrun.
  destruct (getFeature registry featureId) as [feature|]; [|done].
  destruct (install_stages _ _ _ _ _ _) as [r st] eqn:Hstages.
  injection Hrun as <- <- <-.
  destruct (install_stages_effect registry config res package featureId
              _ _ _ Hstages)
    as [[_ (k & Hk & Hkform) _ [Hcalls Hfiles Hkept _ _ _ _] Hrec [? ?]] _].
  simpl in *. fold templates in Hkform, Hcalls, Hfiles.
  assert (skippedFiles (outcome_of r st) = k) as -> by (by destruct r).
  by split_and!.
Qed.

Lemma installFeature_frame_witness :
  let run := installFeature demo_registry demo_package "demo" []
               default_config existing_a_world in
  fs_files run.2.2 !! ["README.md"] = fs_files existing_a_world !! ["README.md"] ∧
  is_Some (fs_files run.2.2 !! ["supabase"; "schemas"; "a.sql"]).
Proof.
  intros run.
  set (out := match run.1 with Ok o => o | Err _ => mkResult false [] [] [] end).
  destruct (installFeature_frame demo_registry demo_package "demo" []
              default_config existing_a_world out run.2.1 run.2.2)
    as (Hkept & Hfiles & _); [by_run|].
  split.
  - apply Hfiles.
    intros [(t & _ & Heq & _)|[[file Heq]|[[(fn & t & _ & _ & Heq)|(fn & _ & Heq)]|Heq]]].
    + by rewrite schema_target_shape in Heq.
    + done.
    + by rewrite function_target_shape in Heq.
    + by rewrite function_target_shape in Heq.
    + done.
  - apply Hkept. vm_compute. by eexists.
Defined.

(** X4. Every path in [installedFiles] of an outcome is a file of the
    project when [installFeature] returns, also when the run failed. *)
Theorem installedFiles_exist registry package featureId res config w out
    config' w' :
  installFeature registry package featureId res config w =
    (Ok out, (config', w')) →
  ∀ p, p ∈ installedFiles out → is_Some (fs_files w' !! p).
Proof.
  unfold installFeature.
  destruct (getFeature registry featureId) as [feature|]; [|done].
  destruct (install_stages _ _ _ _ _ _) as [r st] eqn:Hstages.
  intros [= <- <- <-].
  destruct (install_stages_recorded _ _ _ _ _ _ _ _ Hstages) as [Hrec _].
  assert (installedFiles (outcome_of r st) = st_installed st) as ->
    by (by destruct r).
  apply Hrec. intros p []%elem_of_nil.
Qed.

Lemma installedFiles_exist_witness :
  is_Some (fs_files (installFeature demo_registry demo_package "demo" []
                       default_config empty_world).2.2
             !! ["supabase"; "migrations"; "0_init.sql"]).
Proof.
  set (run := installFeature demo_registry demo_package "demo" []
                default_config empty_world).
  set (out := match run.1 with Ok o => o | Err _ => mkResult false [] [] [] end).
  apply (installedFiles_exist demo_registry demo_package "demo" []
           default_config empty_world out run.2.1 run.2.2); [by_run|by_compute].
Defined.

(** X5. A save that fails does not undo the assignment before it. When
    the four artifact stages end without a throw (the schema copies and the
    read of an existing seed artifact succeed, the template directories
    having been listed), [updateInstalledFeatures]
    stores the record in the configuration object and then saves the
    object. If the save throws, [installFeature] still returns an outcome:
    it fails, its errors are those the stages collected followed by the save
    error, and its path lists are those of the stages; the configuration
    file is as before the run, while the object in memory has the new record
    (for an id other than [__proto__]). If the save succeeds, the file holds
    the object, and the outcome succeeds exactly when the stages collected
    no error. *)
Theorem failed_save_keeps_record registry package featureId res config w
    feature out config' w' :
  let st4 := (artifact_stages package featureId config res
                (initial_state config w)).2 in
  featureId ≠ "__proto__" →
  getFeature registry featureId = Some feature →
  installFeature registry package featureId res config w =
    (Ok out, (config', w')) →
  (artifact_stages package featureId config res (initial_state config w)).1
    = Ok tt →
  installedFiles out = st_installed st4 ∧
  skippedFiles out = st_skipped st4 ∧
  (config_unwritable w = true →
   success out = false ∧
   errors out = st_errors st4 ++ [SaveConfigFailed] ∧
   config_file w' = config_file w ∧
   installedFeatures config' !! featureId =
     Some (mkInstalled (f_version feature) (wall_clock w)
             (installedFiles out))) ∧
  (config_unwritable w = false →
   errors out = st_errors st4 ∧
   (success out = true ↔ st_errors st4 = []) ∧
   config_file w' = Some config').
Proof.
  intros st4' Hid Hf Hrun Hok. subst st4'.
  rewrite (installFeature_run _ _ _ _ _ _ _ Hf) in Hrun. cbn zeta in Hrun.
  destruct (artifact_stages _ _ _ _ _) as [r4 st4] eqn:H4. simpl in Hok.
  subst r4. simpl.
  destruct (artifact_stages_effect config res package featureId _ _ _ H4)
    as [[_ _ _ [_ _ _ _ _ Hclock Hcu] _ _] _].
  destruct (artifact_stages_config_file package featureId config res _ _ _ H4)
    as [Hcf _].
  unfold keeps_config_file, on_state, same_config_file in Hcf.
  simpl in Hclock, Hcu, Hcf.
  destruct (install_stages_persist registry package _ _ _ _ _ _ Hf H4)
    as (r & st & Hst & Hi & Hk & Hcfg & Hsave & Hfail).
  assert (st_errors st = st_errors st4) as He.
  { unfold install_stages, mbind, M_bind in Hst. rewrite H4 in Hst.
    unfold updateInstalledFeatures in Hst. rewrite Hf in Hst.
    unfold mbind, M_bind, set_config, on_world, saveConfig in Hst.
    simpl in Hst. destruct (config_unwritable (st_world st4));
      by injection Hst as _ <-. }
  rewrite Hst in Hrun. simpl in Hrun. injection Hrun as <- <- <-.
  assert (installedFiles (outcome_of r st) = st_installed st4) as Hout
    by (destruct r; simpl; done).
  split_and!.
  - done.
  - by destruct r.
  - intros Hw. rewrite <- Hcu in Hw. destruct (Hfail Hw) as [-> Hsame].
    simpl. rewrite He, Hsame, Hcfg, lookup_assign_record, Hclock, Hi by done.
    done.
  - intros Hw. rewrite <- Hcu in Hw. destruct (Hsave Hw) as [-> ?].
    simpl. rewrite He, bool_decide_eq_true. done.
Qed.

Lemma failed_save_keeps_record_witness :
  let run := installFeature demo_registry demo_package "demo" []
               default_config unsaved_world in
  (∃ out, run.1 = Ok out ∧ success out = false ∧
          last (errors out) = Some SaveConfigFailed) ∧
  is_Some (installedFeatures run.2.1 !! "demo") ∧
  config_file run.2.2 = None.
Proof.
  intros run.
  set (out := match run.1 with Ok o => o | Err _ => mkResult false [] [] [] end).
  destruct (failed_save_keeps_record demo_registry demo_package "demo" []
              default_config unsaved_world (mk []) out run.2.1 run.2.2)
    as (_ & _ & Hfail & _); [done | by vm_compute | by_run | by vm_compute |].
  destruct Hfail as (Hs & He & Hfile & Hrec); [done|].
  split_and!.
  - exists out. split_and!; [by vm_compute | done |].
    rewrite He. apply last_snoc.
  - by rewrite Hrec.
  - by rewrite Hfile.
Defined.

(** X6. Take a run whose schema stage returns, for a feature with a seed
    file, on a seed artifact that lacks the feature's begin marker and can
    be written. When the artifact exists and cannot be read, the read throws
    before anything is appended: the outcome is a failure whose last error
    is the read error, the artifact is untouched and the record of the
    feature is not stored. Otherwise the run appends exactly the feature's
    block (the readable seed files, in order, between the two markers) to
    the seed artifact, records the artifact as installed, and leaves the
    begin marker in it. *)
Theorem installSeeds_appends_block registry package featureId res config w out
    config' w' :
  let templates := templates_of package featureId in
  let seeds := seeds_of templates in
  installFeature registry package featureId res config w =
    (Ok out, (config', w')) →
  (installSchemas config templates res (initial_state config w)).1 = Ok tt →
  seeds ≠ [] →
  includes (seed_text w) (featureCommentBlock featureId) = false →
  getSeedPath ∉ fs_unwritable w →
  if decide (seed_read_fails w)
  then
    success out = false ∧
    last (errors out) = Some (ReadFailed getSeedPath) ∧
    seed_text w' = seed_text w ∧
    installedFeatures config' !! featureId =
      installedFeatures config !! featureId
  else
    seed_text w' = seed_text w +:+ seed_block featureId seeds ∧
    getSeedPath ∈ installedFiles out ∧
    includes (seed_text w') (featureCommentBlock featureId) = true.
Proof.
  intros templates seeds Hrun Hschemas Hseeds Hinc Hwritable.
  unfold installFeature in Hrun.
  destruct (getFeature registry featureId) as [feature|]; [|done].
  destruct (install_stages _ _ _ _ _ _) as [r st] eqn:Hstages.
  injection Hrun as <- <- <-. case_decide as Hfails.
  - destruct (install_stages_seed_unreadable _ _ _ _ _ _ _ _ Hstages)
      as (-> & Htext & Hrecords); [done..|].
    simpl. split_and!; [done | apply last_snoc | done | apply Hrecords].
  - assert (installedFiles (outcome_of r st) = st_installed st) as ->
      by (by destruct r).
    destruct (install_stages_appends _ _ _ _ _ _ _ _ Hstages) as [Htext Hin];
      [done..|].
    simpl in Htext. split_and!; [done | done |].
    rewrite Htext. apply seed_block_includes.
Qed.

(** The sample feature on an empty project gets its block; on a project
    whose seed artifact cannot be read the run fails and the artifact keeps
    its text. *)
Lemma installSeeds_appends_block_witness :
  seed_text (installFeature demo_registry demo_package "demo" []
               default_config empty_world).2.2 =
  "" +:+ seed_block "demo" [mkTemplate [] "seed.sql" (Some "insert into a;")] ∧
  seed_text (installFeature demo_registry demo_package "demo" []
               default_config unreadable_seed_world).2.2 = "-- mine".
Proof.
  set (run := installFeature demo_registry demo_package "demo" []
                default_config empty_world).
  set (out := match run.1 with Ok o => o | Err _ => mkResult false [] [] [] end).
  set (run' := installFeature demo_registry demo_package "demo" []
                 default_config unreadable_seed_world).
  set (out' := match run'.1 with Ok o => o | Err _ => mkResult false [] [] [] end).
  pose proof (installSeeds_appends_block demo_registry demo_package "demo" []
                default_config empty_world out run.2.1 run.2.2) as H.
  pose proof (installSeeds_appends_block demo_registry demo_package "demo" []
                default_config unreadable_seed_world out' run'.2.1 run'.2.2)
    as H'.
  cbv zeta in H, H'.
  rewrite decide_False in H by by_compute.
  rewrite decide_True in H' by by_compute.
  split.
  - apply H; [by_run | by vm_compute | by vm_compute | by vm_compute
             | by_compute].
  - destruct H' as (_ & _ & -> & _);
      [by_run | by vm_compute | by vm_compute | by vm_compute | by_compute
      | by vm_compute].
Defined.

(** X7. The schema stage has no [catch]: when the files before [t] can be
    copied and [t] is not skipped but cannot be copied, [installFeature]
    returns a failed outcome whose only error is that copy error; only
    targets of the files before [t] are recorded or written; no scaffold
    request is made, and neither the configuration object nor its file
    changes. *)
Theorem schema_failure_stops_install registry package featureId res config w
    feature before t after :
  let target := schema_target config t in
  getFeature registry featureId = Some feature →
  t_schemas (templates_of package featureId) = Some (before ++ t :: after) →
  schemas_copyable config res before w →
  resolution_of res target ≠ Some skip →
  tf_content t = None ∨ target ∈ fs_unwritable w →
  ∃ out w',
    installFeature registry package featureId res config w =
      (Ok out, (config, w')) ∧
    success out = false ∧ errors out = [CopyFailed target] ∧
    (∀ p, p ∈ installedFiles out →
          ∃ t', t' ∈ before ∧ p = schema_target config t') ∧
    cli_calls w' = cli_calls w ∧ config_file w' = config_file w ∧
    (∀ p, (∀ t', t' ∈ before → p ≠ schema_target config t') →
          fs_files w' !! p = fs_files w !! p).
Proof.
  intros target Hf Hschemas Hcopy Hres Hfail.
  rewrite (installFeature_run _ _ _ _ _ _ _ Hf). cbn zeta.
  rewrite install_stages_split. unfold installSchemas. rewrite Hschemas.
  rewrite for_each_app.
  destruct (schema_loop_complete config res before (initial_state config w)
              Hcopy) as (st1 & Hloop & _).
  rewrite Hloop.
  pose proof (sat_for_each schema_quiet (installSchema config res) before _
                (λ x _, installSchema_quiet config res x) _ _ _ Hloop)
    as [(Herr & Hcfg & Hcalls & Hcf & Hunw) _].
  pose proof (sat_for_each _ (installSchema config res) before
                (effect_preorder _ _ _ none none)
                (λ x Hx, installSchema_effect config res before x Hx) _ _ _
                Hloop)
    as [[(i & Hi & Hiform) _ _ [_ Hfiles _ _ _ _ _] _ _] _].
  simpl in Herr, Hcfg, Hcalls, Hcf, Hunw, Hi, Hfiles.
  destruct (installSchema_fails config res t st1 Hres) as (st2 & Hstep & Hi2 & _ & Hf2).
  { destruct Hfail as [?|?]; [by left|right]. by rewrite Hunw. }
  pose proof (installSchema_quiet config res t _ _ _ Hstep)
    as [(Herr2 & Hcfg2 & Hcalls2 & Hcf2 & _) _].
  simpl. unfold mbind, M_bind. rewrite Hstep. simpl.
  rewrite Hcfg2, Hcfg. eexists _, _. split; [done|]. simpl.
  split_and!; try done.
  - by rewrite Herr2, Herr.
  - intros p. rewrite Hi2, Hi. rewrite Forall_forall in Hiform.
    intros (t' & ? & ? & _)%Hiform. by exists t'.
  - congruence.
  - congruence.
  - intros p Hp. rewrite Hf2. apply Hfiles.
    intros (t' & ? & ? & _). by eapply Hp.
Qed.

Lemma schema_failure_stops_install_witness :
  let run := installFeature demo_registry unreadable_b_package "demo" []
               default_config empty_world in
  (∃ out, run.1 = Ok out ∧
          errors out = [CopyFailed ["supabase"; "schemas"; "b.sql"]]) ∧
  cli_calls run.2.2 = [].
Proof.
  intros run.
  destruct (schema_failure_stops_install demo_registry unreadable_b_package
              "demo" [] default_config empty_world (mk [])
              [mkTemplate [] "a.sql" (Some "create table a;")]
              (mkTemplate [] "b.sql" None)
              [mkTemplate [] "c.sql" (Some "create table c;")])
    as (out & w' & Hrun & _ & Herrors & _ & Hcalls & _).
  - by vm_compute.
  - by vm_compute.
  - intros t' ->%list_elem_of_singleton _. split; [by eexists|].
    change (fs_unwritable empty_world) with (∅ : gset Path).
    apply not_elem_of_empty.
  - by vm_compute.
  - by left.
  - fold run in Hrun. rewrite Hrun. simpl. split; [by exists out|done].
Defined.

(** X8. [applyFilePrefix] maps different non-empty paths to different
    paths, so the prefix never makes two template files share a target. *)
Theorem applyFilePrefix_injective config (p q : Path) :
  p ≠ [] → q ≠ [] →
  applyFilePrefix p config = applyFilePrefix q config → p = q.
Proof.
  intros Hp Hq.
  destruct p as [|a p _] using rev_ind; [done|].
  destruct q as [|b q _] using rev_ind; [done|].
  rewrite !applyFilePrefix_snoc. intros [-> Heq]%app_inj_tail.
  by apply append_inj_r in Heq as ->.
Qed.

Lemma applyFilePrefix_injective_witness :
  applyFilePrefix ["a.sql"] prefixed_config ≠
  applyFilePrefix ["b.sql"] prefixed_config.
Proof.
  intros Heq.
  by apply (applyFilePrefix_injective prefixed_config ["a.sql"] ["b.sql"])
    in Heq.
Defined.

(** X21. A failure inside the function stage is caught per function. When
    the scaffold request for a new function fails, the request is logged,
    nothing is copied or recorded, and one error naming the function is
    added. When, under the resolution [overwrite], the files before [t] can
    be copied and [t] cannot, the files before [t] stay copied and recorded,
    the rest is not attempted, and one error naming the function is added.
    In both cases the iteration returns normally and skips nothing. *)
Theorem installFunction_failure_recorded config res fn st :
  let target := function_target config fn in
  let name := render (applyPrefix config [fn_name fn]) in
  let w := st_world st in
  let run := installFunction config res fn st in
  (directoryExists target w = false → resolution_of res target = None →
   name ∈ cli_failing w →
   run = (Ok tt,
          mkState (w_log (FunctionsNew name false) w) (st_config st)
            (st_installed st) (st_skipped st)
            (st_errors st ++
               [FunctionInstallFailed (fn_name fn)
                  (CreateFunctionFailed name)]))) ∧
  (∀ before t after,
     fn_files fn = before ++ t :: after →
     resolution_of res target = Some overwrite →
     copyable target before w →
     tf_content t = None ∨ target ++ tf_path t ∈ fs_unwritable w →
     run.1 = Ok tt ∧
     st_installed run.2 =
       st_installed st ++ ((λ t, target ++ tf_path t) <$> before) ∧
     st_skipped run.2 = st_skipped st ∧
     st_errors run.2 =
       st_errors st ++
         [FunctionInstallFailed (fn_name fn)
            (CopyFailed (target ++ tf_path t))] ∧
     fs_files (st_world run.2) =
       copy_function_files target before (fs_files w)).
Proof.
  cbv zeta. split.
  - intros Hdir Hres Hfail.
    rewrite installFunction_scaffold by done.
    unfold try_catch, mbind, M_bind, on_world, createFunction.
    by rewrite decide_True by done.
  - intros before t after Hfiles Hres Hcopy Hfail.
    rewrite installFunction_overwrite by done. rewrite Hfiles.
    set (target := function_target config fn) in *.
    unfold try_catch. rewrite for_each_app.
    destruct (copy_loop_exact target before st Hcopy)
      as (st1 & Hloop & Hi & Hk & He & Hf & _).
    pose proof (copy_loop_unwritable target before st) as Hunw.
    rewrite Hloop in *. simpl in Hunw.
    destruct (copyFunctionFile_fails target t st1)
      as (st2 & Hstep & Hi2 & Hk2 & He2 & Hf2).
    { destruct Hfail as [?|?]; [by left|right]. by rewrite Hunw. }
    simpl. unfold mbind, M_bind. rewrite Hstep. simpl.
    split_and!; rewrite ?Hi2, ?Hk2, ?He2, ?Hf2, ?Hi, ?Hk, ?He, ?Hf; done.
Qed.

Lemma installFunction_failure_recorded_witness :
  let fn := mkFunction "foo" [mkTemplate [] "index.ts" (Some "serve();")] in
  let run := installFunction default_config [] fn
               (initial_state default_config failing_foo_world) in
  st_errors run.2 =
    [FunctionInstallFailed "foo" (CreateFunctionFailed "foo")] ∧
  st_installed run.2 = [].
Proof.
  intros fn run.
  destruct (installFunction_failure_recorded default_config [] fn
              (initial_state default_config failing_foo_world)) as [Hrun _].
  fold run in Hrun. rewrite Hrun; [done | by vm_compute | by vm_compute |].
  by_compute.
Defined.

(** X22. One iteration of the migration stage always returns normally and
    skips nothing. A template that cannot be read adds one error and touches
    nothing; a failed scaffold request is logged, adds one error and writes
    nothing; after a successful request for a new artifact, a write that
    fails leaves the empty artifact on disk, unrecorded, with one error, and
    a write that succeeds puts the template's content in the artifact and
    records it. *)
Theorem installMigration_failure_recorded config t st :
  let w := st_world st in
  let name := migration_name config t in
  let file := pretty (cli_clock w) +:+ "_" +:+ name +:+ ".sql" in
  let target := getMigrationsPath ++ [file] in
  let run := installMigration config t st in
  let failed cause :=
    st_errors st ++ [MigrationInstallFailed (tf_path t) cause] in
  run.1 = Ok tt ∧
  st_skipped run.2 = st_skipped st ∧
  (tf_content t = None →
   st_world run.2 = w ∧ st_installed run.2 = st_installed st ∧
   st_errors run.2 = failed (ReadFailed (tf_path t))) ∧
  (is_Some (tf_content t) → name ∈ cli_failing w →
   st_world run.2 = w_log (MigrationNew name None) w ∧
   st_installed run.2 = st_installed st ∧
   st_errors run.2 = failed (CreateMigrationFailed name)) ∧
  (∀ content, tf_content t = Some content → name ∉ cli_failing w →
     fs_files w !! target = None →
     cli_calls (st_world run.2) = cli_calls w ++ [MigrationNew name (Some file)] ∧
     if decide (target ∈ fs_unwritable w) then
       fs_files (st_world run.2) = <[target := ""]> (fs_files w) ∧
       st_installed run.2 = st_installed st ∧
       st_errors run.2 = failed (WriteFailed target)
     else
       fs_files (st_world run.2) = <[target := content]> (fs_files w) ∧
       st_installed run.2 = st_installed st ++ [target] ∧
       st_errors run.2 = st_errors st).
Proof.
  cbv zeta. split; [by apply try_catch_ok|].
  unfold installMigration, try_catch, mbind, M_bind, on_world, readFile.
  fold (migration_name config t).
  destruct (tf_content t) as [content|] eqn:Hcontent; simpl.
  2:{ split_and!; try done; try (by intros [? ?]). }
  unfold createMigration. simpl.
  destruct (decide (migration_name config t ∈ cli_failing (st_world st)))
    as [Hfail|Hfail]; simpl.
  { split_and!; try done. }
  destruct (fileExists _ (st_world st)) eqn:Hex; simpl.
  { split_and!; try done. intros c _ _ Hnone.
    unfold fileExists in Hex. rewrite Hnone in Hex.
    apply bool_decide_eq_true in Hex. by destruct Hex. }
  unfold writeFile. simpl.
  destruct (decide (_ ∈ fs_unwritable (st_world st))) as [Hw|Hw]; simpl.
  - by split_and!.
  - split_and!; try done. intros c [= <-] _ _.
    by rewrite insert_insert_eq.
Qed.

Lemma installMigration_failure_recorded_witness :
  let t := mkTemplate [] "init.sql" (Some "alter table a;") in
  let run := installMigration default_config t
               (initial_state default_config readonly_migration_world) in
  fs_files (st_world run.2) !! ["supabase"; "migrations"; "0_init.sql"]
    = Some "" ∧
  st_installed run.2 = [] ∧
  st_errors run.2 =
    [MigrationInstallFailed ["init.sql"]
       (WriteFailed ["supabase"; "migrations"; "0_init.sql"])].
Proof.
  intros t run.
  destruct (installMigration_failure_recorded default_config t
              (initial_state default_config readonly_migration_world))
    as (_ & _ & _ & _ & Hwrite).
  destruct (Hwrite "alter table a;") as [_ Hcase];
    [done | by_compute | by vm_compute |].
  rewrite decide_True in Hcase by by_compute.
  fold run in Hcase. destruct Hcase as (-> & -> & ->). by vm_compute.
Defined.

End InstallerPropertyTheorems.

(** * Facts about directory listings *)

Module FileOperationsFacts.
Import Installer FileOperations.

Lemma entry_files_directory recursive dirPath name entries :
  entry_files recursive dirPath (DirectoryEntry name entries) =
  if recursive then entries ≫= entry_files recursive (dirPath ++ [name])
  else [].
Proof.
  simpl. destruct recursive; [|done].
  induction entries as [|e l IH]; [done|]. by rewrite IH.
Qed.

Lemma distinct_names_directory name entries :
  distinct_names (DirectoryEntry name entries) ↔
  NoDup (entry_name <$> entries) ∧ Forall distinct_names entries.
Proof.
  simpl. apply and_iff_compat_l.
  induction entries as [|e l IH]; [by split; [constructor|]|].
  rewrite Forall_cons, IH. done.
Qed.

(** Every listed file lies below the entry it was found in. *)
Lemma entry_files_below recursive dirPath entry f :
  f ∈ entry_files recursive dirPath entry →
  ∃ rest, f = dirPath ++ entry_name entry :: rest.
Proof.
  revert dirPath. induction entry as [name|name entries IH|name]
    using Entry_tree_ind; intros dirPath.
  - intros ->%list_elem_of_singleton. by exists [].
  - rewrite entry_files_directory. destruct recursive; [|by intros []%elem_of_nil].
    intros (e & Hf & He)%list_elem_of_bind.
    rewrite Forall_forall in IH.
    destruct (IH e He _ Hf) as [rest ->]. simpl.
    exists (entry_name e :: rest). by rewrite <- app_assoc.
  - by intros []%elem_of_nil.
Qed.

(** Entries with different names list different files. *)
Lemma entries_files_NoDup recursive dirPath entries :
  Forall (λ e, ∀ dir, NoDup (entry_files recursive dir e)) entries →
  NoDup (entry_name <$> entries) →
  NoDup (entries ≫= entry_files recursive dirPath).
Proof.
  intros Hall Hnd. rewrite Forall_forall in Hall. apply NoDup_bind.
  - intros e1 e2 f He1 He2 [r1 ->]%entry_files_below [r2 Heq]%entry_files_below.
    apply app_inv_head in Heq. injection Heq as Hname _.
    apply list_elem_of_lookup in He1 as [i Hi], He2 as [j Hj].
    assert (i = j) as ->; [|congruence].
    eapply NoDup_lookup; [done| |]; rewrite list_lookup_fmap.
    + by rewrite Hi.
    + rewrite Hj. simpl. by rewrite Hname.
  - intros e He. by apply Hall.
  - by eapply NoDup_fmap_1.
Qed.

Lemma entry_files_NoDup recursive entry dirPath :
  distinct_names entry → NoDup (entry_files recursive dirPath entry).
Proof.
  revert dirPath. induction entry as [name|name entries IH|name]
    using Entry_tree_ind; intros dirPath Hwf.
  - apply NoDup_singleton.
  - rewrite entry_files_directory. destruct recursive; [|constructor].
    apply distinct_names_directory in Hwf as [Hnd Hall].
    apply entries_files_NoDup; [|done].
    rewrite Forall_forall in IH, Hall |- *. intros e He dir.
    by apply IH, Hall.
  - constructor.
Qed.

Lemma entry_files_not_recursive dirPath entry :
  entry_files false dirPath entry =
  match entry with
  | FileEntry name => [dirPath ++ [name]]
  | _ => []
  end.
Proof. by destruct entry. Qed.

Lemma entry_files_sublist dirPath entry :
  entry_files false dirPath entry `sublist_of` entry_files true dirPath entry.
Proof.
  destruct entry; simpl; [done| |done]. apply sublist_nil_l.
Qed.

End FileOperationsFacts.

(** * Theorems about directory listings *)

Module FileOperationsTheorems.
Import Installer FileOperations FileOperationsFacts Evaluation.

(** X18. [getFilesInDirectory] returns nothing for a path that is no
    directory; every path it returns lies strictly below the directory; when
    the names in each directory of the tree are distinct, no path is
    returned twice; without recursion it returns the regular files of the
    directory itself, which are among those returned with recursion, in the
    same order. *)
Theorem getFilesInDirectory_listing dir dirPath recursive :
  let listing := getFilesInDirectory dir dirPath recursive in
  (dir = None → listing = []) ∧
  (∀ f, f ∈ listing → ∃ rel, rel ≠ [] ∧ f = dirPath ++ rel) ∧
  (∀ entries, dir = Some entries →
     NoDup (entry_name <$> entries) → Forall distinct_names entries →
     NoDup listing) ∧
  (∀ entries, dir = Some entries →
     getFilesInDirectory dir dirPath false =
       omap (λ entry, match entry with
                      | FileEntry name => Some (dirPath ++ [name])
                      | _ => None
                      end) entries) ∧
  getFilesInDirectory dir dirPath false `sublist_of`
    getFilesInDirectory dir dirPath true.
Proof.
  intros listing. unfold listing. split_and!.
  - by intros ->.
  - destruct dir as [entries|]; [|by intros ? []%elem_of_nil]. simpl.
    intros f (e & [rest ->]%entry_files_below & _)%list_elem_of_bind.
    by exists (entry_name e :: rest).
  - intros entries -> Hnd Hall. simpl.
    apply entries_files_NoDup; [|done].
    rewrite Forall_forall in Hall |- *. intros e He d.
    by apply entry_files_NoDup, Hall.
  - intros entries ->. simpl.
    induction entries as [|e l IH]; [done|].
    rewrite bind_cons, IH, entry_files_not_recursive. by destruct e.
  - destruct dir as [entries|]; [|done]. simpl.
    induction entries as [|e l IH]; [done|].
    rewrite !bind_cons. apply sublist_app; [apply entry_files_sublist | done].
Qed.

Lemma getFilesInDirectory_listing_witness :
  NoDup (getFilesInDirectory (Some sample_tree) ["schemas"] true) ∧
  getFilesInDirectory (Some sample_tree) ["schemas"] true =
    [["schemas"; "a.sql"]; ["schemas"; "nested"; "a.sql"];
     ["schemas"; "b.sql"]].
Proof.
  split; [|by vm_compute].
  destruct (getFilesInDirectory_listing (Some sample_tree) ["schemas"] true)
    as (_ & _ & Hnd & _).
  apply (Hnd sample_tree); [done | by_compute |].
  repeat constructor; by_compute.
Defined.

End FileOperationsTheorems.

(** * Facts about the project directory *)

Module ProjectFacts.
Import Installer InstallerFacts Project.

Lemma dirname_last (p : Path) : p ≠ [] → ∃ seg, p = dirname p ++ [seg].
Proof.
  intros Hp. destruct (decide (p = [])) as [|_]; [done|].
  induction p as [|a p IH] using rev_ind; [done|].
  exists a. by rewrite dirname_snoc.
Qed.

Lemma existsSync_lookup (disk : Disk) p :
  existsSync disk p = match disk !! p with Some _ => true | None => false end.
Proof.
  unfold existsSync. destruct (disk !! p).
  - by apply bool_decide_eq_true_2.
  - apply bool_decide_eq_false_2. by intros [? ?].
Qed.

Lemma isDirectory_lookup (disk : Disk) p :
  isDirectory disk p =
  match disk !! p with Some IsDirectory => true | _ => false end.
Proof.
  unfold isDirectory. destruct (disk !! p) as [[]|].
  - by apply bool_decide_eq_false_2.
  - by apply bool_decide_eq_true_2.
  - by apply bool_decide_eq_false_2.
Qed.

Lemma prefix_snoc_cases {A} (k l : list A) x :
  k `prefix_of` l ++ [x] → k `prefix_of` l ∨ k = l ++ [x].
Proof.
  intros [rest Heq]. destruct rest as [|y rest _] using rev_ind.
  - right. by rewrite app_nil_r in Heq.
  - left. rewrite app_assoc in Heq. apply app_inj_tail in Heq as [-> _].
    by exists rest.
Qed.

(** The directories the loop visits from [currentDir] are its non-empty
    prefixes, longest first. *)
Lemma findConfigFile_loop_spec fuel disk currentDir :
  length currentDir ≤ fuel →
  ∃ r, findConfigFile_loop fuel disk currentDir = Some r ∧
    match r with
    | Some configPath =>
        ∃ dir, dir `prefix_of` currentDir ∧ dir ≠ [] ∧
          configPath = dir ++ [CONFIG_FILE_NAME] ∧
          existsSync disk configPath = true ∧
          ∀ dir', dir' `prefix_of` currentDir → length dir < length dir' →
                  existsSync disk (dir' ++ [CONFIG_FILE_NAME]) = false
    | None =>
        ∀ dir, dir `prefix_of` currentDir → dir ≠ [] →
               existsSync disk (dir ++ [CONFIG_FILE_NAME]) = false
    end.
Proof.
  revert currentDir. induction fuel as [|fuel IH]; intros cur Hlen.
  - destruct cur; [|simpl in Hlen; lia]. exists None. split; [done|].
    intros dir Hdir Hne. apply prefix_nil_inv in Hdir. done.
  - simpl. case_decide as Hcur.
    { subst. exists None. split; [done|].
      intros dir Hdir Hne. by apply prefix_nil_inv in Hdir. }
    destruct (dirname_last cur Hcur) as [seg Hseg].
    assert (∀ dir, dir `prefix_of` cur → dir = cur ∨ dir `prefix_of` dirname cur)
      as Hprefix.
    { intros dir Hdir. rewrite Hseg in Hdir.
      apply prefix_snoc_cases in Hdir as [?|?]; [right; done|left].
      by rewrite Hseg. }
    destruct (existsSync disk (cur ++ [CONFIG_FILE_NAME])) eqn:Hex.
    + exists (Some (cur ++ [CONFIG_FILE_NAME])). split; [done|].
      exists cur. split_and!; [done..|].
      intros dir' Hdir' Hlt. apply prefix_length in Hdir'. lia.
    + destruct (IH (dirname cur)) as (r & -> & Hr).
      { rewrite Hseg, length_app in Hlen. simpl in Hlen. lia. }
      exists r. split; [done|]. destruct r as [configPath|].
      * destruct Hr as (dir & Hdir & Hne & -> & Hfound & Hnearest).
        exists dir. split_and!; try done.
        -- etrans; [done|]. rewrite Hseg at 2. by apply prefix_app_r.
        -- intros dir' [->|Hdir']%Hprefix Hlt; [done|]. by apply Hnearest.
      * intros dir [->|Hdir]%Hprefix Hne; [done|]. by apply Hr.
Qed.

End ProjectFacts.

(** * Theorems about the project directory *)

Module ProjectTheorems.
Import Installer Project ProjectFacts Evaluation.

(** X19. [findConfigFile] ends for every start directory. It returns the
    configuration file of the nearest directory, from the start directory
    upwards, that has one; the root directory itself is never examined, so
    a file there is not found. *)
Theorem findConfigFile_nearest disk startDir :
  ∃ r, findConfigFile disk startDir = Some r ∧
    match r with
    | Some configPath =>
        ∃ dir, dir `prefix_of` startDir ∧ dir ≠ [] ∧
          configPath = dir ++ [CONFIG_FILE_NAME] ∧
          existsSync disk configPath = true ∧
          ∀ dir', dir' `prefix_of` startDir → length dir < length dir' →
                  existsSync disk (dir' ++ [CONFIG_FILE_NAME]) = false
    | None =>
        ∀ dir, dir `prefix_of` startDir → dir ≠ [] →
               existsSync disk (dir ++ [CONFIG_FILE_NAME]) = false
    end.
Proof. by apply findConfigFile_loop_spec. Qed.

(** X20. [validateProject] returns normally exactly when
    [isSupabaseProject] holds. It throws the missing-directory error when
    [supabase] does not exist and the not-a-directory error when it is a
    file, and it warns about exactly those of [migrations] and [functions]
    that do not exist. *)
Theorem validateProject_iff_isSupabaseProject disk projectPath :
  let supabasePath := projectPath ++ ["supabase"] in
  (isSupabaseProject disk projectPath = true ↔
   ∃ warnings, validateProject disk projectPath = Ok warnings) ∧
  (∀ warnings, validateProject disk projectPath = Ok warnings →
     ∀ dir, dir ∈ warnings ↔
            dir ∈ ["migrations"; "functions"] ∧
            disk !! (supabasePath ++ [dir]) = None) ∧
  (validateProject disk projectPath = Err NoSupabaseDirectory ↔
   disk !! supabasePath = None) ∧
  (validateProject disk projectPath = Err SupabaseNotADirectory ↔
   disk !! supabasePath = Some IsFile).
Proof.
  intros supabasePath. unfold isSupabaseProject, validateProject.
  cbv zeta. fold supabasePath.
  rewrite !existsSync_lookup, isDirectory_lookup.
  destruct (disk !! supabasePath) as [[]|] eqn:Hs; simpl.
  - split_and!; try done; split; try done. by intros [? ?].
  - destruct (disk !! (supabasePath ++ ["config.toml"])); simpl.
    + split_and!; try done; [split; eauto|].
      intros warnings [= <-] dir. rewrite list_elem_of_filter.
      rewrite existsSync_lookup.
      destruct (disk !! (supabasePath ++ [dir])); naive_solver.
    + split_and!; try done. split; [done|]. by intros [? ?].
  - split_and!; try done. split; [done|]. by intros [? ?].
Qed.

End ProjectTheorems.

(** * Theorems about the install command *)

Module CommandsTheorems.
Import Registry RegistryFacts Installer InstallerFacts Commands CommandsFacts
  Invariants InstallerProperties DependencyFacts LoopFacts QueriesFacts
  Evaluation.

(** X14. For a validated registry and one of its keys, the dependencies
    [installCommand] installs first are the transitive dependencies of the
    feature for which [config.installedFeatures[dep]] is falsy, each once:
    those that have no record and are not named like a member of
    [Object.prototype]. When a dependency's turn comes, all of its own
    dependencies of that kind come earlier in the list. A dependency that
    [checkDependencies] reports as missing is in the list unless it bears
    such a name: then it is reported missing and yet not installed. *)
Theorem missingDeps_order registry featureId config :
  let features := registry_features registry in
  let installed dep := installed_get config dep in
  validateRegistry registry = Some (Ok tt) →
  is_Some (lookup_feature features featureId) →
  ∃ l, missingDeps registry featureId config = Some (Ok l) ∧
    NoDup l ∧
    (∀ dep, dep ∈ l ↔ tc (edge features) featureId dep ∧ ¬ installed dep) ∧
    (∀ l1 dep l2, l = l1 ++ dep :: l2 →
       ∀ d, tc (edge features) dep d → ¬ installed d → d ∈ l1) ∧
    (∀ satisfied missing,
       checkDependencies registry featureId config = Ok (satisfied, missing) →
       ∀ dep, dep ∈ missing → dep ∈ l ∨ dep ∈ object_prototype).
Proof.
  intros features installed Hvalid [f Hf].
  destruct (validateRegistry_ok _ Hvalid) as (fs & Hfs & Hall & Hknown & Hacyc).
  assert (features = fs) as Hfeat
    by (unfold features, registry_features; by rewrite Hfs).
  unfold missingDeps, resolveDependencies, loadRegistry. rewrite Hvalid.
  fold features. rewrite Hfeat in *. rewrite (features_get_own _ _ _ Hf).
  destruct (resolve_top fs Hknown Hacyc (complete_arrays fs Hall) featureId)
    as (st & -> & Hnd & Hin & _ & Hord); [eauto|].
  set (P := λ dep, dep ≠ featureId ∧ ¬ installed_get config dep).
  assert (∀ dep, dep ∈ filter P (resolved st) ↔
                 tc (edge fs) featureId dep ∧ ¬ installed dep) as Hmem.
  { intros dep. rewrite list_elem_of_filter, Hin. unfold P. split.
    - intros [[Hne ?] Hrtc]. split; [|done].
      apply rtc_tc in Hrtc as [?|?]; [by subst|done].
    - intros [Htc ?]. split_and!; [|done|by apply tc_rtc].
      intros ->. apply Hacyc. by exists featureId. }
  eexists. split; [done|]. split_and!.
  - by apply NoDup_filter.
  - done.
  - intros l1 dep l2 Hl d Hd Hnot.
    assert (dep ∈ filter P (resolved st)) as Hdep
      by (rewrite Hl; set_solver).
    pose proof Hdep as [HPdep Hdall']%list_elem_of_filter.
    apply list_elem_of_split in Hdall' as (a1 & a2 & Ha).
    assert (l1 = filter P a1) as ->.
    { apply (NoDup_split_unique _ l2 _ (filter P a2) dep).
      - rewrite <- Hl. by apply NoDup_filter.
      - rewrite <- Hl, Ha, filter_app, filter_cons_True by done. done. }
    assert (d ∈ filter P (resolved st)) as Hdin.
    { apply Hmem. split; [|done].
      apply Hmem in Hdep as [Hfd _]. by etrans. }
    apply list_elem_of_filter in Hdin as [HPd Hdall].
    apply list_elem_of_filter. split; [done|].
    apply list_elem_of_lookup in Hdall as [j Hj].
    assert (resolved st !! length a1 = Some dep) as Hi
      by (rewrite Ha; apply list_lookup_middle; done).
    pose proof (Hord dep d (length a1) j Hd Hi Hj) as Hlt.
    rewrite Ha, lookup_app_l in Hj by done.
    by eapply list_elem_of_lookup_2.
  - intros satisfied missing. unfold checkDependencies, getFeature.
    fold features. rewrite Hfeat, (features_get_own _ _ _ Hf).
    destruct (complete_arrays fs Hall _ _ Hf) as [ids Hids]. rewrite Hids.
    intros [= _ <-] dep [Hnot Hdep]%list_elem_of_filter.
    destruct (decide (dep ∈ object_prototype)) as [?|Hname]; [by right|].
    left. apply Hmem. split.
    + apply tc_once. unfold edge, deps_of, deps_list. by rewrite Hf, Hids.
    + unfold installed, installed_get. rewrite <- elem_of_dom. tauto.
Qed.

Lemma missingDeps_order_witness :
  missingDeps abc "c" installed_abc = Some (Ok ["b"]) ∧
  missingDeps inherited_name "app" default_config = Some (Ok []) ∧
  checkDependencies inherited_name "app" default_config =
    Ok (false, ["constructor"]) ∧
  ∃ l, missingDeps abc "c" default_config = Some (Ok l) ∧ NoDup l.
Proof.
  split_and!; [by vm_compute..|].
  destruct (missingDeps_order abc "c" default_config) as (l & ? & ? & _);
    [by vm_compute | vm_compute; by eexists |].
  by exists l.
Defined.

(** X15. The resolutions [installCommand] hands to [installFeature] come
    from [analyzeConflicts] through [handleFileConflicts]: they name the
    same paths, every entry carries an action, and so every schema target
    that exists as a file and every function target that exists as a
    directory has a resolution. *)
Theorem installCommand_resolves_every_conflict registry package featureId
    config w user conflicts res :
  let templates := templates_of package featureId in
  analyzeConflicts registry package featureId config w = Ok conflicts →
  conflictResolutions user conflicts = Ok res →
  Forall (λ c, is_Some (cf_action c)) res ∧
  cf_path <$> res = cf_path <$> conflicts ∧
  (∀ t, t ∈ schemas_of templates →
        fileExists (schema_target config t) w = true →
        is_Some (resolution_of res (schema_target config t))) ∧
  (∀ fn, fn ∈ functions_of templates →
         directoryExists (function_target config fn) w = true →
         is_Some (resolution_of res (function_target config fn))).
Proof.
  intros templates Hconflicts Hres.
  assert (Forall (λ c, is_Some (cf_action c)) res ∧
          cf_path <$> res = cf_path <$> conflicts) as [Hall Hpaths].
  { unfold conflictResolutions, handleFileConflicts in Hres.
    destruct conflicts as [|c l]; [by simplify_eq|].
    destruct (proceed user); [|done]. injection Hres as <-.
    split; [apply (imap_resolved (choose user) (c :: l))
           | apply (imap_paths (choose user) (c :: l))]. }
  unfold analyzeConflicts in Hconflicts.
  destruct (getFeature registry featureId); [|done].
  unfold templates, templates_of.
  destruct (package !! featureId) as [tpl|]; [|done]. simpl.
  injection Hconflicts as <-.
  split_and!; [done..| |].
  - intros t Ht Hex. apply resolution_of_resolved; [done|].
    rewrite Hpaths, fmap_app. apply elem_of_app. left.
    apply list_elem_of_fmap. exists (mkConflict (schema_target config t) true None).
    split; [done|]. unfold schema_conflicts. apply list_elem_of_omap.
    exists t. split; [done|]. fold (schema_target config t). by rewrite Hex.
  - intros fn Hfn Hex. apply resolution_of_resolved; [done|].
    rewrite Hpaths, fmap_app. apply elem_of_app. right.
    apply list_elem_of_fmap.
    exists (mkConflict (function_target config fn) true None).
    split; [done|]. unfold function_conflicts. apply list_elem_of_omap.
    exists fn. split; [done|]. fold (function_target config fn). by rewrite Hex.
Qed.

Lemma installCommand_resolves_every_conflict_witness :
  let a := mkTemplate [] "a.sql" (Some "create table a;") in
  resolution_of [mkConflict ["supabase"; "schemas"; "a.sql"] true (Some skip)]
    (schema_target default_config a) = Some skip.
Proof.
  intros a.
  destruct (installCommand_resolves_every_conflict demo_registry demo_package
              "demo" default_config existing_a_world always_skip
              [mkConflict ["supabase"; "schemas"; "a.sql"] true None]
              [mkConflict ["supabase"; "schemas"; "a.sql"] true (Some skip)])
    as (_ & _ & Hschema & _); [by vm_compute | by vm_compute |].
  destruct (Hschema a) as [action Haction];
    [vm_compute; apply list_elem_of_here | by vm_compute |].
  rewrite Haction. by vm_compute in Haction.
Defined.

(** X16. A dependency is installed with every reported conflict set to
    [overwrite]. When the schema directory of the project does not lie below
    [supabase/functions] and the function templates have different names,
    such a run skips nothing; [installFeatureRecursive] returns normally
    exactly when the outcome has no error. *)
Theorem installFeatureRecursive_never_skips registry package featureId config w
    r out config' w' :
  let templates := templates_of package featureId in
  ¬ getFunctionsPath `prefix_of` sourceDir config →
  NoDup (fn_name <$> functions_of templates) →
  installFeatureRecursive registry package featureId config w =
    (r, Some out, (config', w')) →
  skippedFiles out = [] ∧ (r = Ok tt ↔ errors out = []).
Proof.
  intros templates Hsd Hnd. unfold installFeatureRecursive.
  destruct (analyzeConflicts registry package featureId config w)
    as [conflicts|e] eqn:Hconflicts; [|done].
  set (res := overwrite_all conflicts).
  destruct (installFeature _ _ _ res _ _) as [[result|e] after] eqn:Hrun;
    [|done].
  intros Hout.
  assert (out = result ∧ (r = Ok tt ↔ success result = true)) as [-> Hr].
  { destruct (success result); simplify_eq; by split. }
  assert (r = Ok tt ↔ errors result = []) as Herrors.
  { rewrite Hr. unfold installFeature in Hrun.
    destruct (getFeature registry featureId); [|done].
    destruct (install_stages _ _ _ _ _ _) as [[[]|e] st]; simplify_eq; simpl.
    - apply bool_decide_eq_true.
    - split; [done|]. intros Heq. by destruct (st_errors st). }
  split; [|done]. clear Hout Hr Herrors r.
  assert (∀ p, resolution_of res p ≠ Some skip) as Hskip.
  { intros p. unfold res. rewrite overwrite_all_resolution. by case_decide. }
  unfold analyzeConflicts in Hconflicts. unfold installFeature in Hrun.
  destruct (getFeature registry featureId) as [feature|]; [|done].
  destruct (package !! featureId) as [tpl|] eqn:Htpl; [|done].
  assert (templates = tpl) as Htemplates
    by (unfold templates, templates_of; by rewrite Htpl).
  injection Hconflicts as Hconflicts.
  assert (overwrite_existing config res (functions_of templates) w) as Hex.
  { intros fn Hfn Hdir. unfold res. rewrite overwrite_all_resolution.
    rewrite decide_True; [done|]. rewrite <- Hconflicts, fmap_app.
    apply elem_of_app. right. apply list_elem_of_fmap.
    exists (mkConflict (function_target config fn) true None).
    split; [done|]. unfold function_conflicts. apply list_elem_of_omap.
    exists fn. rewrite Htemplates in Hfn. split; [done|].
    fold (function_target config fn). by rewrite Hdir. }
  destruct (install_stages _ _ _ _ _ _) as [r st] eqn:Hstages.
  injection Hrun as <- _.
  assert (skippedFiles (outcome_of r st) = st_skipped st) as ->
    by (by destruct r).
  unfold install_stages, artifact_stages, later_stages, mbind, M_bind
    in Hstages. fold templates in Hstages.
  destruct (installSchemas config templates res _) as [r1 st1] eqn:H1.
  assert (st_skipped st1 = []) as Hs1.
  { destruct (installSchemas_effect config res templates _ _ _ H1)
      as [[_ (new & -> & Hnew) _ _ _ _] _]. simpl.
    destruct new as [|q new]; [done|].
    apply Forall_cons in Hnew as [(t & _ & _ & Hq) _]. by destruct (Hskip q). }
  destruct r1 as [[]|e1]; [|by simplify_eq].
  destruct (installMigrations config templates st1) as [r2 st2] eqn:H2.
  pose proof (installMigrations_ok config templates st1) as Hok2.
  rewrite H2 in Hok2. simpl in Hok2. subst r2.
  destruct (installFunctions config templates res st2) as [r3 st3] eqn:H3.
  pose proof (installFunctions_ok config templates res st2) as Hok3.
  rewrite H3 in Hok3. simpl in Hok3. subst r3.
  destruct (installSeeds featureId templates st3) as [r4 st4] eqn:H4.
  destruct (installMigrations_effect config templates _ _ _ H2) as [Hs2 _].
  apply no_new_skips in Hs2.
  destruct (installSeeds_effect featureId templates _ _ _ H4) as [Hs4 _].
  apply no_new_skips in Hs4.
  assert (st_skipped st = st_skipped st4) as ->.
  { destruct r4 as [[]|e4]; [|by simplify_eq].
    destruct (updateInstalledFeatures_effect registry featureId _ _ _ Hstages)
      as [Hs5 _].
    by apply no_new_skips in Hs5. }
  rewrite Hs4.
  assert (st_skipped st3 = st_skipped st2) as ->; [|congruence].
  destruct (installSchemas_toward config templates res _ _ _ H1) as [Hd1 _].
  destruct (installMigrations_toward config templates _ _ _ H2) as [Hd2 _].
  unfold on_state in Hd1, Hd2. simpl in Hd1.
  unfold installFunctions in H3. fold (functions_of templates) in Hex, Hnd.
  unfold functions_of in Hex, Hnd.
  destruct (t_functions templates) as [fns|];
    [|unfold mret, M_ret in H3; by simplify_eq].
  simpl in Hex, Hnd.
  pose proof (functions_never_skipped config res fns st2 Hnd Hskip) as Hloop.
  rewrite H3 in Hloop. apply Hloop.
  intros fn Hfn Hdir. apply Hex; [done|].
  unfold directoryExists in *. rewrite bool_decide_eq_true in *.
  apply Hd2 in Hdir as [Hdir|(rest & _ & file & Heq)].
  - apply Hd1 in Hdir as [?|(rest & _ & t & Heq)]; [done|].
    symmetry in Heq. by apply schema_not_function_file in Heq.
  - by apply function_file_not_migration in Heq.
Qed.

Lemma installFeatureRecursive_never_skips_witness :
  let run := installFeatureRecursive demo_registry demo_package "demo"
               default_config existing_foo_world in
  run.1.1 = Ok tt ∧
  (∃ out, run.1.2 = Some out ∧ skippedFiles out = []) ∧
  fs_files run.2.2 !! ["supabase"; "functions"; "foo"; "index.ts"]
    = Some "serve();".
Proof.
  intros run.
  set (out := default (mkResult false [] [] []) run.1.2).
  destruct (installFeatureRecursive_never_skips demo_registry demo_package
              "demo" default_config existing_foo_world run.1.1 out
              run.2.1 run.2.2) as [Hskipped _].
  - by_compute.
  - by_compute.
  - apply dependency_run_eta. vm_compute. reflexivity.
  - split_and!; [by vm_compute | exists out; split; [by vm_compute|done]
                 | by vm_compute].
Defined.

(** X17. When the loop over the missing dependencies of a feature ends
    without an error, every transitive dependency of the feature that is not
    named like a member of [Object.prototype] has a record in the
    configuration, and whatever [checkDependencies] still reports as missing
    for the feature bears such a name. For a registry none of whose keys is
    such a name, [checkDependencies] reports the feature satisfied. *)
Theorem dependencies_satisfied_after_loop registry package featureId config w
    deps config' w' :
  validateRegistry registry = Some (Ok tt) →
  missingDeps registry featureId config = Some (Ok deps) →
  install_dependencies registry package deps config w =
    (Ok tt, (config', w')) →
  (∀ dep, tc (edge (registry_features registry)) featureId dep →
          dep ∉ object_prototype →
          is_Some (installedFeatures config' !! dep)) ∧
  (∃ missing,
     checkDependencies registry featureId config' =
       Ok (bool_decide (missing = []), missing) ∧
     ∀ dep, dep ∈ missing → dep ∈ object_prototype) ∧
  (Forall (λ id, id ∉ object_prototype)
     (feature_ids (registry_features registry)) →
   checkDependencies registry featureId config' = Ok (true, [])).
Proof.
  intros Hvalid Hmissing Hloop.
  destruct (validateRegistry_ok _ Hvalid) as (fs & Hfs & Hcomplete & Hknown & Hacyc).
  assert (registry_features registry = fs) as Hfeat
    by (unfold registry_features; by rewrite Hfs).
  unfold missingDeps, resolveDependencies, loadRegistry in Hmissing.
  rewrite Hvalid, Hfeat in Hmissing.
  destruct (lookup_feature fs featureId) as [f|] eqn:Hf.
  2:{ unfold features_get in Hmissing. rewrite Hf in Hmissing.
      case_decide; [|done]. simpl in Hmissing.
      rewrite decide_False in Hmissing by set_solver.
      unfold features_get in Hmissing.
      by rewrite Hf, decide_True in Hmissing by done. }
  rewrite (features_get_own _ _ _ Hf) in Hmissing.
  destruct (resolve_top fs Hknown Hacyc (complete_arrays fs Hcomplete)
              featureId)
    as (st & Hst & _ & Hall & _); [eauto|].
  rewrite Hst in Hmissing. injection Hmissing as <-.
  assert ("__proto__" ∉
            filter (λ dep, dep ≠ featureId ∧ ¬ installed_get config dep)
              (resolved st)) as Hproto.
  { rewrite list_elem_of_filter. intros [[_ Hno] _]. apply Hno. right.
    by_compute. }
  destruct (install_dependencies_records _ _ _ _ _ _ _ Hproto Hloop)
    as [Hin Hkeep].
  assert (∀ dep, tc (edge fs) featureId dep → dep ∉ object_prototype →
                 is_Some (installedFeatures config' !! dep)) as Hdeps.
  { intros dep Htc Hname.
    destruct (decide (is_Some (installedFeatures config !! dep)));
      [by apply Hkeep|].
    apply Hin, list_elem_of_filter. split_and!.
    - intros ->. apply Hacyc. by exists featureId.
    - unfold installed_get. tauto.
    - by apply Hall, tc_rtc. }
  destruct (complete_arrays fs Hcomplete _ _ Hf) as [ids Hids].
  assert (∀ dep, dep ∈ ids → edge fs featureId dep) as Hedge.
  { intros dep ?. unfold edge, deps_of, deps_list. by rewrite Hf, Hids. }
  rewrite Hfeat. split_and!; [done | |].
  - eexists. unfold checkDependencies, getFeature.
    rewrite Hfeat, (features_get_own _ _ _ Hf), Hids. split; [done|].
    intros dep [Hnot Hdep]%list_elem_of_filter.
    destruct (decide (dep ∈ object_prototype)) as [?|Hname]; [done|].
    destruct Hnot. apply elem_of_dom, Hdeps; [|done]. by apply tc_once, Hedge.
  - intros Hnames. unfold checkDependencies, getFeature.
    rewrite Hfeat, (features_get_own _ _ _ Hf), Hids.
    assert (filter (λ dep, dep ∉ dom (installedFeatures config')) ids = [])
      as ->; [|done].
    apply QueriesFacts.filter_none. intros dep Hdep Hnot. apply Hnot.
    apply elem_of_dom, Hdeps; [by apply tc_once, Hedge|].
    destruct (Hknown _ _ (Hedge dep Hdep)) as [g Hg].
    rewrite Forall_forall in Hnames. apply Hnames.
    by eapply lookup_feature_Some_elem.
Qed.

Lemma dependencies_satisfied_after_loop_witness :
  let after := install_dependencies abc abc_package ["a"; "b"] default_config
                 empty_world in
  after.1 = Ok tt ∧
  checkDependencies abc "c" after.2.1 = Ok (true, []).
Proof.
  intros after. split; [by vm_compute|].
  destruct (dependencies_satisfied_after_loop abc abc_package "c"
              default_config empty_world ["a"; "b"] after.2.1 after.2.2)
    as (_ & _ & Hcheck); [by vm_compute | by vm_compute | by_run |].
  apply Hcheck. by_compute.
Defined.

End CommandsTheorems.
